(** * create-backup.py: a directory mirror with a fixed exclusion set

    The script walks [/home/van/reward-project] top-down with [os.walk],
    prunes child directories whose name is in [exclude_dirs], recreates every
    visited directory under [/home/van/Reward Project backup] and copies the
    files of each visited directory with [shutil.copy2], warning on and
    skipping the copies that fail.

    The filesystem is one tree of directories and regular files shared by
    the source and the backup; every operation of the script is a function
    on that tree, run in a small monad that threads the world (filesystem,
    console, log of filesystem calls) and carries Python's exceptions.
    A filesystem call is one step: the interrupt of the user, if any,
    arrives when a call is about to be issued.

    Every node carries what the user who runs the script, who is not the
    superuser, may do with it. A regular file carries its content and can
    be opened for reading, for writing, or not; a directory can be listed,
    and entries can be added to it, or not. [os.walk] skips in silence a
    directory that cannot be listed; [shutil.copy2] raises when the source
    cannot be read, when the copy that is there cannot be written and when
    the directory that is to receive a new copy is not writable, and it
    gives the copy the permissions of the source; [Path.mkdir] raises when
    the directory that is to receive a new directory is not writable. Every
    directory can be searched, and there are no links.

    The file has three parts: the model and the vocabulary of the
    statements; the lemmas on the filesystem, the walk and the run, with the
    properties C1 to C10; and further properties of the run, X1 to X18. *)

From stdpp Require Import gmap strings list fin_maps pretty.

(** ** The filesystem *)

(** A path is the list of its components below [/]. *)
Abbreviation path := (list string).

(** What the user who runs the script may do with a node. A regular file
    can be opened for reading, for writing; a directory can be listed, and
    entries can be added to it. *)
Record mode := Mode {
  readable : bool;
  writable : bool
}.

Global Instance mode_eq_dec : EqDecision mode.
Proof. solve_decision. Defined.

(** The mode of a directory that [mkdir] has just made, that of a file
    that can only be read, and that of a node closed to the user. *)
Definition rw : mode := Mode true true.
Definition read_only : mode := Mode true false.
Definition no_access : mode := Mode false false.

(** A regular file carries its mode and its content; a directory carries
    its mode and maps names to nodes, so a name occurs once in a
    directory. *)
Inductive node :=
| File (m : mode) (content : string)
| Dir (m : mode) (entries : gmap string node).

(** What [os.stat] tells about a path, without the children; the mode of a
    directory is read with [dmode_at]. *)
Inductive kind :=
| KFile (m : mode) (content : string)
| KDir.

Global Instance kind_eq_dec : EqDecision kind.
Proof. solve_decision. Defined.

Definition node_kind (t : node) : kind :=
  match t with
  | File r c => KFile r c
  | Dir _ _ => KDir
  end.

Definition is_dir_node (t : node) : bool :=
  match t with Dir _ _ => true | File _ _ => false end.

(** The node a path resolves to. *)
Fixpoint stat (p : path) (t : node) : option node :=
  match p with
  | [] => Some t
  | n :: p' =>
      match t with
      | Dir _ es => es !! n ≫= stat p'
      | File _ _ => None
      end
  end.

Definition kind_at (p : path) (t : node) : option kind := node_kind <$> stat p t.

(** The mode of the directory at a path. *)
Definition dmode_at (p : path) (t : node) : option mode :=
  match stat p t with
  | Some (Dir m _) => Some m
  | _ => None
  end.

(** [Path.exists()] and [os.path.isdir]. *)
Definition path_exists (p : path) (t : node) : bool := bool_decide (is_Some (stat p t)).
Definition isdir (p : path) (t : node) : bool := bool_decide (kind_at p t = Some KDir).

Fixpoint node_size (t : node) : nat :=
  match t with
  | File _ _ => 1
  | Dir _ es => S (map_fold (λ _ n acc, n + acc) 0 (node_size <$> es))
  end.

(** Python's exceptions, those that derive from [Exception]. *)
Inductive exn :=
| FileNotFoundError
| FileExistsError
| NotADirectoryError
| IsADirectoryError
| PermissionError
| SameFileError.

Global Instance exn_eq_dec : EqDecision exn.
Proof. solve_decision. Defined.

(** The chain of fresh directories [n1/n2/.../nk] that [mkdir(parents=True)]
    creates below an existing directory. *)
Fixpoint fresh_dirs (p : path) : node :=
  match p with
  | [] => Dir rw ∅
  | n :: p' => Dir rw {[ n := fresh_dirs p' ]}
  end.

(** [Path.mkdir(parents=True, exist_ok=True)]: an existing directory is left
    as it is, whatever its mode; missing ancestors are created, the first
    of them in a directory that must be writable ([PermissionError]
    otherwise); and a regular file on the way raises ([FileExistsError] at
    the path itself, [NotADirectoryError] at an ancestor). *)
Fixpoint mkdir_p (p : path) (t : node) : exn + node :=
  match t, p with
  | File _ _, [] => inl FileExistsError
  | File _ _, _ :: _ => inl NotADirectoryError
  | Dir _ _, [] => inr t
  | Dir m es, n :: p' =>
      match es !! n with
      | Some c =>
          match mkdir_p p' c with
          | inr c' => inr (Dir m (<[n:=c']> es))
          | inl e => inl e
          end
      | None =>
          if writable m then inr (Dir m (<[n:=fresh_dirs p']> es))
          else inl PermissionError
      end
  end.

(** Opening [p] for writing and storing the file [f] there: the parent must
    be an existing directory and [p] itself must not be a directory; a
    regular file that is there must be writable, and where nothing is there
    the parent must be writable ([PermissionError] otherwise). *)
Fixpoint write_file (p : path) (f : node) (t : node) : exn + node :=
  match t, p with
  | _, [] => inl IsADirectoryError
  | File _ _, _ :: _ => inl NotADirectoryError
  | Dir m es, [n] =>
      match es !! n with
      | Some (Dir _ _) => inl IsADirectoryError
      | Some (File m' _) =>
          if writable m' then inr (Dir m (<[n:=f]> es)) else inl PermissionError
      | None =>
          if writable m then inr (Dir m (<[n:=f]> es)) else inl PermissionError
      end
  | Dir m es, n :: p' =>
      match es !! n with
      | Some c =>
          match write_file p' f c with
          | inr c' => inr (Dir m (<[n:=c']> es))
          | inl e => inl e
          end
      | None => inl FileNotFoundError
      end
  end.

(** [os.path.basename]. *)
Definition basename (p : path) : string := List.last p "".

(** [shutil.copy2(src, dst)]: when [dst] is a directory the file goes inside
    it under the base name of [src]; the source is opened for reading, then
    the target for writing; content and mode are copied, so the copy of a
    file that is not writable is not writable either. *)
Definition copy2 (src dst : path) (t : node) : exn + node :=
  let dst := if isdir dst t then dst ++ [basename src] else dst in
  if bool_decide (src = dst) && path_exists src t then inl SameFileError
  else match stat src t with
       | None => inl FileNotFoundError
       | Some (Dir _ _) => inl IsADirectoryError
       | Some (File m c) =>
           if readable m then write_file dst (File m c) t else inl PermissionError
       end.

(** [os.scandir] as [os.walk] uses it: the names of the sub-directories and
    of the other entries of a directory, [None] when the path cannot be
    listed: it is not a directory ([NotADirectoryError]), or it is a
    directory that the user may not read ([PermissionError]). [os.walk],
    called without [onerror], swallows that error. *)
Definition scandir (p : path) (t : node) : option (list string * list string) :=
  match stat p t with
  | Some (Dir m es) =>
      if readable m then
        let l := map_to_list es in
        Some ((filter (λ ne : string * node, is_dir_node ne.2) l).*1,
              (filter (λ ne : string * node, ¬ is_dir_node ne.2) l).*1)
      else None
  | _ => None
  end.

(** [os.path.relpath(p, start)] on normalised absolute paths; the empty list
    is Python's ['.']. *)
Definition relpath (p start : path) : path :=
  let '(up, down, _) := max_prefix start p in
  replicate (length up) ".." ++ down.

(** ** The world of a run *)

(** The filesystem calls of the script, in the order they are issued. *)
Inductive syscall :=
| SysExists (p : path)
| SysMkdir (p : path)
| SysScandir (p : path)
| SysCopy (src dst : path).

Global Instance syscall_eq_dec : EqDecision syscall.
Proof. solve_decision. Defined.

(** The lines the script prints. *)
Inductive output :=
| Line (s : string)
| SourceLine (p : path)
| BackupLine (p : path)
| TimestampLine (ts : string)
| SourceMissing (p : path)
| BackupReady (p : path)
| Progress (n : nat)
| Warning (src : path) (e : exn)
| BackupLocation (p : path)
| FilesCopied (n : nat)
| DirsCreated (n : nat)
| RestoreFrom (p : path)
| Cancelled
| BackupFailed (e : exn).

Global Instance output_eq_dec : EqDecision output.
Proof. solve_decision. Defined.

Record world := World {
  fs : node;
  stdout : list output;
  calls : list syscall
}.

(** What the run does not decide: the clock, and the filesystem call (by
    its index in the run) at which the user interrupts, if any. *)
Record env := Env {
  now : string;
  sigint : option nat
}.

(** How a computation ends other than by returning: an exception derived
    from [Exception], the two that are not, or a walk out of fuel. *)
Inductive signal :=
| Raise (e : exn)
| KeyboardInterrupt
| SystemExit (code : nat)
| Diverge.

Inductive outcome (A : Type) :=
| Ret (a : A)
| Stop (s : signal).
Arguments Ret {A} a.
Arguments Stop {A} s.

Definition M (A : Type) : Type := world → outcome A * world.

Global Instance M_ret : MRet M := λ A a w, (Ret a, w).

Global Instance M_bind : MBind M := λ A B f m w,
  match m w with
  | (Ret a, w') => f a w'
  | (Stop s, w') => (Stop s, w')
  end.

(** [try: m except Exception as e: h e]; [KeyboardInterrupt] and
    [SystemExit] are not [Exception]s and pass through. *)
Definition try_except {A} (m : M A) (h : exn → M A) : M A := λ w,
  match m w with
  | (Stop (Raise e), w') => h e w'
  | r => r
  end.

Definition print (o : output) : M unit := λ w,
  (Ret tt, World (fs w) (stdout w ++ [o]) (calls w)).

Definition sys_exit {A} (code : nat) : M A := λ w, (Stop (SystemExit code), w).

(** A filesystem call: interrupted when the user's signal is due, otherwise
    logged and run on the filesystem. *)
Definition sys {A} (E : env) (c : syscall) (k : node → outcome A * node) : M A := λ w,
  if decide (sigint E = Some (length (calls w))) then (Stop KeyboardInterrupt, w)
  else let '(r, t') := k (fs w) in (r, World t' (stdout w) (calls w ++ [c])).

Definition Path_exists (E : env) (p : path) : M bool :=
  sys E (SysExists p) (λ t, (Ret (path_exists p t), t)).

Definition Path_mkdir (E : env) (p : path) : M unit :=
  sys E (SysMkdir p) (λ t,
    match mkdir_p p t with
    | inr t' => (Ret tt, t')
    | inl e => (Stop (Raise e), t)
    end).

Definition os_scandir (E : env) (p : path) : M (option (list string * list string)) :=
  sys E (SysScandir p) (λ t, (Ret (scandir p t), t)).

Definition shutil_copy2 (E : env) (src dst : path) : M unit :=
  sys E (SysCopy src dst) (λ t,
    match copy2 src dst t with
    | inr t' => (Ret tt, t')
    | inl e => (Stop (Raise e), t)
    end).

(** ** The script *)

Definition source_dir : path := ["home"; "van"; "reward-project"].
Definition backup_dir : path := ["home"; "van"; "Reward Project backup"].

Definition exclude_dirs : gset string :=
  {[ "node_modules"; ".git"; "__pycache__"; ".next"; "dist"; "build" ]}.

Definition rule : string := "==================================================".

(** Lines 61-70: one file of the current directory. *)
Definition copy_file (E : env) (root dest_root : path) (file : string)
    (copied_files : nat) : M nat :=
  let src_file := root ++ [file] in
  let dest_file := dest_root ++ [file] in
  try_except
    (shutil_copy2 E src_file dest_file ;;
     let copied_files := copied_files + 1 in
     (if copied_files mod 100 =? 0 then print (Progress copied_files) else mret tt) ;;
     mret copied_files)
    (λ e, print (Warning src_file e) ;; mret copied_files).

Fixpoint copy_files (E : env) (root dest_root : path) (files : list string)
    (copied_files : nat) : M nat :=
  match files with
  | [] => mret copied_files
  | file :: files =>
      copied_files ← copy_file E root dest_root file copied_files;
      copy_files E root dest_root files copied_files
  end.

(** Lines 45-70: the body of the loop for one triple yielded by [os.walk].
    It returns the pruned [dirs] (the list is mutated in place, and [os.walk]
    descends into what is left of it) and the two counters. *)
Definition walk_body (E : env) (root : path) (dirs files : list string)
    (counts : nat * nat) : M (list string * (nat * nat)) :=
  let '(copied_files, copied_dirs) := counts in
  let dirs := filter (λ d, d ∉ exclude_dirs) dirs in
  let rel_path := relpath root source_dir in
  let dest_root :=
    match rel_path with
    | [] => backup_dir
    | _ => backup_dir ++ rel_path
    end in
  Path_mkdir E dest_root ;;
  let copied_dirs :=
    match rel_path with
    | [] => copied_dirs
    | _ => copied_dirs + 1
    end in
  copied_files ← copy_files E root dest_root files copied_files;
  mret (dirs, (copied_files, copied_dirs)).

(** One turn of [for root, dirs, files in os.walk(source_dir)]: the walk
    lists the directory on top of its stack; a directory that cannot be
    listed is skipped; otherwise the triple is yielded to the body and the
    sub-directories left in [dirs] are pushed, first one on top. *)
Definition walk_step (E : env) (root : path) (stack : list path)
    (counts : nat * nat) : M (list path * (nat * nat)) :=
  r ← os_scandir E root;
  match r with
  | None => mret (stack, counts)
  | Some (dirs, files) =>
      '(dirs, counts) ← walk_body E root dirs files counts;
      mret (((λ d, root ++ [d]) <$> dirs) ++ stack, counts)
  end.

Fixpoint walk_loop (E : env) (fuel : nat) (stack : list path)
    (counts : nat * nat) : M (nat * nat) :=
  match stack with
  | [] => mret counts
  | root :: stack =>
      match fuel with
      | 0 => λ w, (Stop Diverge, w)
      | S fuel =>
          '(stack, counts) ← walk_step E root stack counts;
          walk_loop E fuel stack counts
      end
  end.

(** [for ... in os.walk(top)]: the walk starts with [top] alone on its
    stack; it takes at most one turn per node below [top]. *)
Definition walk_fuel (top : path) (t : node) : nat :=
  from_option node_size 0 (stat top t).

Definition for_os_walk (E : env) (top : path) (counts : nat * nat) : M (nat * nat) :=
  λ w, walk_loop E (walk_fuel top (fs w)) [top] counts w.

Definition create_backup (E : env) : M unit :=
  print (Line rule) ;;
  print (Line "Creating backup of Reward Project") ;;
  print (Line rule) ;;
  print (SourceLine source_dir) ;;
  print (BackupLine backup_dir) ;;
  print (TimestampLine (now E)) ;;
  print (Line "") ;;
  ex ← Path_exists E source_dir;
  (if negb ex then
     print (SourceMissing source_dir) ;;
     sys_exit 1
   else mret tt) ;;
  Path_mkdir E backup_dir ;;
  print (BackupReady backup_dir) ;;
  print (Line "") ;;
  print (Line "Copying files (this may take a few minutes)...") ;;
  '(copied_files, copied_dirs) ← for_os_walk E source_dir (0, 0);
  print (Line "") ;;
  print (Line "") ;;
  print (Line rule) ;;
  print (Line "Backup completed successfully!") ;;
  print (Line rule) ;;
  print (BackupLocation backup_dir) ;;
  print (FilesCopied copied_files) ;;
  print (DirsCreated copied_dirs) ;;
  print (Line "") ;;
  print (Line "Backup includes:") ;;
  print (Line "  - All source code files") ;;
  print (Line "  - Configuration files") ;;
  print (Line "  - Documentation") ;;
  print (Line "") ;;
  print (Line "Excluded:") ;;
  print (Line "  - node_modules (can be reinstalled)") ;;
  print (Line "  - .git (to save space)") ;;
  print (Line "  - Other build/cache directories") ;;
  print (Line "") ;;
  print (Line "To restore from backup, copy files back from:") ;;
  print (RestoreFrom backup_dir) ;;
  print (Line "").

Definition boot (t : node) : world := World t [] [].

(** Lines 95-103: the exit status of the process and the world it leaves;
    [None] only if the walk ran out of fuel. *)
Definition main (E : env) (t : node) : option (nat * world) :=
  match create_backup E (boot t) with
  | (Ret _, w) => Some (0, w)
  | (Stop KeyboardInterrupt, w) =>
      Some (1, World (fs w) (stdout w ++ [Cancelled]) (calls w))
  | (Stop (Raise e), w) =>
      Some (1, World (fs w) (stdout w ++ [BackupFailed e]) (calls w))
  | (Stop (SystemExit c), w) => Some (c, w)
  | (Stop Diverge, _) => None
  end.

(** ** A concrete tree *)

Definition quiet : env := Env "20260101_000000" None.

Definition in_home (van : gmap string node) : node :=
  Dir rw {[ "home" := Dir rw {[ "van" := Dir rw van ]} ]}.

Definition example_source : node :=
  Dir rw {[ "a" := Dir rw {[ "x.txt" := File rw "x";
                             "node_modules" := Dir rw {[ "y.txt" := File rw "y" ]} ]};
            "b.txt" := File rw "b" ]}.

Definition example_fs : node := in_home {[ "reward-project" := example_source ]}.


(** ** Vocabulary of the specification *)

(** Where [shutil.copy2 src dst] writes. *)
Definition copy_target (src dst : path) (t : node) : path :=
  if isdir dst t then dst ++ [basename src] else dst.

(** No component of the path [d] below [source_dir] is in [exclude_dirs]. *)
Definition unpruned (d : path) : Prop := Forall (λ n, n ∉ exclude_dirs) d.

(** The path [p] is a directory that the user may list. *)
Definition listable (p : path) (t : node) : Prop :=
  ∃ m, dmode_at p t = Some m ∧ readable m = true.

(** The directories of the source that the walk visits: no component of the
    path below [source_dir] is in [exclude_dirs], and the directory and
    every directory above it, from [source_dir] down, can be listed. *)
Definition walked (t : node) (d : path) : Prop :=
  unpruned d ∧ ∀ d', d' `prefix_of` d → listable (source_dir ++ d') t.

(** The paths the walk comes to list: no component is excluded, and every
    directory above the path, from [source_dir] down, can be listed. *)
Definition reached (t : node) (d : path) : Prop :=
  unpruned d ∧ ∀ d', d' `prefix_of` d → d' ≠ d → listable (source_dir ++ d') t.

(** The directories of the source as the specification speaks of them:
    those whose path below [source_dir] has no component in
    [exclude_dirs], whether or not they can be listed. *)
Definition unexcluded (t : node) (d : path) : Prop :=
  kind_at (source_dir ++ d) t = Some KDir ∧ unpruned d.

(** A regular file [f] directly in the source directory [d]. *)
Definition source_file (t : node) (d : path) (f : string) : Prop :=
  ∃ r c, kind_at (source_dir ++ d ++ [f]) t = Some (KFile r c).

(** The effect of a logged call on the filesystem; a call that raises
    leaves it as it was. *)
Definition apply_call (c : syscall) (T : node) : node :=
  match c with
  | SysExists _ | SysScandir _ => T
  | SysMkdir p => match mkdir_p p T with inr T' => T' | inl _ => T end
  | SysCopy src dst => match copy2 src dst T with inr T' => T' | inl _ => T end
  end.

Definition replay (cs : list syscall) (T : node) : node :=
  foldl (λ T c, apply_call c T) T cs.

(** The calls a run on the initial tree [t] may issue. *)
Definition allowed_call (t : node) (c : syscall) : Prop :=
  match c with
  | SysExists p => p = source_dir
  | SysMkdir p => p = backup_dir ∨ ∃ d, p = backup_dir ++ d ∧ walked t d
  | SysScandir p => ∃ d, p = source_dir ++ d ∧ reached t d
  | SysCopy src dst =>
      ∃ d f, src = source_dir ++ d ++ [f] ∧ dst = backup_dir ++ d ++ [f] ∧
             walked t d ∧ source_file t d f
  end.

(** The warnings printed so far and the copies called so far. *)
Definition is_warning (o : output) : bool :=
  match o with Warning _ _ => true | _ => false end.
Definition is_copy (c : syscall) : bool :=
  match c with SysCopy _ _ => true | _ => false end.
Definition warnings (out : list output) : nat := length (filter is_warning out).
Definition copies (cs : list syscall) : nat := length (filter is_copy cs).

(** The call that copies the file [f] of [root] into [dest]. *)
Definition copy_call (root dest : path) (f : string) : syscall :=
  SysCopy (root ++ [f]) (dest ++ [f]).

(** What the loop over the files of one directory prints: progress lines,
    and a warning only for a file whose copy raised in the filesystem the
    earlier copies of the loop had left. *)
Definition loop_output (root dest : path) (files : list string) (T : node)
    (o : output) : Prop :=
  match o with
  | Progress _ => True
  | Warning src e =>
      ∃ k f, files !! k = Some f ∧ src = root ++ [f] ∧
             copy2 (root ++ [f]) (dest ++ [f])
               (replay (copy_call root dest <$> take k files) T) = inl e
  | _ => False
  end.

(** The calls of one turn of the walk on a directory that lists. *)
Definition step_calls (root dest : path) (files : list string) : list syscall :=
  SysScandir root :: SysMkdir dest :: (copy_call root dest <$> files).

(** What every filesystem [T] reached from the initial tree [t] by the
    calls of a run satisfies: the source is as it was, nothing outside the
    backup has changed, directories and files that were there are still
    there, directories have the mode they had and new ones that of
    [mkdir], what is new in the backup mirrors the source, nothing is new
    in a directory that was not writable, and a file that was not writable
    is as it was. *)
Record sound (t T : node) : Prop := Sound {
  sound_source : stat source_dir T = stat source_dir t;
  sound_outside q : ¬ backup_dir `prefix_of` q → kind_at q T = kind_at q t;
  sound_dirs p :
    kind_at (backup_dir ++ p) T = Some KDir →
    kind_at (backup_dir ++ p) t = Some KDir ∨ p = [] ∨ walked t p;
  sound_dirs_kept q : kind_at q t = Some KDir → kind_at q T = Some KDir;
  sound_modes q m :
    dmode_at q T = Some m →
    dmode_at q t = Some m ∨ (kind_at q t = None ∧ m = rw);
  sound_files q r c :
    kind_at q T = Some (KFile r c) →
    kind_at q t = Some (KFile r c) ∨
    ∃ d f, walked t d ∧ kind_at (source_dir ++ d ++ [f]) t = Some (KFile r c) ∧
           readable r = true ∧
           (q = backup_dir ++ d ++ [f] ∨ q = backup_dir ++ d ++ [f; f]);
  sound_files_kept q r c :
    kind_at q t = Some (KFile r c) → ∃ r' c', kind_at q T = Some (KFile r' c');
  sound_made q n m :
    dmode_at q t = Some m → kind_at (q ++ [n]) t = None →
    is_Some (kind_at (q ++ [n]) T) → writable m = true;
  sound_read_only q r c :
    kind_at q t = Some (KFile r c) → writable r = false →
    kind_at q T = Some (KFile r c)
}.

(** Writing the file of mode [m] and content [c] at [p], in the directory
    [par], would change nothing: it is there already; or the file that is
    there is not writable; or nothing is there and [par] is not writable. *)
Definition rests (T : node) (par p : path) (m : mode) (c : string) : Prop :=
  kind_at p T = Some (KFile m c) ∨
  (∃ m' c', kind_at p T = Some (KFile m' c') ∧ writable m' = false) ∨
  (kind_at p T = None ∧ ∃ dm, dmode_at par T = Some dm ∧ writable dm = false).

(** The copy of the source file [f] of [d] has had its effect on [T], or
    cannot have any: copying it again would change nothing. *)
Definition settled (t T : node) (d : path) (f : string) : Prop :=
  ∀ m c, kind_at (source_dir ++ d ++ [f]) t = Some (KFile m c) →
    readable m = true →
    let dst := backup_dir ++ d ++ [f] in
    rests T (backup_dir ++ d) dst m c ∨
    (kind_at dst T = Some KDir ∧
     (rests T dst (backup_dir ++ d ++ [f; f]) m c ∨
      kind_at (backup_dir ++ d ++ [f; f]) T = Some KDir)).


(** The number of regular files in the directories the walk visits from a
    directory down: none if the directory cannot be listed, otherwise the
    files of the directory itself and those below its sub-directories whose
    name is not excluded (a file counts whatever its name). *)
Fixpoint files_below (t : node) : nat :=
  match t with
  | File _ _ => 0
  | Dir m es =>
      if readable m then
        map_fold (λ n c acc,
          match c with
          | File _ _ => 1
          | Dir _ _ => if decide (n ∈ exclude_dirs) then 0 else files_below c
          end + acc) 0 es
      else 0
  end.

Definition files_at (p : path) (t : node) : nat :=
  from_option files_below 0 (stat p t).

(** The total number of files in the directories of the source that the
    walk visits. *)
Definition total_files (t : node) : nat := files_at source_dir t.



(** ** The invariant of the walk *)

(** A directory is still to be visited when it lies below a path on the
    stack of the walk. *)
Definition pending (d : path) (stack : list path) : Prop :=
  ∃ root, root ∈ stack ∧ root `prefix_of` source_dir ++ d.

(** A directory has been visited: its mirror is there, and each of its
    files has been passed to [shutil.copy2] and is settled. *)
Definition visited (t : node) (w : world) (d : path) : Prop :=
  kind_at (backup_dir ++ d) (fs w) = Some KDir ∧
  ∀ f, settled t (fs w) d f ∧
       (source_file t d f →
        SysCopy (source_dir ++ d ++ [f]) (backup_dir ++ d ++ [f]) ∈ calls w).

(** The run has not written yet where the copy of the file [f] of [d]
    goes: the mirror of the file, and the place inside it that
    [shutil.copy2] takes when the mirror is a directory, are as they were. *)
Definition untouched (t T : node) (d : path) (f : string) : Prop :=
  kind_at (backup_dir ++ d ++ [f]) T = kind_at (backup_dir ++ d ++ [f]) t ∧
  kind_at (backup_dir ++ d ++ [f; f]) T = kind_at (backup_dir ++ d ++ [f; f]) t.

(** A warning is printed only for a copy that raised, in a filesystem where
    the mirror of the file's directory was there and the place of the copy
    was as before the run. *)
Definition warned (t : node) (src : path) (e : exn) : Prop :=
  ∃ d f T, src = source_dir ++ d ++ [f] ∧ walked t d ∧ sound t T ∧
           kind_at (backup_dir ++ d) T = Some KDir ∧
           untouched t T d f ∧
           copy2 src (backup_dir ++ d ++ [f]) T = inl e.

(** No path on the stack of the walk lies below another: the walk comes to
    a directory once. *)
Definition apart (stack : list path) : Prop :=
  ∀ i j r r', stack !! i = Some r → stack !! j = Some r' →
              r `prefix_of` r' → i = j.

Record walk_inv (t : node) (fuel : nat) (stack : list path)
    (counts : nat * nat) (w : world) : Prop := WalkInv {
  inv_trace : fs w = replay (calls w) t;
  inv_allowed : Forall (allowed_call t) (calls w);
  inv_root : kind_at backup_dir (fs w) = Some KDir;
  inv_stack :
    Forall (λ root, ∃ d, root = source_dir ++ d ∧ reached t d ∧
                         is_Some (kind_at root t)) stack;
  inv_apart : apart stack;
  inv_fuel : sum_list_with (λ root, walk_fuel root t) stack ≤ fuel;
  inv_visited d : walked t d → pending d stack ∨ visited t w d;
  inv_fresh d f :
    pending d stack → walked t d → source_file t d f → untouched t (fs w) d f;
  inv_count : counts.1 + warnings (stdout w) = copies (calls w);
  inv_total :
    copies (calls w) + sum_list_with (λ root, files_at root t) stack
    = total_files t;
  inv_warned src e : Warning src e ∈ stdout w → warned t src e
}.

(** How the walk can stop: on the user's interrupt, or on a [mkdir] that
    raised. *)
Definition walk_stop (E : env) (t : node) (s : signal) (w : world) : Prop :=
  fs w = replay (calls w) t ∧ Forall (allowed_call t) (calls w) ∧
  (s = KeyboardInterrupt ∧ sigint E = Some (length (calls w)) ∨
   ∃ e d T, s = Raise e ∧ walked t d ∧ sound t T ∧
            mkdir_p (backup_dir ++ d) T = inl e).

(** The lines the loop prints. *)
Definition loop_line (o : output) : Prop :=
  match o with
  | Progress _ | Warning _ _ => True
  | _ => False
  end.

(** The console of a run: what is printed before the walk, and the summary
    printed after it. *)
Definition header (E : env) : list output :=
  [Line rule; Line "Creating backup of Reward Project"; Line rule;
   SourceLine source_dir; BackupLine backup_dir; TimestampLine (now E); Line ""].

Definition ready : list output :=
  [BackupReady backup_dir; Line "";
   Line "Copying files (this may take a few minutes)..."].

Definition completed : output := Line "Backup completed successfully!".

Definition summary (copied_files copied_dirs : nat) : list output :=
  [Line ""; Line ""; Line rule; completed; Line rule;
   BackupLocation backup_dir; FilesCopied copied_files; DirsCreated copied_dirs;
   Line ""; Line "Backup includes:"; Line "  - All source code files";
   Line "  - Configuration files"; Line "  - Documentation"; Line "";
   Line "Excluded:"; Line "  - node_modules (can be reinstalled)";
   Line "  - .git (to save space)"; Line "  - Other build/cache directories";
   Line ""; Line "To restore from backup, copy files back from:";
   RestoreFrom backup_dir; Line ""].

(** The mirror the example run is meant to leave. *)
Definition example_backup : node :=
  Dir rw {[ "a" := Dir rw {[ "x.txt" := File rw "x" ]};
         "b.txt" := File rw "b" ]}.

(** An empty source next to a backup that already holds a directory. *)
Definition stale_fs : node :=
  in_home {[ "reward-project" := Dir rw ∅;
             "Reward Project backup" := Dir rw {[ "old" := Dir rw ∅ ]} ]}.

(** A source file named [dist] whose place in the backup is taken by a
    directory. *)
Definition clash_fs : node :=
  in_home {[ "reward-project" := Dir rw {[ "dist" := File rw "d" ]};
             "Reward Project backup" := Dir rw {[ "dist" := Dir rw ∅ ]} ]}.

(** A regular file where the source directory should be. *)
Definition file_source_fs : node :=
  in_home {[ "reward-project" := File rw "not a directory" ]}.



(** The world a run leaves ([boot] if the walk ran out of fuel). *)
Definition world_after (E : env) (t : node) : world :=
  from_option snd (boot t) (main E t).

(** A source with a directory that the user may not list. *)
Definition unlistable_fs : node :=
  in_home {[ "reward-project" :=
               Dir rw {[ "secret" := Dir no_access {[ "s.txt" := File rw "s" ]};
                         "b.txt" := File rw "b" ]} ]}.

Definition unlistable_world : world :=
  Eval vm_compute in world_after quiet unlistable_fs.

Definition example_world : world := Eval vm_compute in world_after quiet example_fs.

(** A path that is there after the run and was not before. *)
Definition created (t T : node) (q : path) : Prop :=
  kind_at q t = None ∧ is_Some (kind_at q T).

(** The path [p] below the backup root passes through a directory whose
    name is excluded. *)
Definition through_excluded (T : node) (p : path) : Prop :=
  ∃ q x, q ++ [x] `prefix_of` p ∧ x ∈ exclude_dirs ∧
         kind_at (backup_dir ++ q ++ [x]) T = Some KDir.



Definition clash_world : world := Eval vm_compute in world_after quiet clash_fs.


(** The directory [p] is there or can be made: no regular file stands on
    the path, and where the path leaves what is there, the last directory
    that is there is writable. *)
Definition can_mkdir (p : path) (t : node) : Prop :=
  (∀ q r c, q `prefix_of` p → kind_at q t ≠ Some (KFile r c)) ∧
  (∀ q n m, q ++ [n] `prefix_of` p → dmode_at q t = Some m →
            kind_at (q ++ [n]) t = None → writable m = true).

(** Every directory the run has to make, the backup root and the mirror of
    each source directory that the walk visits, is there or can be made,
    so that no [mkdir] can raise. *)
Definition mkdir_clear (t : node) : Prop :=
  ∀ d, d = [] ∨ walked t d → can_mkdir (backup_dir ++ d) t.



(** The lines printed while [create_backup] runs, before its summary: not
    the completion line, nor the two lines of the handlers of [main]. *)
Definition running_line (o : output) : Prop :=
  match o with
  | Cancelled | BackupFailed _ => False
  | Line s => s ≠ "Backup completed successfully!"
  | _ => True
  end.

(** ** Further vocabulary *)

(** The world in which the walk starts: the backup root is there, the
    header and the ready lines are printed, two calls are logged. *)
Definition walk_start (E : env) (T0 : node) : world :=
  World T0 (header E ++ ready) [SysExists source_dir; SysMkdir backup_dir].




(** A regular file where the mirror of the source directory [a] goes. *)
Definition blocked_fs : node :=
  in_home {[ "reward-project" := Dir rw {[ "a" := Dir rw ∅ ]};
             "Reward Project backup" := Dir rw {[ "a" := File rw "in the way" ]} ]}.

(** A home directory in which the user may not write, with a source and
    no backup. *)
Definition unwritable_home_fs : node :=
  Dir rw {[ "home" := Dir rw {[ "van" :=
    Dir read_only {[ "reward-project" := Dir rw ∅ ]} ]} ]}.

(** A backup that holds an older copy of a source file, read-only. *)
Definition read_only_copy_fs : node :=
  in_home {[ "reward-project" := Dir rw {[ "b.txt" := File rw "new" ]};
             "Reward Project backup" :=
               Dir rw {[ "b.txt" := File read_only "old" ]} ]}.

Definition read_only_copy_world : world :=
  Eval vm_compute in world_after quiet read_only_copy_fs.




(** The number of directories the walk visits from a node down: none if
    the node is not a directory that can be listed, otherwise the directory
    itself and what the walk visits from its entries whose name is not
    excluded. *)
Fixpoint dirs_from (t : node) : nat :=
  match t with
  | File _ _ => 0
  | Dir m es =>
      if readable m then
        S (map_fold (λ n c acc,
             match c with
             | File _ _ => 0
             | Dir _ _ => if decide (n ∈ exclude_dirs) then 0 else dirs_from c
             end + acc) 0 es)
      else 0
  end.

Definition dirs_at (p : path) (t : node) : nat :=
  from_option dirs_from 0 (stat p t).

(** The number of directories of the source that the walk visits, the root
    apart. *)
Definition total_dirs (t : node) : nat := dirs_at source_dir t - 1.

(** What a path on the stack of the walk still adds to the counter of
    directories: what the walk visits from it, the root apart. *)
Definition dirs_to_count (t : node) (root : path) : nat :=
  dirs_at root t - (if decide (root = source_dir) then 1 else 0).

Definition count_inv (t : node) (stack : list path) (counts : nat * nat) : Prop :=
  counts.2 + sum_list_with (dirs_to_count t) stack = total_dirs t.

(** The progress lines of a console, and those a run that has copied [n]
    files has printed: one for each multiple of 100 up to [n]. *)
Definition is_progress (o : output) : bool :=
  match o with Progress _ => true | _ => false end.

Definition progress_lines (n : nat) : list output :=
  (λ k, Progress (100 * k)) <$> seq 1 (n / 100).

(** The walk, started at the node [s], visits the directory at the path
    [p] below it. *)
Definition visits (s : node) (p : path) : Prop :=
  unpruned p ∧ ∀ p', p' `prefix_of` p → listable p' s.

(** What a backup is meant to hold of a source tree: the directories that
    the walk visits, made anew, with the files in them that can be read.
    The root is made even if it cannot be listed; a sub-directory that
    cannot be listed, or whose name is excluded, is left out. *)
Fixpoint pruned (t : node) : node :=
  match t with
  | File r c => File r c
  | Dir m es =>
      Dir rw (if readable m then
                map_fold (λ n c acc,
                  match c with
                  | File r _ => if readable r then <[n:=c]> acc else acc
                  | Dir m' _ =>
                      if decide (n ∈ exclude_dirs) then acc
                      else if readable m' then <[n:=pruned c]> acc else acc
                  end) ∅ es
              else ∅)
  end.

(** What [pruned] keeps of the entry [c] found under the name [n]. *)
Definition kept (n : string) (c : node) : option node :=
  match c with
  | File r _ => if readable r then Some c else None
  | Dir m' _ =>
      if decide (n ∈ exclude_dirs) then None
      else if readable m' then Some (pruned c) else None
  end.

(** A file can be written at [p], in the directory [par]: a writable
    regular file is there; or nothing is there and [par], if it is there,
    is writable. *)
Definition can_write (par p : path) (t : node) : Prop :=
  (∃ m c, kind_at p t = Some (KFile m c) ∧ writable m = true) ∨
  (kind_at p t = None ∧ ∀ dm, dmode_at par t = Some dm → writable dm = true).











(** The copy of the file [f] of the source directory [d] cannot but fail:
    the file cannot be read; or the copy that is in the backup cannot be
    written; or there is none and the directory of the backup where it
    goes is not writable. *)
Definition doomed (t : node) (d : path) (f : string) : Prop :=
  (∃ m c, kind_at (source_dir ++ d ++ [f]) t = Some (KFile m c) ∧
          readable m = false) ∨
  (∃ m c, kind_at (backup_dir ++ d ++ [f]) t = Some (KFile m c) ∧
          writable m = false) ∨
  (kind_at (backup_dir ++ d ++ [f]) t = None ∧
   ∃ dm, dmode_at (backup_dir ++ d) t = Some dm ∧ writable dm = false).

(** Every copy that cannot but fail and that the run has called is matched
    by its warning on the console. *)
Definition warned_when_called (t : node) (w : world) : Prop :=
  ∀ d f, doomed t d f →
    SysCopy (source_dir ++ d ++ [f]) (backup_dir ++ d ++ [f]) ∈ calls w →
    Warning (source_dir ++ d ++ [f]) PermissionError ∈ stdout w.

(** The environment of [E] in which the user interrupts at the call of
    index [k]. *)
Definition interrupt_at (E : env) (k : nat) : env := Env (now E) (Some k).

(** The computation [mk] is [m0] cut short by an interrupt at the call of
    index [k]: [m0] only adds to the log of calls and to the console; from a
    world with at most [k] calls, [mk] does what [m0] does if [m0] ends with
    at most [k] calls, and otherwise stops on the interrupt with the first
    [k] calls of [m0] logged and a console that [m0] extends. *)
Definition cut_short (k : nat) {A} (m0 mk : M A) : Prop :=
  ∀ w,
    calls w `prefix_of` calls (m0 w).2 ∧
    stdout w `prefix_of` stdout (m0 w).2 ∧
    (length (calls w) ≤ k →
     if decide (length (calls (m0 w).2) ≤ k) then mk w = m0 w
     else ∃ wk, mk w = (Stop KeyboardInterrupt, wk) ∧
                calls wk = take k (calls (m0 w).2) ∧
                stdout w `prefix_of` stdout wk ∧
                stdout wk `prefix_of` stdout (m0 w).2).

(** A line of the console as a run started at the time [ts] prints it. *)
Definition retime (ts : string) (o : output) : output :=
  match o with
  | TimestampLine _ => TimestampLine ts
  | _ => o
  end.

(** The world [w2] is [w1] but for the timestamps on the console, which
    are [ts]. *)
Definition retimed (ts : string) (w1 w2 : world) : Prop :=
  fs w2 = fs w1 ∧ calls w2 = calls w1 ∧ stdout w2 = retime ts <$> stdout w1.

(** Two computations that do the same from worlds that differ in the
    timestamps printed only. *)
Definition clock_blind (ts : string) {A} (m1 m2 : M A) : Prop :=
  ∀ w1 w2, retimed ts w1 w2 →
    (m2 w2).1 = (m1 w1).1 ∧ retimed ts (m1 w1).2 (m2 w2).2.

(** A source file that cannot be read any more, with an older backup. *)
Definition locked_fs : node :=
  in_home {[ "reward-project" := Dir rw {[ "k" := File no_access "new" ]};
             "Reward Project backup" := Dir rw {[ "k" := File rw "old" ]} ]}.

Definition locked_world : world :=
  Eval vm_compute in world_after quiet locked_fs.

(** A source of 101 files, named [0] to [100]. *)
Definition hundred_fs : node :=
  in_home {[ "reward-project" :=
               Dir rw (list_to_map ((λ k : nat, (pretty k, File rw "")) <$> seq 0 101)) ]}.

Definition hundred_world : world :=
  Eval vm_compute in world_after quiet hundred_fs.

(** * Properties *)

(** ** Paths and lookups *)

Lemma stat_app p q t : stat (p ++ q) t = stat p t ≫= stat q.
Proof.
  revert t. induction p as [|n p IH]; intros t; simpl; [done|].
  destruct t as [|m es]; [done|]. destruct (es !! n); simpl; auto.
Qed.

Lemma stat_snoc p n t :
  stat (p ++ [n]) t =
  match stat p t with
  | Some (Dir _ es) => es !! n
  | _ => None
  end.
Proof.
  rewrite stat_app. destruct (stat p t) as [[|m es]|]; simpl; [done| |done].
  by destruct (es !! n).
Qed.

Lemma kind_at_nil t : kind_at [] t = Some (node_kind t).
Proof. done. Qed.

Lemma kind_at_cons n p m es : kind_at (n :: p) (Dir m es) = es !! n ≫= kind_at p.
Proof. unfold kind_at. simpl. by destruct (es !! n). Qed.

Lemma dmode_at_cons n p m es : dmode_at (n :: p) (Dir m es) = es !! n ≫= dmode_at p.
Proof. unfold dmode_at. simpl. by destruct (es !! n). Qed.

Lemma kind_at_cons_file n p r c : kind_at (n :: p) (File r c) = None.
Proof. done. Qed.

Lemma kind_at_dir_stat p t :
  kind_at p t = Some KDir ↔ ∃ m es, stat p t = Some (Dir m es).
Proof.
  unfold kind_at. destruct (stat p t) as [[|m es]|]; simpl; split;
    try done; try (by intros (? & ? & ?)); eauto.
Qed.

Lemma dmode_at_stat p t m :
  dmode_at p t = Some m ↔ ∃ es, stat p t = Some (Dir m es).
Proof.
  unfold dmode_at. destruct (stat p t) as [[|m' es]|]; split;
    try done; try (by intros [? ?]).
  - intros [= ->]. eauto.
  - by intros [? [= -> _]].
Qed.

(** A path has a directory mode exactly when it is a directory. *)
Lemma dmode_at_kind p t m : dmode_at p t = Some m → kind_at p t = Some KDir.
Proof. intros [es H]%dmode_at_stat. apply kind_at_dir_stat. eauto. Qed.

Lemma kind_at_dmode p t : kind_at p t = Some KDir → is_Some (dmode_at p t).
Proof.
  intros (m & es & H)%kind_at_dir_stat. exists m. apply dmode_at_stat. eauto.
Qed.

Lemma dmode_at_not_dir p t : kind_at p t ≠ Some KDir → dmode_at p t = None.
Proof.
  intros H. destruct (dmode_at p t) eqn:Hm; [|done].
  by apply dmode_at_kind in Hm.
Qed.

Lemma listable_dir p t : listable p t → kind_at p t = Some KDir.
Proof. intros (m & Hm & _). by eapply dmode_at_kind. Qed.

Lemma kind_at_file_stat p t r c : kind_at p t = Some (KFile r c) ↔ stat p t = Some (File r c).
Proof.
  unfold kind_at. destruct (stat p t) as [[|m es]|]; simpl; split; congruence.
Qed.

Lemma kind_at_None_stat p t : kind_at p t = None ↔ stat p t = None.
Proof. unfold kind_at. by destruct (stat p t). Qed.

(** Below an existing path every proper prefix is a directory. *)
Lemma kind_at_prefix q p t :
  q `prefix_of` p → q ≠ p → is_Some (kind_at p t) → kind_at q t = Some KDir.
Proof.
  intros [k ->] Hne. unfold kind_at. rewrite stat_app.
  destruct (stat q t) as [[|m es]|]; simpl.
  - destruct k; [by rewrite app_nil_r in Hne|]. by intros [? ?].
  - done.
  - by intros [? ?].
Qed.

Lemma kind_at_below_file q p t r c :
  q `prefix_of` p → q ≠ p → kind_at q t = Some (KFile r c) → kind_at p t = None.
Proof.
  intros Hpre Hne Hq. destruct (kind_at p t) eqn:Hp; [|done].
  rewrite (kind_at_prefix q p t) in Hq; eauto. done.
Qed.

Lemma isdir_true p t : isdir p t = true ↔ kind_at p t = Some KDir.
Proof. unfold isdir. by rewrite bool_decide_eq_true. Qed.

Lemma isdir_false p t : isdir p t = false ↔ kind_at p t ≠ Some KDir.
Proof. unfold isdir. by rewrite bool_decide_eq_false. Qed.

Lemma path_exists_true p t : path_exists p t = true ↔ is_Some (kind_at p t).
Proof.
  unfold path_exists, kind_at. rewrite bool_decide_eq_true.
  by rewrite fmap_is_Some.
Qed.

Lemma prefix_snoc_inv {A} (q p : list A) (x : A) :
  q `prefix_of` p ++ [x] → q `prefix_of` p ∨ q = p ++ [x].
Proof.
  intros [k Hk]. destruct k as [|y k _] using rev_ind.
  - right. by rewrite app_nil_r in Hk.
  - left. rewrite app_assoc in Hk. apply app_inj_tail in Hk as [-> _].
    by exists k.
Qed.

Lemma prefix_app_cases {A} (q p d : list A) :
  q `prefix_of` p ++ d → q `prefix_of` p ∨ ∃ d', q = p ++ d' ∧ d' `prefix_of` d.
Proof.
  induction d as [|x d IH] using rev_ind.
  - rewrite app_nil_r. auto.
  - rewrite app_assoc. intros [H| ->]%prefix_snoc_inv.
    + destruct (IH H) as [?|(d' & -> & ?)]; [by left|right].
      exists d'. split; [done|]. by apply prefix_app_r.
    + right. exists (d ++ [x]). by rewrite app_assoc.
Qed.

(** ** [mkdir_p] *)

Lemma kind_at_fresh_dirs q p :
  kind_at q (fresh_dirs p) = if decide (q `prefix_of` p) then Some KDir else None.
Proof.
  revert p. induction q as [|m q IH]; intros p.
  - rewrite decide_True by apply prefix_nil. by destruct p.
  - destruct p as [|n p]; cbn [fresh_dirs].
    + rewrite decide_False by apply prefix_nil_not.
      rewrite kind_at_cons. by rewrite lookup_empty.
    + rewrite kind_at_cons. destruct (decide (m = n)) as [->|Hne].
      * rewrite lookup_singleton_eq. simpl. rewrite IH.
        destruct (decide (q `prefix_of` p)) as [H|H].
        -- rewrite decide_True; [done|]. by apply prefix_cons.
        -- rewrite decide_False; [done|]. by intros ?%prefix_cons_inv_2.
      * rewrite lookup_singleton_ne by done. simpl.
        rewrite decide_False; [done|]. by intros ?%prefix_cons_inv_1.
Qed.

Lemma dmode_at_fresh_dirs q p :
  dmode_at q (fresh_dirs p) = if decide (q `prefix_of` p) then Some rw else None.
Proof.
  revert p. induction q as [|m q IH]; intros p.
  - rewrite decide_True by apply prefix_nil. by destruct p.
  - destruct p as [|n p]; cbn [fresh_dirs].
    + rewrite decide_False by apply prefix_nil_not.
      rewrite dmode_at_cons. by rewrite lookup_empty.
    + rewrite dmode_at_cons. destruct (decide (m = n)) as [->|Hne].
      * rewrite lookup_singleton_eq. simpl. rewrite IH.
        destruct (decide (q `prefix_of` p)) as [H|H].
        -- rewrite decide_True; [done|]. by apply prefix_cons.
        -- rewrite decide_False; [done|]. by intros ?%prefix_cons_inv_2.
      * rewrite lookup_singleton_ne by done. simpl.
        rewrite decide_False; [done|]. by intros ?%prefix_cons_inv_1.
Qed.

(** What [mkdir_p] has done when it returns: the path and what is above it
    are directories, the rest is as it was. *)
Lemma mkdir_p_kind p t t' q :
  mkdir_p p t = inr t' →
  kind_at q t' = if decide (q `prefix_of` p) then Some KDir else kind_at q t.
Proof.
  revert t t' q. induction p as [|n p IH]; intros [r c|dm es] t' q Hmk;
    simpl in Hmk; try done.
  - simplify_eq. destruct q as [|m q].
    + by rewrite decide_True.
    + rewrite decide_False; [done|]. apply prefix_nil_not.
  - destruct q as [|m q].
    { rewrite decide_True by apply prefix_nil.
      destruct (es !! n); [destruct (mkdir_p p n0)|destruct (writable dm)];
        by simplify_eq. }
    destruct (decide (m = n)) as [->|Hne].
    + destruct (es !! n) as [c|] eqn:Hn.
      * destruct (mkdir_p p c) as [|c'] eqn:Hc; simplify_eq.
        rewrite !kind_at_cons, lookup_insert_eq, Hn. simpl.
        rewrite (IH _ _ q Hc).
        destruct (decide (q `prefix_of` p)) as [H|H].
        -- rewrite decide_True; [done|]. by apply prefix_cons.
        -- rewrite decide_False; [done|]. by intros ?%prefix_cons_inv_2.
      * destruct (writable dm); simplify_eq.
        rewrite !kind_at_cons, lookup_insert_eq, Hn. simpl.
        rewrite kind_at_fresh_dirs.
        destruct (decide (q `prefix_of` p)) as [H|H].
        -- rewrite decide_True; [done|]. by apply prefix_cons.
        -- rewrite decide_False; [done|]. by intros ?%prefix_cons_inv_2.
    + rewrite decide_False by (by intros ?%prefix_cons_inv_1).
      destruct (es !! n); [destruct (mkdir_p p n0)|destruct (writable dm)];
        simplify_eq; by rewrite !kind_at_cons, lookup_insert_ne.
Qed.

(** The directories that were there keep their mode; those it makes have
    the mode of a new directory. *)
Lemma mkdir_p_dmode p t t' q :
  mkdir_p p t = inr t' →
  dmode_at q t' =
  if decide (q `prefix_of` p) then Some (default rw (dmode_at q t))
  else dmode_at q t.
Proof.
  revert t t' q. induction p as [|n p IH]; intros [r c|dm es] t' q Hmk;
    simpl in Hmk; try done.
  - simplify_eq. destruct q as [|m q].
    + by rewrite decide_True.
    + rewrite decide_False; [done|]. apply prefix_nil_not.
  - destruct q as [|m q].
    { rewrite decide_True by apply prefix_nil.
      destruct (es !! n); [destruct (mkdir_p p n0)|destruct (writable dm)];
        by simplify_eq. }
    destruct (decide (m = n)) as [->|Hne].
    + destruct (es !! n) as [c|] eqn:Hn.
      * destruct (mkdir_p p c) as [|c'] eqn:Hc; simplify_eq.
        rewrite !dmode_at_cons, lookup_insert_eq, Hn. simpl.
        rewrite (IH _ _ q Hc).
        destruct (decide (q `prefix_of` p)) as [H|H].
        -- rewrite decide_True; [done|]. by apply prefix_cons.
        -- rewrite decide_False; [done|]. by intros ?%prefix_cons_inv_2.
      * destruct (writable dm); simplify_eq.
        rewrite !dmode_at_cons, lookup_insert_eq, Hn. simpl.
        rewrite dmode_at_fresh_dirs.
        destruct (decide (q `prefix_of` p)) as [H|H].
        -- rewrite decide_True; [done|]. by apply prefix_cons.
        -- rewrite decide_False; [done|]. by intros ?%prefix_cons_inv_2.
    + rewrite decide_False by (by intros ?%prefix_cons_inv_1).
      destruct (es !! n); [destruct (mkdir_p p n0)|destruct (writable dm)];
        simplify_eq; by rewrite !dmode_at_cons, lookup_insert_ne.
Qed.

Lemma mkdir_p_before p t t' q :
  mkdir_p p t = inr t' → q `prefix_of` p →
  kind_at q t = None ∨ kind_at q t = Some KDir.
Proof.
  revert t t' q. induction p as [|n p IH]; intros [r c|dm es] t' q Hmk Hq;
    simpl in Hmk; try done.
  - apply prefix_nil_inv in Hq as ->. by right.
  - destruct q as [|m q]; [by right|].
    pose proof (prefix_cons_inv_1 _ _ _ _ Hq) as ->.
    apply prefix_cons_inv_2 in Hq. rewrite kind_at_cons.
    destruct (es !! n) as [c|] eqn:Hn; simpl; [|by left].
    destruct (mkdir_p p c) as [|c'] eqn:Hc; simplify_eq. eauto.
Qed.

Lemma mkdir_p_stat_frame p t t' q :
  mkdir_p p t = inr t' → ¬ q `prefix_of` p → stat q t' = stat q t.
Proof.
  revert t t' q. induction p as [|n p IH]; intros [r c|dm es] t' q Hmk Hq;
    simpl in Hmk; try done.
  - by simplify_eq.
  - destruct q as [|m q]; [by destruct Hq; apply prefix_nil|].
    simpl. destruct (decide (m = n)) as [->|Hne].
    + assert (¬ q `prefix_of` p) by (by intros ?; apply Hq, prefix_cons).
      destruct (es !! n) as [c|] eqn:Hn.
      * destruct (mkdir_p p c) as [|c'] eqn:Hc; simplify_eq.
        rewrite lookup_insert_eq. simpl. eauto.
      * destruct (writable dm); simplify_eq. rewrite lookup_insert_eq. simpl.
        pose proof (kind_at_fresh_dirs q p) as Hk.
        rewrite decide_False in Hk by done. by apply kind_at_None_stat.
    + destruct (es !! n); [destruct (mkdir_p p n0)|destruct (writable dm)];
        simplify_eq; by rewrite lookup_insert_ne.
Qed.


(** It raises on a regular file on the way, and where a directory is to be
    made in one that is not writable; on nothing else. *)
Lemma mkdir_p_inl p t e :
  mkdir_p p t = inl e →
  (∃ q r c, q `prefix_of` p ∧ kind_at q t = Some (KFile r c) ∧
            (e = FileExistsError ∨ e = NotADirectoryError)) ∨
  (∃ q n m, q ++ [n] `prefix_of` p ∧ dmode_at q t = Some m ∧
            kind_at (q ++ [n]) t = None ∧ writable m = false ∧
            e = PermissionError).
Proof.
  revert t. induction p as [|n p IH]; intros [r c|dm es] Hmk; simpl in Hmk;
    try done.
  - left. exists [], r, c. simplify_eq. auto.
  - left. exists [], r, c. simplify_eq. split_and!; [apply prefix_nil|done|auto].
  - destruct (es !! n) as [c|] eqn:Hn.
    + destruct (mkdir_p p c) as [e'|] eqn:Hc; [|done]. simplify_eq.
      destruct (IH _ Hc) as [(q & r & c' & Hq & Hk & He)
                            |(q & n' & m & Hq & Hm & Hk & Hw & He)].
      * left. exists (n :: q), r, c'. split_and!; [by apply prefix_cons| |done].
        by rewrite kind_at_cons, Hn.
      * right. exists (n :: q), n', m. split_and!; try done.
        -- by apply (prefix_cons n) in Hq.
        -- by rewrite dmode_at_cons, Hn.
        -- change ((n :: q) ++ [n']) with (n :: (q ++ [n'])).
           by rewrite kind_at_cons, Hn.
    + destruct (writable dm) eqn:Hw; [done|]. simplify_eq.
      right. exists [], n, dm. split_and!; try done.
      * apply prefix_cons, prefix_nil.
      * simpl. by rewrite kind_at_cons, Hn.
Qed.

(** It returns exactly where the directory is there or can be made. *)
Lemma mkdir_p_ok p t : can_mkdir p t → ∃ t', mkdir_p p t = inr t'.
Proof.
  intros [Hfile Hdir]. destruct (mkdir_p p t) as [e|t'] eqn:Hmk; [|eauto].
  destruct (mkdir_p_inl _ _ _ Hmk) as [(q & r & c & Hq & Hk & _)
                                      |(q & n & m & Hq & Hm & Hk & Hw & _)].
  - by destruct (Hfile q r c Hq).
  - rewrite (Hdir q n m Hq Hm Hk) in Hw. done.
Qed.

Lemma mkdir_p_can p t t' : mkdir_p p t = inr t' → can_mkdir p t.
Proof.
  intros Hmk. split.
  - intros q r c Hq Hk.
    destruct (mkdir_p_before _ _ _ _ Hmk Hq) as [H|H]; rewrite H in Hk; done.
  - revert t t' Hmk. induction p as [|n p IH]; intros [r c|dm es] t' Hmk q n' m Hq Hm Hk;
      simpl in Hmk; try done.
    + by apply prefix_nil_inv, app_nil in Hq as [_ ?].
    + destruct q as [|x q].
      * simpl in Hq, Hk. pose proof (prefix_cons_inv_1 _ _ _ _ Hq) as ->.
        rewrite kind_at_cons in Hk. injection Hm as <-.
        destruct (es !! n) as [c|] eqn:Hn; [by destruct c|].
        by destruct (writable dm).
      * change ((x :: q) ++ [n']) with (x :: (q ++ [n'])) in Hq, Hk.
        pose proof (prefix_cons_inv_1 _ _ _ _ Hq) as ->.
        apply prefix_cons_inv_2 in Hq.
        rewrite dmode_at_cons in Hm. rewrite kind_at_cons in Hk.
        destruct (es !! n) as [c|] eqn:Hn; [|done]. simpl in Hm, Hk.
        destruct (mkdir_p p c) as [|c'] eqn:Hc; [done|]. eauto.
Qed.

(** ** [write_file] and [copy2] *)

Lemma write_file_kind p r c t t' q :
  write_file p (File r c) t = inr t' →
  kind_at q t' = if decide (q = p) then Some (KFile r c) else kind_at q t.
Proof.
  revert t t' q. induction p as [|n p IH]; intros [r0 c0|dm es] t' q Hw;
    simpl in Hw; try done.
  destruct p as [|n' p].
  - assert (t' = Dir dm (<[n:=File r c]> es) ∧ ∀ m' es', es !! n ≠ Some (Dir m' es'))
      as [-> Hn].
    { destruct (es !! n) as [[m'|]|]; [destruct (writable m')| |destruct (writable dm)];
        simplify_eq; split; congruence. }
    destruct q as [|m q]; [done|]. rewrite !kind_at_cons.
    destruct (decide (m = n)) as [->|Hne].
    + rewrite lookup_insert_eq. simpl. destruct q as [|m' q].
      * by rewrite decide_True.
      * rewrite decide_False by done.
        destruct (es !! n) as [[|m0 es']|] eqn:Hes; simpl; try done;
          by destruct (Hn m0 es').
    + rewrite lookup_insert_ne by done.
      rewrite decide_False; [done|congruence].
  - destruct (es !! n) as [c1|] eqn:Hn; [|done].
    destruct (write_file (n' :: p) (File r c) c1) as [|c'] eqn:Hc; simplify_eq.
    destruct q as [|m q]; [done|]. rewrite !kind_at_cons.
    destruct (decide (m = n)) as [->|Hne].
    + rewrite lookup_insert_eq, Hn. simpl. rewrite (IH _ _ q Hc).
      destruct (decide (q = n' :: p)) as [->|H].
      * by rewrite decide_True.
      * rewrite decide_False; [done|congruence].
    + rewrite lookup_insert_ne by done.
      rewrite decide_False; [done|congruence].
Qed.

(** Writing a file changes the mode of no directory. *)
Lemma write_file_dmode p r c t t' q :
  write_file p (File r c) t = inr t' → dmode_at q t' = dmode_at q t.
Proof.
  revert t t' q. induction p as [|n p IH]; intros [r0 c0|dm es] t' q Hw;
    simpl in Hw; try done.
  destruct p as [|n' p].
  - assert (t' = Dir dm (<[n:=File r c]> es) ∧ ∀ m' es', es !! n ≠ Some (Dir m' es'))
      as [-> Hn].
    { destruct (es !! n) as [[m'|]|]; [destruct (writable m')| |destruct (writable dm)];
        simplify_eq; split; congruence. }
    destruct q as [|m q]; [done|]. rewrite !dmode_at_cons.
    destruct (decide (m = n)) as [->|Hne].
    + rewrite lookup_insert_eq. simpl. destruct q as [|m' q].
      * destruct (es !! n) as [[|m0 es']|] eqn:Hes; simpl; try done;
          by destruct (Hn m0 es').
      * destruct (es !! n) as [[|m0 es']|] eqn:Hes; simpl; try done;
          by destruct (Hn m0 es').
    + by rewrite lookup_insert_ne.
  - destruct (es !! n) as [c1|] eqn:Hn; [|done].
    destruct (write_file (n' :: p) (File r c) c1) as [|c'] eqn:Hc; simplify_eq.
    destruct q as [|m q]; [done|]. rewrite !dmode_at_cons.
    destruct (decide (m = n)) as [->|Hne].
    + rewrite lookup_insert_eq, Hn. simpl. eauto.
    + by rewrite lookup_insert_ne.
Qed.

Lemma write_file_before p f t t' :
  write_file p f t = inr t' → kind_at p t ≠ Some KDir.
Proof.
  revert t t'. induction p as [|n p IH]; intros [r0 c0|dm es] t' Hw;
    simpl in Hw; try done.
  rewrite kind_at_cons. destruct p as [|n' p].
  - by destruct (es !! n) as [[|]|].
  - destruct (es !! n) as [c1|] eqn:Hn; [|done]. simpl.
    destruct (write_file (n' :: p) f c1) as [|c'] eqn:Hc; simplify_eq. eauto.
Qed.

Lemma write_file_stat_frame p r c t t' q :
  write_file p (File r c) t = inr t' → ¬ q `prefix_of` p → stat q t' = stat q t.
Proof.
  revert t t' q. induction p as [|n p IH]; intros [r0 c0|dm es] t' q Hw Hq;
    simpl in Hw; try done.
  destruct q as [|m q]; [by destruct Hq; apply prefix_nil|].
  assert (m = n → ¬ q `prefix_of` p) as Hq'
    by (by intros -> ?; apply Hq, prefix_cons).
  destruct p as [|n' p].
  - assert (t' = Dir dm (<[n:=File r c]> es) ∧ ∀ m' es', es !! n ≠ Some (Dir m' es'))
      as [-> Hn].
    { destruct (es !! n) as [[m'|]|]; [destruct (writable m')| |destruct (writable dm)];
        simplify_eq; split; congruence. }
    simpl. destruct (decide (m = n)) as [->|Hne].
    + rewrite lookup_insert_eq. simpl. destruct q as [|m' q].
      * destruct Hq'; [done|apply prefix_nil].
      * destruct (es !! n) as [[|m0 es']|] eqn:Hes; simpl; try done;
          by destruct (Hn m0 es').
    + by rewrite lookup_insert_ne.
  - destruct (es !! n) as [c1|] eqn:Hn; [|done].
    destruct (write_file (n' :: p) (File r c) c1) as [|c'] eqn:Hc; simplify_eq.
    simpl. destruct (decide (m = n)) as [->|Hne].
    + rewrite lookup_insert_eq, Hn. simpl. eauto.
    + by rewrite lookup_insert_ne.
Qed.


(** What opening [d ++ [n]] for writing does, by what is there: it raises
    on a directory, on a file that is not writable, and where nothing is
    there in a directory that is not writable; otherwise it returns. *)
Lemma write_file_cases d n f t :
  kind_at d t = Some KDir →
  match kind_at (d ++ [n]) t with
  | Some KDir => write_file (d ++ [n]) f t = inl IsADirectoryError
  | Some (KFile m _) =>
      if writable m then ∃ t', write_file (d ++ [n]) f t = inr t'
      else write_file (d ++ [n]) f t = inl PermissionError
  | None =>
      ∃ dm, dmode_at d t = Some dm ∧
            if writable dm then ∃ t', write_file (d ++ [n]) f t = inr t'
            else write_file (d ++ [n]) f t = inl PermissionError
  end.
Proof.
  revert t. induction d as [|x d IH]; intros [r0 c0|dm es]; simpl; try done.
  - intros _. rewrite kind_at_cons.
    destruct (es !! n) as [[m|]|]; simpl; [destruct (writable m); eauto|done|].
    exists dm. split; [done|]. destruct (writable dm); eauto.
  - rewrite !kind_at_cons, dmode_at_cons.
    destruct (es !! x) as [c1|] eqn:Hx; [|done]. simpl.
    intros H1. specialize (IH _ H1).
    assert (∃ y l, d ++ [n] = y :: l) as (y & l & Hd)
      by (destruct d; simpl; eauto).
    rewrite Hd in *.
    destruct (kind_at (y :: l) c1) as [[m ?|]|].
    + destruct (writable m); [destruct IH as [t' ->]; eauto|by rewrite IH].
    + by rewrite IH.
    + destruct IH as (dm' & Hdm & IH). exists dm'. split; [done|].
      destruct (writable dm'); [destruct IH as [t' ->]; eauto|by rewrite IH].
Qed.

(** What was there when opening [d ++ [n]] for writing returned: the
    directory [d], and in it a writable file, or nothing if [d] is
    writable. *)
Lemma write_file_inr d n f t t' :
  write_file (d ++ [n]) f t = inr t' →
  ∃ dm, dmode_at d t = Some dm ∧
        match kind_at (d ++ [n]) t with
        | Some KDir => False
        | Some (KFile m _) => writable m = true
        | None => writable dm = true
        end.
Proof.
  revert t t'. induction d as [|x d IH]; intros [r0 c0|dm es] t' Hw;
    simpl in Hw; try done.
  - exists dm. split; [done|]. cbn [app]. rewrite kind_at_cons.
    destruct (es !! n) as [[m|]|]; simpl; [|done|];
      by destruct (writable _).
  - assert (∃ y l, d ++ [n] = y :: l) as (y & l & Hd)
      by (destruct d; simpl; eauto).
    rewrite Hd in Hw. destruct (es !! x) as [c1|] eqn:Hx; [|done].
    destruct (write_file (y :: l) f c1) as [|c'] eqn:Hc; [done|].
    rewrite <- Hd in Hc. destruct (IH _ _ Hc) as (dm' & Hdm & Hk).
    exists dm'. cbn [app]. rewrite dmode_at_cons, kind_at_cons, Hx. done.
Qed.

(** ** The monad and the loops *)

Lemma replay_app cs1 cs2 T : replay (cs1 ++ cs2) T = replay cs2 (replay cs1 T).
Proof. apply foldl_app. Qed.

Lemma replay_snoc cs c T : replay (cs ++ [c]) T = apply_call c (replay cs T).
Proof. by rewrite replay_app. Qed.

Lemma warnings_app o1 o2 : warnings (o1 ++ o2) = warnings o1 + warnings o2.
Proof. unfold warnings. by rewrite filter_app, length_app. Qed.

Lemma copies_app c1 c2 : copies (c1 ++ c2) = copies c1 + copies c2.
Proof. unfold copies. by rewrite filter_app, length_app. Qed.

Lemma copies_copy_calls root dest files :
  copies (copy_call root dest <$> files) = length files.
Proof.
  unfold copies. induction files as [|f files IH]; [done|].
  rewrite fmap_cons, filter_cons_True by done. simpl. by rewrite IH.
Qed.

(** One file of the loop: interrupted before the call, or copied and
    counted, or warned about and not counted. *)
Lemma copy_file_eq E root dest f n w :
  copy_file E root dest f n w =
  if decide (sigint E = Some (length (calls w))) then (Stop KeyboardInterrupt, w)
  else match copy2 (root ++ [f]) (dest ++ [f]) (fs w) with
       | inr T' =>
           (Ret (n + 1),
            World T'
              (stdout w ++ if (n + 1) mod 100 =? 0 then [Progress (n + 1)] else [])
              (calls w ++ [copy_call root dest f]))
       | inl e =>
           (Ret n,
            World (fs w) (stdout w ++ [Warning (root ++ [f]) e])
              (calls w ++ [copy_call root dest f]))
       end.
Proof.
  unfold copy_file, try_except, shutil_copy2, sys, mbind, M_bind, mret, M_ret,
    print, copy_call.
  destruct (decide (sigint E = Some (length (calls w)))); [done|].
  destruct (copy2 (root ++ [f]) (dest ++ [f]) (fs w)) as [e|T']; [done|].
  destruct ((n + 1) mod 100 =? 0); simpl; [done|]. by rewrite app_nil_r.
Qed.

Lemma copy_files_spec E root dest files n w :
  match copy_files E root dest files n w with
  | (Ret n', w') =>
      calls w' = calls w ++ (copy_call root dest <$> files) ∧
      fs w' = replay (copy_call root dest <$> files) (fs w) ∧
      n' + warnings (stdout w') = n + warnings (stdout w) + length files ∧
      ∃ out, stdout w' = stdout w ++ out ∧
             Forall (loop_output root dest files (fs w)) out
  | (Stop s, w') =>
      s = KeyboardInterrupt ∧ sigint E = Some (length (calls w')) ∧
      ∃ k, calls w' = calls w ++ (copy_call root dest <$> take k files) ∧
           fs w' = replay (copy_call root dest <$> take k files) (fs w)
  end.
Proof.
  revert n w. induction files as [|f files IH]; intros n w.
  - simpl. unfold mret, M_ret. rewrite !app_nil_r. split_and!; try done.
    exists []. by rewrite app_nil_r.
  - cbn [copy_files]. unfold mbind, M_bind. rewrite copy_file_eq.
    destruct (decide (sigint E = Some (length (calls w)))) as [Hint|Hint].
    { split_and!; try done. exists 0. by rewrite take_0, app_nil_r. }
    set (c := copy_call root dest f).
    assert (∀ n1 w1 o,
      fs w1 = apply_call c (fs w) →
      calls w1 = calls w ++ [c] →
      stdout w1 = stdout w ++ o →
      n1 + warnings o = n + 1 →
      Forall (loop_output root dest (f :: files) (fs w)) o →
      match copy_files E root dest files n1 w1 with
      | (Ret n', w') =>
          calls w' = calls w ++ (copy_call root dest <$> f :: files) ∧
          fs w' = replay (copy_call root dest <$> f :: files) (fs w) ∧
          n' + warnings (stdout w') = n + warnings (stdout w) + length (f :: files) ∧
          ∃ out, stdout w' = stdout w ++ out ∧
                 Forall (loop_output root dest (f :: files) (fs w)) out
      | (Stop s, w') =>
          s = KeyboardInterrupt ∧ sigint E = Some (length (calls w')) ∧
          ∃ k, calls w' = calls w ++ (copy_call root dest <$> take k (f :: files)) ∧
               fs w' = replay (copy_call root dest <$> take k (f :: files)) (fs w)
      end) as Hnext.
    { intros n1 w1 o Hfs Hcalls Hout Hn Ho. specialize (IH n1 w1).
      destruct (copy_files E root dest files n1 w1) as [[n'|s] w'].
      - destruct IH as (Hc' & Hf' & Hn' & out & Hout' & Hall).
        split_and!.
        + rewrite Hc', Hcalls, fmap_cons. by rewrite <- app_assoc.
        + rewrite Hf', Hfs. done.
        + rewrite Hout, warnings_app in Hn'. simpl. lia.
        + exists (o ++ out). split; [by rewrite Hout', Hout, app_assoc|].
          apply Forall_app. split; [done|].
          eapply Forall_impl; [exact Hall|]. intros [] Hx; try done.
          destruct Hx as (k & g & Hk & -> & Hcp).
          exists (S k), g. split_and!; [done..|].
          rewrite Hfs in Hcp. done.
      - destruct IH as (-> & Hs & k & Hc' & Hf'). split_and!; [done..|].
        exists (S k). split.
        + rewrite Hc', Hcalls. simpl. by rewrite <- app_assoc.
        + rewrite Hf', Hfs. done. }
    destruct (copy2 (root ++ [f]) (dest ++ [f]) (fs w)) as [e|T'] eqn:Hcp.
    + apply (Hnext n (World (fs w) (stdout w ++ [Warning (root ++ [f]) e])
                        (calls w ++ [c])) [Warning (root ++ [f]) e]);
        cbn [fs stdout calls]; try done.
      * unfold apply_call, c, copy_call. by rewrite Hcp.
      * constructor; [|done]. exists 0, f. by rewrite take_0.
    + apply (Hnext (n + 1)
               (World T' (stdout w ++ if (n + 1) mod 100 =? 0
                                      then [Progress (n + 1)] else [])
                  (calls w ++ [c]))
               (if (n + 1) mod 100 =? 0 then [Progress (n + 1)] else []));
        cbn [fs stdout calls]; try done.
      * unfold apply_call, c, copy_call. by rewrite Hcp.
      * destruct ((n + 1) mod 100 =? 0);
          [change (warnings [Progress (n + 1)]) with 0
          |change (warnings []) with 0]; lia.
      * destruct ((n + 1) mod 100 =? 0); by repeat constructor.
Qed.

Lemma relpath_source d : relpath (source_dir ++ d) source_dir = d.
Proof. reflexivity. Qed.

Lemma dest_root_eq d :
  match relpath (source_dir ++ d) source_dir with
  | [] => backup_dir
  | _ => backup_dir ++ relpath (source_dir ++ d) source_dir
  end = backup_dir ++ d.
Proof. rewrite relpath_source. destruct d; [by rewrite app_nil_r|done]. Qed.

Lemma apply_call_mkdir_inr p T T' :
  mkdir_p p T = inr T' → apply_call (SysMkdir p) T = T'.
Proof. intros H. unfold apply_call. by rewrite H. Qed.

Lemma apply_call_mkdir_inl p T e :
  mkdir_p p T = inl e → apply_call (SysMkdir p) T = T.
Proof. intros H. unfold apply_call. by rewrite H. Qed.

(** One turn of the walk on the source directory [d]. *)
Lemma walk_step_spec E d stack cf cd w :
  let root := source_dir ++ d in
  let dest := backup_dir ++ d in
  match walk_step E root stack (cf, cd) w with
  | (Ret (stack', (cf', cd')), w') =>
      match scandir root (fs w) with
      | None =>
          stack' = stack ∧ cf' = cf ∧ cd' = cd ∧
          w' = World (fs w) (stdout w) (calls w ++ [SysScandir root])
      | Some (dirs, files) =>
          ∃ T1, mkdir_p dest (fs w) = inr T1 ∧
          stack' = ((λ n, root ++ [n]) <$> filter (λ n, n ∉ exclude_dirs) dirs) ++ stack ∧
          cd' = (if decide (d = []) then cd else cd + 1) ∧
          calls w' = calls w ++ step_calls root dest files ∧
          fs w' = replay (copy_call root dest <$> files) T1 ∧
          cf' + warnings (stdout w') = cf + warnings (stdout w) + length files ∧
          ∃ out, stdout w' = stdout w ++ out ∧
                 Forall (loop_output root dest files T1) out
      end
  | (Stop s, w') =>
      (s = KeyboardInterrupt ∧ sigint E = Some (length (calls w')) ∨
       ∃ e dirs files, s = Raise e ∧ scandir root (fs w) = Some (dirs, files) ∧
                       mkdir_p dest (fs w) = inl e) ∧
      ∃ cs, calls w' = calls w ++ cs ∧ fs w' = replay cs (fs w) ∧
            cs `prefix_of`
              SysScandir root ::
                match scandir root (fs w) with
                | Some (_, files) => SysMkdir dest :: (copy_call root dest <$> files)
                | None => []
                end
  end.
Proof.
  intros root dest.
  assert (match relpath root source_dir with
          | [] => backup_dir
          | _ => backup_dir ++ relpath root source_dir
          end = dest) as Hdest by apply dest_root_eq.
  assert (relpath root source_dir = d) as Hrel by apply relpath_source.
  clearbody root dest.
  unfold walk_step, os_scandir, sys, mbind, M_bind.
  destruct (decide (sigint E = Some (length (calls w)))) as [Hint|Hint].
  { split; [by left|]. exists []. rewrite app_nil_r. split_and!; [done..|].
    apply prefix_nil. }
  destruct (scandir root (fs w)) as [[dirs files]|] eqn:Hscan;
    [|by unfold mret, M_ret].
  unfold walk_body, Path_mkdir, sys, mbind, M_bind. cbn [calls fs stdout].
  rewrite Hdest.
  destruct (decide (sigint E = Some (length (calls w ++ [SysScandir root]))))
    as [Hint2|Hint2].
  { split; [by left|]. exists [SysScandir root]. split_and!; [done..|].
    apply prefix_cons, prefix_nil. }
  destruct (mkdir_p dest (fs w)) as [e|T1] eqn:Hmk.
  { split; [right; by exists e, dirs, files|].
    exists [SysScandir root; SysMkdir dest]. cbn [calls fs].
    split_and!.
    - by rewrite <- app_assoc.
    - unfold replay. simpl. by rewrite Hmk.
    - do 2 apply prefix_cons. apply prefix_nil. }
  set (w1 := World T1 (stdout w) ((calls w ++ [SysScandir root]) ++ [SysMkdir dest])).
  pose proof (copy_files_spec E root dest files cf w1) as Hcf.
  destruct (copy_files E root dest files cf w1) as [[cf'|s] w'].
  - destruct Hcf as (Hc & Hf & Hn & out & Hout & Hall).
    unfold mret, M_ret. exists T1. split_and!; try done.
    + rewrite Hrel. by destruct d.
    + rewrite Hc. unfold w1, step_calls. cbn [calls].
      by rewrite <- !app_assoc.
    + by exists out.
  - destruct Hcf as (-> & Hs & k & Hc & Hf). split; [by left|].
    exists (SysScandir root :: SysMkdir dest :: (copy_call root dest <$> take k files)).
    split_and!.
    + rewrite Hc. unfold w1. cbn [calls]. by rewrite <- !app_assoc.
    + rewrite Hf. unfold w1, replay. simpl. by rewrite Hmk.
    + do 2 apply prefix_cons. rewrite <- (take_drop k files) at 2.
      rewrite fmap_app. by apply prefix_app_r.
Qed.

(** ** The two roots *)

Lemma source_not_in_backup x : ¬ source_dir `prefix_of` backup_dir ++ x.
Proof. intros [k Hk]. by simplify_eq/=. Qed.

Lemma backup_not_in_source x : ¬ backup_dir `prefix_of` source_dir ++ x.
Proof. intros [k Hk]. by simplify_eq/=. Qed.

Lemma source_ne_backup x y : source_dir ++ x ≠ backup_dir ++ y.
Proof. intros H. by simplify_eq/=. Qed.

Lemma prefix_backup_cases q :
  q `prefix_of` backup_dir →
  q = backup_dir ∨ (q `prefix_of` source_dir ∧ q ≠ source_dir).
Proof.
  intros [k Hk]. unfold backup_dir, source_dir in *.
  destruct q as [|a [|b [|c [|e q]]]]; simplify_eq/=.
  - right. split; [apply prefix_nil|done].
  - right. split; [by eexists|done].
  - right. split; [by eexists|done].
  - by left.
Qed.

Lemma basename_snoc p f : basename (p ++ [f]) = f.
Proof. unfold basename. apply List.last_last. Qed.

(** ** The directories the walk visits *)

Lemma walked_dir t d : walked t d → kind_at (source_dir ++ d) t = Some KDir.
Proof. intros [_ Hl]. by apply listable_dir, Hl. Qed.

Lemma walked_unpruned t d : walked t d → unpruned d.
Proof. by intros [? _]. Qed.

Lemma walked_prefix t d' d : walked t d → d' `prefix_of` d → walked t d'.
Proof.
  intros [Hu Hl] [k ->]. split.
  - unfold unpruned in *. by apply Forall_app in Hu as [? _].
  - intros d'' Hd''. apply Hl. by apply prefix_app_r.
Qed.

Lemma walked_reached t d : walked t d → reached t d.
Proof. intros [Hu Hl]. split; [done|]. intros d' Hd' _. by apply Hl. Qed.

Lemma reached_walked t d :
  reached t d → listable (source_dir ++ d) t → walked t d.
Proof.
  intros [Hu Hl] Hd. split; [done|]. intros d' Hd'.
  destruct (decide (d' = d)) as [->|Hne]; auto.
Qed.

Lemma reached_nil t : reached t [].
Proof.
  split; [constructor|]. intros d' ->%prefix_nil_inv Hne. done.
Qed.

Lemma walked_nil t : listable source_dir t → walked t [].
Proof.
  intros H. apply reached_walked; [apply reached_nil|]. by rewrite app_nil_r.
Qed.

(** The walk goes on to the sub-directories of a directory it visits whose
    name is not excluded. *)
Lemma reached_snoc t d n : walked t d → n ∉ exclude_dirs → reached t (d ++ [n]).
Proof.
  intros [Hu Hl] Hn. split.
  - apply Forall_app. split; [done|]. by constructor.
  - intros d' [Hd'|Hd']%prefix_snoc_inv Hne; [auto|done].
Qed.


Lemma walked_not_file t d d' f r c :
  walked t d → d' ++ [f] `prefix_of` d →
  kind_at (source_dir ++ d' ++ [f]) t ≠ Some (KFile r c).
Proof.
  intros Hw Hpre. rewrite (walked_dir _ _ (walked_prefix _ _ _ Hw Hpre)). done.
Qed.

(** ** What the calls of a run do to the filesystem *)

Lemma copy2_inr src dst T T' :
  copy2 src dst T = inr T' →
  ∃ m c, stat src T = Some (File m c) ∧ readable m = true ∧
         write_file (copy_target src dst T) (File m c) T = inr T'.
Proof.
  unfold copy2. fold (copy_target src dst T).
  destruct (bool_decide (src = copy_target src dst T) && path_exists src T);
    [done|].
  destruct (stat src T) as [[m c|]|]; try done.
  destruct (readable m) eqn:Hr; [|done]. eauto.
Qed.

Lemma copy_target_mirror d f T :
  copy_target (source_dir ++ d ++ [f]) (backup_dir ++ d ++ [f]) T =
  if isdir (backup_dir ++ d ++ [f]) T then backup_dir ++ d ++ [f; f]
  else backup_dir ++ d ++ [f].
Proof.
  unfold copy_target. destruct (isdir _ T); [|done].
  rewrite !app_assoc, basename_snoc. by rewrite <- !app_assoc.
Qed.

(** A directory, once there, stays. *)
Lemma apply_call_dir_kept c T q :
  kind_at q T = Some KDir → kind_at q (apply_call c T) = Some KDir.
Proof.
  intros Hq. destruct c as [p|p|p|src dst]; simpl; try done.
  - destruct (mkdir_p p T) as [e|T'] eqn:Hmk; [done|].
    rewrite (mkdir_p_kind _ _ _ q Hmk). by case_decide.
  - destruct (copy2 src dst T) as [e|T'] eqn:Hcp; [done|].
    apply copy2_inr in Hcp as (m & c & _ & _ & Hw).
    rewrite (write_file_kind _ _ _ _ _ q Hw). case_decide; [|done].
    subst q. by apply write_file_before in Hw.
Qed.

Lemma replay_dir_kept cs T q :
  kind_at q T = Some KDir → kind_at q (replay cs T) = Some KDir.
Proof.
  revert T. induction cs as [|c cs IH]; intros T Hq; [done|].
  apply IH. by apply apply_call_dir_kept.
Qed.

(** What is there before a run is there in every filesystem it reaches. *)
Lemma sound_kept t T q : sound t T → kind_at q T = None → kind_at q t = None.
Proof.
  intros HT Hq. destruct (kind_at q t) as [[r c|]|] eqn:Hk; [| |done].
  - destruct (sound_files_kept _ _ HT _ _ _ Hk) as (r' & c' & H). congruence.
  - apply (sound_dirs_kept _ _ HT) in Hk. congruence.
Qed.

(** A directory that was there has the mode it had. *)
Lemma sound_dmode t T q m :
  sound t T → dmode_at q t = Some m → dmode_at q T = Some m.
Proof.
  intros HT Hm. pose proof (dmode_at_kind _ _ _ Hm) as Hk.
  apply (sound_dirs_kept _ _ HT) in Hk as [m' Hm']%kind_at_dmode.
  destruct (sound_modes _ _ HT _ _ Hm') as [H|[H _]]; [congruence|].
  apply dmode_at_kind in Hm. congruence.
Qed.

Section reach.
Variable t : node.
Hypothesis source_exists : is_Some (kind_at source_dir t).

Lemma sound_init : sound t t.
Proof.
  split; try done; eauto.
  intros q n m _ Hk [k Hk']. congruence.
Qed.

Lemma backup_prefix_kept T q :
  sound t T → q `prefix_of` backup_dir → q ≠ backup_dir →
  kind_at q T = Some KDir.
Proof.
  intros HT Hq Hne. apply prefix_backup_cases in Hq as [?|[Hq Hq']]; [done|].
  apply (sound_dirs_kept _ _ HT). by apply (kind_at_prefix q source_dir).
Qed.

Lemma sound_mkdir T T' d :
  sound t T → d = [] ∨ walked t d →
  mkdir_p (backup_dir ++ d) T = inr T' → sound t T'.
Proof.
  intros HT Hd Hmk.
  assert (∀ q, kind_at q T' =
    if decide (q `prefix_of` backup_dir ++ d) then Some KDir else kind_at q T)
    as Hk by (intros q; apply (mkdir_p_kind _ _ _ q Hmk)).
  split.
  - rewrite <- (sound_source _ _ HT).
    apply (mkdir_p_stat_frame _ _ _ _ Hmk), source_not_in_backup.
  - intros q Hq. rewrite Hk. case_decide as Hpre.
    + apply prefix_app_cases in Hpre as [Hpre|(d' & -> & _)].
      * rewrite <- (sound_outside _ _ HT) by done. symmetry.
        apply backup_prefix_kept; [done..|]. intros ->. by apply Hq.
      * destruct Hq. by apply prefix_app_r.
    + by apply (sound_outside _ _ HT).
  - intros p. rewrite Hk. case_decide as Hpre.
    + intros _. apply prefix_app_inv in Hpre.
      destruct Hd as [->|Hd].
      * apply prefix_nil_inv in Hpre. auto.
      * right. right. by apply (walked_prefix _ _ d).
    + apply (sound_dirs _ _ HT).
  - intros q Hq. rewrite Hk. case_decide; [done|].
    by apply (sound_dirs_kept _ _ HT).
  - intros q m. rewrite (mkdir_p_dmode _ _ _ q Hmk). case_decide as Hpre.
    + destruct (dmode_at q T) as [m0|] eqn:Hm0; simpl.
      * intros [= <-]. by apply (sound_modes _ _ HT).
      * intros [= <-]. right. split; [|done].
        apply (sound_kept t T); [done|].
        destruct (mkdir_p_before _ _ _ _ Hmk Hpre) as [H|H]; [done|].
        apply kind_at_dmode in H as [? H]. congruence.
    + apply (sound_modes _ _ HT).
  - intros q r c. rewrite Hk. case_decide; [done|].
    apply (sound_files _ _ HT).
  - intros q r c Hq. rewrite Hk.
    destruct (sound_files_kept _ _ HT _ _ _ Hq) as (r' & c' & Hq').
    case_decide as Hpre; [|eauto].
    destruct (mkdir_p_before _ _ _ _ Hmk Hpre); congruence.
  - intros q n m Hm Hnone Hsome.
    destruct (kind_at (q ++ [n]) T) as [k|] eqn:HkT.
    { by apply (sound_made _ _ HT q n m). }
    rewrite Hk in Hsome.
    case_decide as Hpre; [|rewrite HkT in Hsome; by destruct Hsome].
    destruct (mkdir_p_can _ _ _ Hmk) as [_ Hcan].
    apply (Hcan q n m); [done| |done]. by apply (sound_dmode t).
  - intros q r c Hq Hw. pose proof (sound_read_only _ _ HT _ _ _ Hq Hw) as HqT.
    rewrite Hk. case_decide as Hpre; [|done].
    destruct (mkdir_p_before _ _ _ _ Hmk Hpre); congruence.
Qed.

Lemma sound_copy T T' d f :
  sound t T → walked t d →
  copy2 (source_dir ++ d ++ [f]) (backup_dir ++ d ++ [f]) T = inr T' →
  sound t T'.
Proof.
  intros HT Hd Hcp. apply copy2_inr in Hcp as (m & c & Hsrc & Hr & Hw).
  rewrite copy_target_mirror in Hw.
  set (tgt := if isdir (backup_dir ++ d ++ [f]) T
              then backup_dir ++ d ++ [f; f] else backup_dir ++ d ++ [f]) in *.
  assert (∃ x, tgt = backup_dir ++ x) as [x Htgt].
  { unfold tgt. destruct (isdir _ T); eauto. }
  assert (kind_at (source_dir ++ d ++ [f]) t = Some (KFile m c)) as Hsrc'.
  { apply kind_at_file_stat. rewrite stat_app in Hsrc |- *.
    by rewrite <- (sound_source _ _ HT). }
  assert (∀ q, kind_at q T' =
    if decide (q = tgt) then Some (KFile m c) else kind_at q T)
    as Hk by (intros q; apply (write_file_kind _ _ _ _ _ q Hw)).
  pose proof (write_file_before _ _ _ _ Hw) as Hnd.
  split.
  - rewrite <- (sound_source _ _ HT).
    apply (write_file_stat_frame _ _ _ _ _ _ Hw). rewrite Htgt.
    apply source_not_in_backup.
  - intros q Hq. rewrite Hk. case_decide as Heq.
    + destruct Hq. rewrite Heq, Htgt. by apply prefix_app_r.
    + by apply (sound_outside _ _ HT).
  - intros p. rewrite Hk. case_decide; [done|]. apply (sound_dirs _ _ HT).
  - intros q Hq. rewrite Hk. case_decide as Heq.
    + destruct Hnd. rewrite <- Heq. by apply (sound_dirs_kept _ _ HT).
    + by apply (sound_dirs_kept _ _ HT).
  - intros q m'. rewrite (write_file_dmode _ _ _ _ _ q Hw).
    apply (sound_modes _ _ HT).
  - intros q r c'. rewrite Hk. case_decide as Heq.
    + intros [= <- <-]. right. exists d, f. split_and!; [done..|].
      rewrite Heq. unfold tgt. destruct (isdir _ T); auto.
    + apply (sound_files _ _ HT).
  - intros q r c' Hq. rewrite Hk. case_decide; [eauto|].
    by apply (sound_files_kept _ _ HT _ r c').
  - intros q n m' Hm Hnone Hsome.
    destruct (kind_at (q ++ [n]) T) as [k|] eqn:HkT.
    { by apply (sound_made _ _ HT q n m'). }
    rewrite Hk in Hsome.
    case_decide as Heq; [|rewrite HkT in Hsome; by destruct Hsome].
    rewrite <- Heq in Hw. apply write_file_inr in Hw as (dm & Hdm & Hcase).
    rewrite HkT in Hcase. apply (sound_dmode t T) in Hm; [|done]. congruence.
  - intros q r c' Hq Hwr. pose proof (sound_read_only _ _ HT _ _ _ Hq Hwr) as HqT.
    rewrite Hk. case_decide as Heq; [|done]. exfalso.
    assert (∃ par n, tgt = par ++ [n]) as (par & n & Hpn).
    { unfold tgt. destruct (isdir _ T).
      - exists (backup_dir ++ d ++ [f]), f. by rewrite <- !app_assoc.
      - exists (backup_dir ++ d), f. by rewrite <- app_assoc. }
    rewrite Hpn in Hw. apply write_file_inr in Hw as (dm & _ & Hcase).
    rewrite <- Hpn, <- Heq, HqT in Hcase. congruence.
Qed.

Lemma sound_apply_call T c :
  sound t T → allowed_call t c → sound t (apply_call c T).
Proof.
  intros HT Hc. destruct c as [p|p|p|src dst]; simpl in *; try done.
  - destruct (mkdir_p p T) as [e|T'] eqn:Hmk; [done|].
    destruct Hc as [->|(d & -> & Hd)].
    + rewrite <- (app_nil_r backup_dir) in Hmk.
      apply (sound_mkdir T T' []); auto.
    + apply (sound_mkdir T T' d); auto.
  - destruct (copy2 src dst T) as [e|T'] eqn:Hcp; [done|].
    destruct Hc as (d & f & -> & -> & Hd & _). by apply (sound_copy T T' d f).
Qed.

Lemma sound_replay cs T :
  sound t T → Forall (allowed_call t) cs → sound t (replay cs T).
Proof.
  revert T. induction cs as [|c cs IH]; intros T HT Hcs; [done|].
  apply Forall_cons in Hcs as [Hc Hcs]. apply IH; [|done].
  by apply sound_apply_call.
Qed.
End reach.

(** ** Copies that have had their effect *)

Lemma mkdir_p_kind_kept p T T' q k :
  mkdir_p p T = inr T' → kind_at q T = Some k → kind_at q T' = Some k.
Proof.
  intros Hmk Hq. rewrite (mkdir_p_kind _ _ _ q Hmk). case_decide; [|done].
  destruct (mkdir_p_before _ _ _ q Hmk); congruence.
Qed.

Lemma mkdir_p_dmode_kept p T T' q m :
  mkdir_p p T = inr T' → dmode_at q T = Some m → dmode_at q T' = Some m.
Proof.
  intros Hmk Hq. rewrite (mkdir_p_dmode _ _ _ q Hmk), Hq. by case_decide.
Qed.

Lemma copy2_mirror_eq d f T :
  copy2 (source_dir ++ d ++ [f]) (backup_dir ++ d ++ [f]) T =
  match stat (source_dir ++ d ++ [f]) T with
  | None => inl FileNotFoundError
  | Some (Dir _ _) => inl IsADirectoryError
  | Some (File r c) =>
      if readable r then
        write_file
          (if isdir (backup_dir ++ d ++ [f]) T then backup_dir ++ d ++ [f; f]
           else backup_dir ++ d ++ [f]) (File r c) T
      else inl PermissionError
  end.
Proof.
  unfold copy2. fold (copy_target (source_dir ++ d ++ [f]) (backup_dir ++ d ++ [f]) T).
  rewrite copy_target_mirror. rewrite bool_decide_eq_false_2; [done|].
  destruct (isdir _ T); apply source_ne_backup.
Qed.

(** A file that rests is not written by a [mkdir] that returns. *)
Lemma rests_mkdir T T' p par n m c :
  rests T par (par ++ [n]) m c → mkdir_p p T = inr T' →
  rests T' par (par ++ [n]) m c.
Proof.
  intros [H|[(m' & c' & H & Hw)|(H & dm & Hdm & Hw)]] Hmk.
  - left. by eapply mkdir_p_kind_kept.
  - right. left. exists m', c'. split; [|done]. by eapply mkdir_p_kind_kept.
  - right. right. split.
    + rewrite (mkdir_p_kind _ _ _ _ Hmk). case_decide as Hpre; [|done].
      destruct (mkdir_p_can _ _ _ Hmk) as [_ Hcan].
      rewrite (Hcan par n dm) in Hw; done.
    + exists dm. split; [|done]. by eapply mkdir_p_dmode_kept.
Qed.

(** Nor by a write elsewhere, or by a write of the same file. *)
Lemma rests_write T T' tgt par p m c m' c' :
  rests T par p m c → write_file tgt (File m' c') T = inr T' →
  (tgt = p → m' = m ∧ c' = c) → rests T' par p m c.
Proof.
  intros Hr Hw Heq. unfold rests.
  rewrite (write_file_kind _ _ _ _ _ p Hw), (write_file_dmode _ _ _ _ _ par Hw).
  case_decide as Hp; [|done].
  left. symmetry in Hp. by destruct (Heq Hp) as [-> ->].
Qed.


(** After a write has been tried, what it would write rests. *)
Lemma write_rests T par n m c :
  kind_at par T = Some KDir →
  match write_file (par ++ [n]) (File m c) T with
  | inr T' => kind_at (par ++ [n]) T' = Some (KFile m c)
  | inl _ =>
      rests T par (par ++ [n]) m c ∨ kind_at (par ++ [n]) T = Some KDir
  end.
Proof.
  intros Hpar.
  pose proof (write_file_cases par n (File m c) T Hpar) as Hc.
  destruct (write_file (par ++ [n]) (File m c) T) as [e|T'] eqn:Hw.
  - destruct (kind_at (par ++ [n]) T) as [[m' c'|]|] eqn:Hk.
    + destruct (writable m') eqn:Hm'; [by destruct Hc|].
      left. right. left. eauto.
    + by right.
    + destruct Hc as (dm & Hdm & Hc).
      destruct (writable dm) eqn:Hwd; [by destruct Hc|].
      left. right. right. eauto.
  - rewrite (write_file_kind _ _ _ _ _ _ Hw). by rewrite decide_True.
Qed.

Section settle.
Variable t : node.

Lemma source_kind_sound T q :
  sound t T → kind_at (source_dir ++ q) T = kind_at (source_dir ++ q) t.
Proof.
  intros HT. unfold kind_at. rewrite !stat_app.
  by rewrite (sound_source _ _ HT).
Qed.

Lemma source_stat_sound T q :
  sound t T → stat (source_dir ++ q) T = stat (source_dir ++ q) t.
Proof. intros HT. rewrite !stat_app. by rewrite (sound_source _ _ HT). Qed.

Lemma mirror_inj d f d' f' :
  backup_dir ++ d ++ [f] = backup_dir ++ d' ++ [f'] → d = d' ∧ f = f'.
Proof. intros H%app_inv_head. by apply app_inj_tail in H. Qed.

Lemma mirror_inj2 d f d' f' :
  backup_dir ++ d ++ [f] = backup_dir ++ d' ++ [f'; f'] →
  d = d' ++ [f'] ∧ f = f'.
Proof.
  intros H%app_inv_head.
  change [f'; f'] with ([f'] ++ [f']) in H. rewrite app_assoc in H.
  by apply app_inj_tail in H.
Qed.

Lemma mirror_inj3 d f d' f' :
  backup_dir ++ d ++ [f; f] = backup_dir ++ d' ++ [f'; f'] →
  d = d' ∧ f = f'.
Proof.
  intros H%app_inv_head.
  change [f; f] with ([f] ++ [f]) in H.
  change [f'; f'] with ([f'] ++ [f']) in H.
  rewrite !app_assoc in H. apply app_inj_tail in H as [H ->].
  by apply app_inj_tail in H as [-> _].
Qed.

Lemma mirror_snoc d f :
  (backup_dir ++ d ++ [f]) ++ [f] = backup_dir ++ d ++ [f; f].
Proof. by rewrite <- !app_assoc. Qed.

Lemma mirror_app d f : (backup_dir ++ d) ++ [f] = backup_dir ++ d ++ [f].
Proof. by rewrite <- app_assoc. Qed.

Lemma settled_mkdir T T' p d f :
  settled t T d f → mkdir_p p T = inr T' → settled t T' d f.
Proof.
  intros Hs Hmk m c Hc Hr. specialize (Hs m c Hc Hr). cbv zeta in *.
  rewrite <- mirror_app, <- mirror_snoc in *.
  destruct Hs as [H|[H1 [H2|H2]]];
    eauto 6 using mkdir_p_kind_kept, rests_mkdir.
Qed.

Lemma source_file_no_child d f g r c k :
  kind_at (source_dir ++ d ++ [f]) t = Some (KFile r c) →
  kind_at (source_dir ++ (d ++ [f]) ++ [g]) t ≠ Some k.
Proof.
  intros Hf Hg.
  rewrite (kind_at_below_file (source_dir ++ d ++ [f]) _ t r c) in Hg;
    [done| | |done].
  - apply prefix_app. by apply prefix_app_r.
  - intros H%app_inv_head. apply (f_equal length) in H.
    rewrite !length_app in H. simpl in H. lia.
Qed.

(** Where the copies of two source files go: the same place only for the
    same file. *)
Lemma targets_apart d f d' f' r c r' c' tgt tgt' :
  kind_at (source_dir ++ d ++ [f]) t = Some (KFile r c) →
  kind_at (source_dir ++ d' ++ [f']) t = Some (KFile r' c') →
  tgt = backup_dir ++ d ++ [f] ∨ tgt = backup_dir ++ d ++ [f; f] →
  tgt' = backup_dir ++ d' ++ [f'] ∨ tgt' = backup_dir ++ d' ++ [f'; f'] →
  tgt' = tgt → d' = d ∧ f' = f.
Proof.
  intros Hf Hf' [->| ->] [->| ->] Heq.
  - by apply mirror_inj in Heq.
  - symmetry in Heq. apply mirror_inj2 in Heq as [-> ->].
    by destruct (source_file_no_child _ _ f' _ _ (KFile r c) Hf').
  - apply mirror_inj2 in Heq as [-> ->].
    by destruct (source_file_no_child _ _ f _ _ (KFile r' c') Hf).
  - by apply mirror_inj3 in Heq.
Qed.

Lemma settled_copy T T' d f d' f' :
  sound t T → settled t T d f →
  copy2 (source_dir ++ d' ++ [f']) (backup_dir ++ d' ++ [f']) T = inr T' →
  settled t T' d f.
Proof.
  intros HT Hs Hcp m c Hc Hr. specialize (Hs m c Hc Hr). cbv zeta in *.
  apply copy2_inr in Hcp as (m' & c' & Hsrc & Hr' & Hw).
  rewrite copy_target_mirror in Hw.
  assert (kind_at (source_dir ++ d' ++ [f']) t = Some (KFile m' c')) as Hsrc'.
  { apply kind_at_file_stat. by rewrite <- (source_stat_sound T). }
  set (tgt := if isdir (backup_dir ++ d' ++ [f']) T
              then backup_dir ++ d' ++ [f'; f'] else backup_dir ++ d' ++ [f']) in *.
  assert (tgt = backup_dir ++ d' ++ [f'] ∨ tgt = backup_dir ++ d' ++ [f'; f'])
    as Htgt by (unfold tgt; destruct (isdir _ T); auto).
  assert (∀ p, p = backup_dir ++ d ++ [f] ∨ p = backup_dir ++ d ++ [f; f] →
               tgt = p → m' = m ∧ c' = c) as Hsame.
  { intros p Hp Heq.
    destruct (targets_apart d f d' f' m c m' c' p tgt) as [-> ->]; try done.
    split; congruence. }
  assert (∀ q, kind_at q T = Some KDir → kind_at q T' = Some KDir) as Hdir.
  { intros q Hq. rewrite (write_file_kind _ _ _ _ _ q Hw).
    case_decide as Heq; [|done]. subst q. by apply write_file_before in Hw. }
  destruct Hs as [H|[H1 [H2|H2]]].
  - left. eapply rests_write; eauto.
  - right. split; [auto|]. left. eapply rests_write; eauto.
  - right. split; auto.
Qed.

Lemma settled_apply_call T c d f :
  sound t T → settled t T d f → allowed_call t c →
  settled t (apply_call c T) d f.
Proof.
  intros HT Hs Hc.
  destruct c as [p|p|p|src dst]; unfold apply_call, allowed_call in *;
    try done.
  - destruct (mkdir_p p T) as [e|T'] eqn:Hmk; [done|].
    by apply (settled_mkdir T T' p).
  - destruct (copy2 src dst T) as [e|T'] eqn:Hcp; [done|].
    destruct Hc as (d' & f' & -> & -> & _). by apply (settled_copy T T' d f d' f').
Qed.

(** The copy of a file settles it, provided its directory is there. *)
Lemma copy_settles T d f :
  sound t T → kind_at (backup_dir ++ d) T = Some KDir →
  settled t
    (apply_call (SysCopy (source_dir ++ d ++ [f]) (backup_dir ++ d ++ [f])) T) d f.
Proof.
  intros HT Hdir m c Hc Hr. cbv zeta. unfold apply_call.
  assert (stat (source_dir ++ d ++ [f]) T = Some (File m c)) as Hsrc.
  { rewrite (source_stat_sound T) by done. by apply kind_at_file_stat. }
  rewrite copy2_mirror_eq, Hsrc, Hr.
  destruct (isdir (backup_dir ++ d ++ [f]) T) eqn:Hisd.
  - apply isdir_true in Hisd.
    pose proof (write_rests T (backup_dir ++ d ++ [f]) f m c Hisd) as Hw.
    rewrite mirror_snoc in Hw. right.
    destruct (write_file _ _ T) as [e|T'] eqn:HT'.
    + split; [done|]. destruct Hw; auto.
    + split.
      * rewrite (write_file_kind _ _ _ _ _ _ HT'). rewrite decide_False; [done|].
        intros H%app_inv_head%app_inv_head. done.
      * left. by left.
  - apply isdir_false in Hisd.
    pose proof (write_rests T (backup_dir ++ d) f m c Hdir) as Hw.
    rewrite mirror_app in Hw. left.
    destruct (write_file _ _ T) as [e|T'] eqn:HT'.
    + by destruct Hw.
    + by left.
Qed.


End settle.

(** ** Listing a directory *)

Lemma scandir_Some p T dirs files :
  scandir p T = Some (dirs, files) →
  ∃ m es, stat p T = Some (Dir m es) ∧ readable m = true ∧
        dirs = (filter (λ ne : string * node, is_dir_node ne.2) (map_to_list es)).*1 ∧
        files = (filter (λ ne : string * node, ¬ is_dir_node ne.2) (map_to_list es)).*1.
Proof.
  unfold scandir. destruct (stat p T) as [[|m es]|]; try done.
  destruct (readable m) eqn:Hr; [|done].
  intros [= <- <-]. by exists m, es.
Qed.

(** A path lists exactly when it is a directory that can be listed. *)
Lemma scandir_None p T : scandir p T = None ↔ ¬ listable p T.
Proof.
  unfold scandir, listable, dmode_at.
  destruct (stat p T) as [[|m es]|]; simpl.
  - split; [|done]. by intros _ (? & ? & _).
  - destruct (readable m) eqn:Hr; split; try done.
    + intros H. destruct H. eauto.
    + intros _ (? & [= <-] & ?). congruence.
  - split; [|done]. by intros _ (? & ? & _).
Qed.

Lemma scandir_listable p T dirs files :
  scandir p T = Some (dirs, files) → listable p T.
Proof.
  intros (m & es & H & Hr & _)%scandir_Some. exists m. split; [|done].
  apply dmode_at_stat. eauto.
Qed.

Lemma scandir_dir p T dirs files :
  scandir p T = Some (dirs, files) → kind_at p T = Some KDir.
Proof. intros H%scandir_listable. by apply listable_dir. Qed.

Lemma scandir_dirs p T dirs files n :
  scandir p T = Some (dirs, files) →
  n ∈ dirs ↔ kind_at (p ++ [n]) T = Some KDir.
Proof.
  intros (m & es & Hes & _ & -> & _)%scandir_Some.
  unfold kind_at. rewrite stat_snoc, Hes. rewrite list_elem_of_fmap. split.
  - intros ([n' c] & -> & [Hd Hin%elem_of_map_to_list]%list_elem_of_filter).
    simpl in *. rewrite Hin. by destruct c.
  - destruct (es !! n) as [[|m' es']|] eqn:Hn; try done. intros _.
    exists (n, Dir m' es'). split; [done|]. apply list_elem_of_filter.
    split; [done|]. by apply elem_of_map_to_list.
Qed.

Lemma scandir_files p T dirs files n :
  scandir p T = Some (dirs, files) →
  n ∈ files ↔ ∃ r c, kind_at (p ++ [n]) T = Some (KFile r c).
Proof.
  intros (m & es & Hes & _ & _ & ->)%scandir_Some.
  unfold kind_at. rewrite stat_snoc, Hes. rewrite list_elem_of_fmap. split.
  - intros ([n' c] & -> & [Hd Hin%elem_of_map_to_list]%list_elem_of_filter).
    simpl in *. rewrite Hin. destruct c; [eauto|]. by destruct Hd.
  - intros (r & c & Hk). destruct (es !! n) as [[r' c'|m' es']|] eqn:Hn; try done.
    exists (n, File r' c'). split; [done|]. apply list_elem_of_filter.
    split; [by intros []|]. by apply elem_of_map_to_list.
Qed.

(** A name is listed once. *)
Lemma scandir_NoDup p T dirs files :
  scandir p T = Some (dirs, files) → NoDup dirs ∧ NoDup files.
Proof.
  intros (m & es & _ & _ & -> & ->)%scandir_Some.
  assert (∀ (P : string * node → Prop) `{!∀ x, Decision (P x)},
            NoDup (filter P (map_to_list es)).*1) as H.
  { intros P ?. pose proof (NoDup_fst_map_to_list es) as Hnd.
    induction (map_to_list es) as [|[n c] l IH]; [constructor|].
    simpl in Hnd. apply NoDup_cons in Hnd as [Hn Hnd].
    rewrite filter_cons. case_decide; [|auto].
    simpl. apply NoDup_cons. split; [|auto].
    intros ([n' c'] & -> & [_ Hin]%list_elem_of_filter)%list_elem_of_fmap.
    apply Hn. apply list_elem_of_fmap. by exists (n', c'). }
  split; apply H.
Qed.

Lemma scandir_stat_eq p T T' : stat p T = stat p T' → scandir p T = scandir p T'.
Proof. unfold scandir. by intros ->. Qed.

(** The nodes below the sub-directories pushed by a turn are fewer than
    those below the directory. *)
Lemma node_size_pos t : 0 < node_size t.
Proof. destruct t; simpl; lia. Qed.

Lemma node_size_dir m es :
  node_size (Dir m es) = S (sum_list_with (λ ne, node_size ne.2) (map_to_list es)).
Proof.
  simpl. f_equal. rewrite map_fold_fmap, map_fold_foldr.
  induction (map_to_list es) as [|[n c] l IH]; simpl; [done|]. by rewrite IH.
Qed.

Lemma sum_children_le (es : gmap string node) (w v : node → nat)
    (Q : string → Prop) `{!∀ n, Decision (Q n)} (l : list (string * node)) :
  (∀ c, v c ≤ w c) →
  Forall (λ ne, es !! ne.1 = Some ne.2) l →
  sum_list_with (λ n, from_option v 0 (es !! n))
    (filter Q (filter (λ ne : string * node, is_dir_node ne.2) l).*1)
  ≤ sum_list_with (λ ne, w ne.2) l.
Proof.
  intros Hvw. induction 1 as [|[n c] l Hn _ IH]; [done|]. simpl in Hn.
  rewrite filter_cons. case_decide as Hd; simpl.
  - rewrite filter_cons. case_decide; simpl.
    + rewrite Hn. simpl. apply Nat.add_le_mono; [apply Hvw|apply IH].
    + etrans; [apply IH|]. lia.
  - etrans; [apply IH|]. lia.
Qed.

Lemma sum_list_with_eq {A} (f g : A → nat) l :
  (∀ x, f x = g x) → sum_list_with f l = sum_list_with g l.
Proof. intros H. induction l as [|x l IH]; simpl; [done|]. by rewrite H, IH. Qed.

Lemma walk_fuel_snoc p T m es n :
  stat p T = Some (Dir m es) →
  walk_fuel (p ++ [n]) T = from_option node_size 0 (es !! n).
Proof. intros H. unfold walk_fuel. by rewrite stat_snoc, H. Qed.

Lemma map_to_list_lookups {A} (es : gmap string A) :
  Forall (λ ne, es !! ne.1 = Some ne.2) (map_to_list es).
Proof. apply Forall_forall. intros [n c]. apply elem_of_map_to_list. Qed.

Lemma walk_fuel_children p T dirs files (Q : string → Prop)
    `{!∀ n, Decision (Q n)} :
  scandir p T = Some (dirs, files) →
  sum_list_with (λ n, walk_fuel (p ++ [n]) T) (filter Q dirs) < walk_fuel p T.
Proof.
  intros (m & es & Hes & _ & -> & _)%scandir_Some.
  unfold walk_fuel at 2. rewrite Hes. cbn [from_option].
  rewrite node_size_dir.
  rewrite (sum_list_with_eq _ (λ n, from_option node_size 0 (es !! n))).
  2:{ intros n. by eapply walk_fuel_snoc. }
  apply Nat.lt_succ_r.
  apply (sum_children_le es node_size node_size Q); [done|].
  apply map_to_list_lookups.
Qed.

Lemma files_below_dir m es :
  files_below (Dir m es) =
  if readable m then
    sum_list_with (λ ne : string * node,
      match ne.2 with
      | File _ _ => 1
      | Dir _ _ => if decide (ne.1 ∈ exclude_dirs) then 0 else files_below ne.2
      end) (map_to_list es)
  else 0.
Proof.
  cbn [files_below]. destruct (readable m); [|done]. rewrite map_fold_foldr.
  induction (map_to_list es) as [|[n c] l IH]; simpl; [done|]. by rewrite IH.
Qed.

Lemma files_split (es : gmap string node) (l : list (string * node)) :
  Forall (λ ne, es !! ne.1 = Some ne.2) l →
  sum_list_with (λ ne : string * node,
    match ne.2 with
    | File _ _ => 1
    | Dir _ _ => if decide (ne.1 ∈ exclude_dirs) then 0 else files_below ne.2
    end) l =
  length (filter (λ ne : string * node, ¬ is_dir_node ne.2) l) +
  sum_list_with (λ n, from_option files_below 0 (es !! n))
    (filter (λ n, n ∉ exclude_dirs)
       (filter (λ ne : string * node, is_dir_node ne.2) l).*1).
Proof.
  induction 1 as [|[n c] l Hn _ IH]; [done|]. simpl in Hn.
  rewrite !filter_cons. destruct c as [r c|m' es']; cbn -[files_below].
  - rewrite decide_True by (by intros []). rewrite decide_False by (by intros []).
    simpl. by rewrite IH.
  - rewrite (decide_False (P:=¬ True)) by (by intros H; apply H).
    rewrite (decide_True (P:=True)) by done.
    cbn -[files_below].
    destruct (decide (n ∈ exclude_dirs)) as [Hin|Hin].
    + rewrite decide_False by (by intros H; apply H). by rewrite IH.
    + rewrite decide_True by done. cbn -[files_below]. rewrite Hn.
      cbn -[files_below]. rewrite IH. apply Nat.add_shuffle3.
Qed.

Lemma files_at_step p T dirs files :
  scandir p T = Some (dirs, files) →
  files_at p T =
  length files +
  sum_list_with (λ n, files_at (p ++ [n]) T) (filter (λ n, n ∉ exclude_dirs) dirs).
Proof.
  intros (m & es & Hes & Hr & -> & ->)%scandir_Some.
  unfold files_at at 1. rewrite Hes. cbn [from_option].
  rewrite files_below_dir, Hr, (files_split es) by apply map_to_list_lookups.
  rewrite length_fmap. f_equal. apply sum_list_with_eq.
  intros n. unfold files_at. by rewrite stat_snoc, Hes.
Qed.

Lemma files_at_not_dir p T : scandir p T = None → files_at p T = 0.
Proof.
  unfold scandir, files_at. destruct (stat p T) as [[|m es]|]; try done.
  simpl. by destruct (readable m).
Qed.

Lemma sum_list_with_fmap {A B} (f : B → nat) (g : A → B) l :
  sum_list_with f (g <$> l) = sum_list_with (f ∘ g) l.
Proof. induction l as [|x l IH]; [done|]. simpl. f_equal. exact IH. Qed.

(** The rule of the loop: an invariant kept by every turn holds, with an
    empty stack, when the walk returns. *)
Lemma walk_loop_rule E (I : nat → list path → nat * nat → world → Prop)
    (X : signal → world → Prop) :
  (∀ fuel root stack counts w, I (S fuel) (root :: stack) counts w →
     match walk_step E root stack counts w with
     | (Ret (stack', counts'), w') => I fuel stack' counts' w'
     | (Stop s, w') => X s w'
     end) →
  (∀ root stack counts w, I 0 (root :: stack) counts w → X Diverge w) →
  ∀ fuel stack counts w, I fuel stack counts w →
    match walk_loop E fuel stack counts w with
    | (Ret counts', w') => ∃ fuel', I fuel' [] counts' w'
    | (Stop s, w') => X s w'
    end.
Proof.
  intros Hstep Hzero. induction fuel as [|fuel IH]; intros stack counts w HI.
  - destruct stack as [|root stack]; simpl; [by exists 0|]. by eapply Hzero.
  - destruct stack as [|root stack]; simpl; [by eexists|].
    unfold mbind, M_bind. specialize (Hstep _ _ _ _ _ HI).
    destruct (walk_step E root stack counts w) as [[[stack' counts']|s] w'];
      [|done].
    by apply IH.
Qed.

(** ** The invariant is kept by every turn of the walk *)

Lemma copy_call_mirror d f :
  copy_call (source_dir ++ d) (backup_dir ++ d) f =
  SysCopy (source_dir ++ d ++ [f]) (backup_dir ++ d ++ [f]).
Proof. unfold copy_call. by rewrite <- !app_assoc. Qed.

(** The stack of the walk: what a turn pushes lies below the path it
    pops, and apart from the rest. *)
Lemma apart_tail root stack : apart (root :: stack) → apart stack.
Proof.
  intros Hap i j r r' Hi Hj Hpre.
  by injection (Hap (S i) (S j) r r' Hi Hj Hpre).
Qed.

Lemma apart_head root stack r :
  apart (root :: stack) → r ∈ stack → ¬ r `prefix_of` root.
Proof.
  intros Hap [j Hj]%list_elem_of_lookup Hpre.
  by specialize (Hap (S j) 0 r root Hj eq_refl Hpre).
Qed.

Lemma apart_push root names stack :
  apart (root :: stack) → NoDup names →
  apart (((λ n, root ++ [n]) <$> names) ++ stack).
Proof.
  intros Hap Hnd i j r r' Hi Hj Hpre.
  apply lookup_app_Some in Hi as [Hi|[Hil Hi]];
    apply lookup_app_Some in Hj as [Hj|[Hjl Hj]].
  - rewrite list_lookup_fmap in Hi, Hj.
    destruct (names !! i) as [n|] eqn:Hn; [|done].
    destruct (names !! j) as [n'|] eqn:Hn'; [|done]. simplify_eq/=.
    apply prefix_app_inv, prefix_cons_inv_1 in Hpre as ->.
    by eapply NoDup_lookup.
  - exfalso. rewrite list_lookup_fmap in Hi.
    destruct (names !! i) as [n|] eqn:Hn; [|done]. simplify_eq/=.
    assert (root `prefix_of` r') as H
      by (etrans; [|exact Hpre]; by apply prefix_app_r).
    by specialize (Hap 0 (S _) root r' eq_refl Hj H).
  - exfalso. rewrite list_lookup_fmap in Hj.
    destruct (names !! j) as [n|] eqn:Hn; [|done]. simplify_eq/=.
    apply prefix_snoc_inv in Hpre as [Hpre| ->].
    + by specialize (Hap (S _) 0 r root Hi eq_refl Hpre).
    + assert (root `prefix_of` root ++ [n]) as H by (by apply prefix_app_r).
      by specialize (Hap 0 (S _) root _ eq_refl Hi H).
  - pose proof (Hap (S _) (S _) r r' Hi Hj Hpre) as H.
    rewrite length_fmap in *. lia.
Qed.

Lemma NoDup_not_in_take {A} (l : list A) k x :
  NoDup l → l !! k = Some x → x ∉ take k l.
Proof.
  intros Hnd Hk (i & Hi & Hlt)%elem_of_take.
  pose proof (NoDup_lookup _ _ _ _ Hnd Hi Hk). lia.
Qed.

Section walk.
Variable E : env.
Variable t : node.
Hypothesis source_exists : is_Some (kind_at source_dir t).

Lemma source_listable_sound T q :
  sound t T → listable (source_dir ++ q) T ↔ listable (source_dir ++ q) t.
Proof.
  intros HT. unfold listable, dmode_at. by rewrite (source_stat_sound t T).
Qed.

Lemma walked_of_scandir T d dirs files :
  sound t T → reached t d →
  scandir (source_dir ++ d) T = Some (dirs, files) → walked t d.
Proof.
  intros HT Hd Hscan. apply reached_walked; [done|].
  apply (source_listable_sound T); [done|]. by eapply scandir_listable.
Qed.

Lemma source_file_of_scandir T d dirs files f :
  sound t T → scandir (source_dir ++ d) T = Some (dirs, files) →
  f ∈ files ↔ source_file t d f.
Proof.
  intros HT Hscan. rewrite (scandir_files _ _ _ _ f Hscan).
  unfold source_file. rewrite <- app_assoc.
  by setoid_rewrite (source_kind_sound t T (d ++ [f]) HT).
Qed.

Lemma copy_calls_allowed d files :
  walked t d → (∀ f, f ∈ files → source_file t d f) →
  Forall (allowed_call t) (copy_call (source_dir ++ d) (backup_dir ++ d) <$> files).
Proof.
  intros Hd Hfiles. apply Forall_fmap, Forall_forall. intros f Hf.
  unfold compose. rewrite copy_call_mirror. exists d, f. split_and!; auto.
Qed.

Lemma step_calls_allowed T d dirs files :
  sound t T → reached t d →
  scandir (source_dir ++ d) T = Some (dirs, files) →
  Forall (allowed_call t) (step_calls (source_dir ++ d) (backup_dir ++ d) files).
Proof.
  intros HT Hd Hscan.
  pose proof (walked_of_scandir _ _ _ _ HT Hd Hscan) as Hw.
  unfold step_calls. repeat apply Forall_cons_2.
  - by exists d.
  - right. by exists d.
  - apply copy_calls_allowed; [done|]. intros f.
    by apply (source_file_of_scandir T d dirs files f).
Qed.

Lemma settled_replay T cs d f :
  sound t T → Forall (allowed_call t) cs → settled t T d f →
  settled t (replay cs T) d f.
Proof.
  revert T. induction cs as [|c cs IH]; intros T HT Hcs Hs; [done|].
  apply Forall_cons in Hcs as [Hc Hcs]. apply IH; [|done|].
  - by apply sound_apply_call.
  - by apply settled_apply_call.
Qed.

Lemma copies_settle T d files :
  sound t T → walked t d → kind_at (backup_dir ++ d) T = Some KDir →
  (∀ f, f ∈ files → source_file t d f) →
  ∀ f, f ∈ files →
    settled t (replay (copy_call (source_dir ++ d) (backup_dir ++ d) <$> files) T) d f.
Proof.
  revert T. induction files as [|g files IH]; intros T HT Hd Hdir Hfiles f Hf.
  { by apply elem_of_nil in Hf. }
  rewrite fmap_cons. unfold replay. cbn [foldl]. fold (replay (copy_call (source_dir ++ d) (backup_dir ++ d) <$> files)).
  assert (allowed_call t (copy_call (source_dir ++ d) (backup_dir ++ d) g)) as Hg.
  { rewrite copy_call_mirror. exists d, g. split_and!; auto.
    apply Hfiles. left. }
  set (T2 := apply_call (copy_call (source_dir ++ d) (backup_dir ++ d) g) T).
  assert (sound t T2) by (by apply sound_apply_call).
  assert (kind_at (backup_dir ++ d) T2 = Some KDir)
    by (by apply apply_call_dir_kept).
  assert (∀ f, f ∈ files → source_file t d f)
    by (intros ??; apply Hfiles; by right).
  destruct (decide (f ∈ files)) as [Hin|Hnin]; [by apply IH|].
  apply elem_of_cons in Hf as [->|?]; [|done].
  apply settled_replay; [done|by apply copy_calls_allowed|].
  unfold T2. rewrite copy_call_mirror. by apply copy_settles.
Qed.

Lemma visited_stable w w' cs d :
  sound t (fs w) → Forall (allowed_call t) cs →
  fs w' = replay cs (fs w) → calls w' = calls w ++ cs →
  visited t w d → visited t w' d.
Proof.
  intros HT Hcs Hfs Hcalls [Hdir Hfiles]. split.
  - rewrite Hfs. by apply replay_dir_kept.
  - intros f. destruct (Hfiles f) as [Hs Hc]. split.
    + rewrite Hfs. by apply settled_replay.
    + intros Hf. rewrite Hcalls. apply elem_of_app. left. auto.
Qed.

(** The place of a copy is left as it was by every call but that of the
    copy itself. *)
Lemma untouched_init d f : untouched t t d f.
Proof. done. Qed.

Lemma untouched_mkdir T T' p d f :
  allowed_call t (SysMkdir p) → source_file t d f →
  mkdir_p p T = inr T' → untouched t T d f → untouched t T' d f.
Proof.
  intros Hp (r & c & Hf) Hmk [H1 H2]. unfold untouched.
  rewrite !(mkdir_p_kind _ _ _ _ Hmk).
  assert (∀ x, ¬ backup_dir ++ d ++ f :: x `prefix_of` p) as Hn.
  { intros x Hpre. destruct Hp as [->|(d' & -> & Hd')].
    - apply prefix_length in Hpre. rewrite !length_app in Hpre.
      simpl in Hpre. lia.
    - apply prefix_app_inv in Hpre.
      eapply (walked_not_file t d' d f); [done| |done].
      etrans; [|exact Hpre]. apply prefix_app, prefix_cons, prefix_nil. }
  rewrite !decide_False; [done|apply (Hn [f])|apply (Hn [])].
Qed.

Lemma untouched_copy T T' d f d' f' :
  sound t T → source_file t d f → ¬ (d' = d ∧ f' = f) →
  copy2 (source_dir ++ d' ++ [f']) (backup_dir ++ d' ++ [f']) T = inr T' →
  untouched t T d f → untouched t T' d f.
Proof.
  intros HT (r & c & Hf) Hne Hcp [H1 H2].
  apply copy2_inr in Hcp as (m' & c' & Hsrc & Hr' & Hw).
  rewrite copy_target_mirror in Hw.
  assert (kind_at (source_dir ++ d' ++ [f']) t = Some (KFile m' c')) as Hsrc'.
  { apply kind_at_file_stat. by rewrite <- (source_stat_sound t T). }
  set (tgt := if isdir (backup_dir ++ d' ++ [f']) T
              then backup_dir ++ d' ++ [f'; f'] else backup_dir ++ d' ++ [f']) in *.
  assert (tgt = backup_dir ++ d' ++ [f'] ∨ tgt = backup_dir ++ d' ++ [f'; f'])
    as Htgt by (unfold tgt; destruct (isdir _ T); auto).
  assert (∀ p, p = backup_dir ++ d ++ [f] ∨ p = backup_dir ++ d ++ [f; f] →
               p ≠ tgt) as Hp.
  { intros p Hp Heq. apply Hne.
    by apply (targets_apart t d f d' f' r c m' c' p tgt). }
  unfold untouched. rewrite !(write_file_kind _ _ _ _ _ _ Hw).
  rewrite !decide_False; [done|apply Hp; auto..].
Qed.

Lemma untouched_apply_call T c d f :
  sound t T → allowed_call t c → source_file t d f →
  c ≠ SysCopy (source_dir ++ d ++ [f]) (backup_dir ++ d ++ [f]) →
  untouched t T d f → untouched t (apply_call c T) d f.
Proof.
  intros HT Hc Hf Hne Hu.
  destruct c as [p|p|p|src dst]; cbn [apply_call]; try done.
  - destruct (mkdir_p p T) as [e|T'] eqn:Hmk; [done|].
    by eapply untouched_mkdir.
  - destruct (copy2 src dst T) as [e|T'] eqn:Hcp; [done|].
    destruct Hc as (d' & f' & -> & -> & _).
    eapply (untouched_copy T T' d f d' f'); eauto.
    intros [-> ->]. done.
Qed.

Lemma untouched_replay T cs d f :
  sound t T → Forall (allowed_call t) cs → source_file t d f →
  SysCopy (source_dir ++ d ++ [f]) (backup_dir ++ d ++ [f]) ∉ cs →
  untouched t T d f → untouched t (replay cs T) d f.
Proof.
  revert T. induction cs as [|c cs IH]; intros T HT Hcs Hf Hnin Hu; [done|].
  apply Forall_cons in Hcs as [Hc Hcs]. apply not_elem_of_cons in Hnin as [? ?].
  apply IH; try done.
  - by apply sound_apply_call.
  - by apply untouched_apply_call.
Qed.

(** The copies of a turn on [d] are those of the files of [d]. *)
Lemma copy_in_step_calls d files d' f' :
  SysCopy (source_dir ++ d' ++ [f']) (backup_dir ++ d' ++ [f'])
    ∈ step_calls (source_dir ++ d) (backup_dir ++ d) files →
  d' = d ∧ f' ∈ files.
Proof.
  unfold step_calls. intros Hin.
  apply elem_of_cons in Hin as [?|Hin]; [done|].
  apply elem_of_cons in Hin as [?|Hin]; [done|].
  apply list_elem_of_fmap in Hin as (g & Heq & Hg).
  rewrite copy_call_mirror in Heq. injection Heq as Heq _.
  apply app_inj_tail in Heq as [-> ->]. done.
Qed.

Lemma replay_step_calls root dest files T T1 :
  mkdir_p dest T = inr T1 →
  replay (step_calls root dest files) T = replay (copy_call root dest <$> files) T1.
Proof. intros Hmk. unfold step_calls, replay. simpl. by rewrite Hmk. Qed.

Lemma walk_inv_sound fuel stack counts w :
  walk_inv t fuel stack counts w → sound t (fs w).
Proof.
  intros HI. rewrite (inv_trace _ _ _ _ _ HI).
  apply sound_replay; [done|by apply sound_init|].
  apply (inv_allowed _ _ _ _ _ HI).
Qed.

Lemma walk_inv_step fuel root stack counts w :
  walk_inv t (S fuel) (root :: stack) counts w →
  match walk_step E root stack counts w with
  | (Ret (stack', counts'), w') => walk_inv t fuel stack' counts' w'
  | (Stop s, w') => walk_stop E t s w'
  end.
Proof.
  intros HI. pose proof (walk_inv_sound _ _ _ _ HI) as HT.
  destruct counts as [cf cd].
  destruct HI as [Htr Hal Hroot Hst Hap Hfuel Hvis Hfresh Hcnt Htot Hwarn].
  apply Forall_cons in Hst as [(d & -> & Hd & Hex) Hst].
  cbn [sum_list_with] in Hfuel, Htot. cbn [fst] in Hcnt.
  pose proof (walk_step_spec E d stack cf cd w) as Hspec. cbv zeta in Hspec.
  assert (scandir (source_dir ++ d) t = scandir (source_dir ++ d) (fs w))
    as Hscan_t by (apply scandir_stat_eq; symmetry; by apply source_stat_sound).
  destruct (walk_step E (source_dir ++ d) stack (cf, cd) w)
    as [[[stack' [cf' cd']]|s] w'].
  - destruct (scandir (source_dir ++ d) (fs w)) as [[dirs files]|] eqn:Hscan.
    + destruct Hspec as (T1 & Hmk & -> & -> & Hcalls & Hfs & Hn & out & Hout & Hall).
      pose proof (walked_of_scandir _ _ _ _ HT Hd Hscan) as Hw.
      assert (sound t T1) as HT1 by (eapply sound_mkdir; eauto).
      assert (kind_at (backup_dir ++ d) T1 = Some KDir) as Hdir1.
      { rewrite (mkdir_p_kind _ _ _ _ Hmk). by rewrite decide_True. }
      pose proof (step_calls_allowed _ _ _ _ HT Hd Hscan) as Hcs.
      assert (∀ f, f ∈ files → source_file t d f) as Hfiles.
      { intros f. by apply (source_file_of_scandir (fs w) d dirs files f). }
      pose proof (copy_calls_allowed d files Hw Hfiles) as Hcopies.
      assert (fs w' = replay (step_calls (source_dir ++ d) (backup_dir ++ d) files) (fs w))
        as Hfs' by (by rewrite (replay_step_calls _ _ _ _ T1)).
      destruct (scandir_NoDup _ _ _ _ Hscan) as [Hnd_dirs Hnd_files].
      split.
      * by rewrite Hcalls, replay_app, <- Htr.
      * rewrite Hcalls. by apply Forall_app.
      * rewrite Hfs'. by apply replay_dir_kept.
      * apply Forall_app. split; [|done].
        apply Forall_fmap, Forall_forall. intros n [Hex' Hn']%list_elem_of_filter.
        unfold compose. exists (d ++ [n]). split_and!.
        -- by rewrite app_assoc.
        -- by apply reached_snoc.
        -- rewrite <- app_assoc, <- (source_kind_sound t (fs w)) by done.
           rewrite app_assoc.
           by rewrite (proj1 (scandir_dirs _ _ _ _ n Hscan) Hn').
      * apply apart_push; [done|]. by apply NoDup_filter.
      * rewrite sum_list_with_app, sum_list_with_fmap.
        pose proof (walk_fuel_children (source_dir ++ d) t dirs files
                      (λ n, n ∉ exclude_dirs) Hscan_t) as Hlt.
        unfold compose. lia.
      * intros d' Hd'. destruct (decide (d' = d)) as [->|Hne].
        { right. split; [rewrite Hfs; by apply replay_dir_kept|].
          intros f. split.
          - destruct (decide (f ∈ files)) as [Hf|Hf].
            + rewrite Hfs. by apply copies_settle.
            + intros m c Hc. destruct Hf.
              apply (source_file_of_scandir (fs w) d dirs files f); [done..|].
              by exists m, c.
          - intros Hf%(source_file_of_scandir (fs w) d dirs files f); [|done..].
            rewrite Hcalls. apply elem_of_app. right.
            unfold step_calls. do 2 right. rewrite <- copy_call_mirror.
            by apply list_elem_of_fmap_2. }
        destruct (Hvis d' Hd') as [(root & Hin & Hpre)|Hv].
        2:{ right. by apply (visited_stable w w' _ d' HT Hcs). }
        left. apply elem_of_cons in Hin as [->|Hin].
        2:{ exists root. split; [|done]. apply elem_of_app. by right. }
        apply prefix_app_inv in Hpre as [k ->].
        destruct k as [|n k]; [by rewrite app_nil_r in Hne|].
        exists ((source_dir ++ d) ++ [n]). split.
        -- apply elem_of_app. left.
           apply (list_elem_of_fmap_2 (λ n, (source_dir ++ d) ++ [n])).
           assert (walked t (d ++ [n])) as Hdn.
           { apply (walked_prefix t _ (d ++ n :: k)); [done|].
             apply prefix_app, prefix_cons, prefix_nil. }
           apply list_elem_of_filter. split.
           ++ pose proof (walked_unpruned _ _ Hdn) as Hu.
              unfold unpruned in Hu. apply Forall_app in Hu as [_ Hu].
              by inversion Hu.
           ++ apply (scandir_dirs _ _ _ _ n Hscan).
              rewrite <- app_assoc. rewrite (source_kind_sound t) by done.
              by apply walked_dir.
        -- rewrite <- !app_assoc. do 2 apply prefix_app.
           apply prefix_cons, prefix_nil.
      * intros d' f' (r & Hr & Hpre) Hd' Hf'.
        assert (d' ≠ d ∧ pending d' ((source_dir ++ d) :: stack)) as [Hne Hpend].
        { apply elem_of_app in Hr as [Hr|Hr].
          - apply list_elem_of_fmap in Hr as (n & -> & _). split.
            + intros ->. apply prefix_length in Hpre.
              rewrite !length_app in Hpre. simpl in Hpre. lia.
            + exists (source_dir ++ d). split; [by left|].
              etrans; [|exact Hpre]. by apply prefix_app_r.
          - split.
            + intros ->. by apply (apart_head _ _ r Hap Hr).
            + exists r. split; [by right|done]. }
        rewrite Hfs'. apply untouched_replay; try done; [|by apply Hfresh].
        intros [? _]%copy_in_step_calls. done.
      * cbn [fst]. rewrite Hcalls, copies_app. unfold step_calls.
        change (copies (?a :: ?b :: ?l)) with (copies l).
        rewrite copies_copy_calls. lia.
      * rewrite Hcalls, copies_app. unfold step_calls.
        change (copies (?a :: ?b :: ?l)) with (copies l).
        rewrite copies_copy_calls, sum_list_with_app, sum_list_with_fmap.
        pose proof (files_at_step (source_dir ++ d) t dirs files Hscan_t) as Hfa.
        unfold compose. lia.
      * intros src e Hin. rewrite Hout in Hin.
        apply elem_of_app in Hin as [Hin|Hin]; [by apply Hwarn|].
        rewrite Forall_forall in Hall. specialize (Hall _ Hin).
        destruct Hall as (k & f & Hk & -> & Hcp).
        exists d, f, (replay (copy_call (source_dir ++ d) (backup_dir ++ d)
                               <$> take k files) T1).
        assert (Forall (allowed_call t)
                  (copy_call (source_dir ++ d) (backup_dir ++ d) <$> take k files)).
        { apply copy_calls_allowed; [done|]. intros g Hg. apply Hfiles.
          eapply elem_of_prefix; [exact Hg|apply prefix_take]. }
        assert (source_file t d f) as Hf
          by (by eapply Hfiles, list_elem_of_lookup_2).
        split_and!.
        -- by rewrite <- app_assoc.
        -- done.
        -- by apply sound_replay.
        -- by apply replay_dir_kept.
        -- apply untouched_replay; try done.
           ++ intros (g & Heq & Hg)%list_elem_of_fmap.
              rewrite copy_call_mirror in Heq. injection Heq as Heq _.
              apply app_inj_tail in Heq as [_ <-].
              by apply (NoDup_not_in_take files k f).
           ++ apply (untouched_mkdir (fs w) T1 (backup_dir ++ d)); try done.
              { right. by exists d. }
              apply Hfresh; [|done..].
              exists (source_dir ++ d). split; [by left|done].
        -- by rewrite <- !app_assoc in Hcp.
    + destruct Hspec as (-> & -> & -> & ->). cbn [fs stdout calls].
      split; cbn [fs stdout calls fst]; try done.
      * by rewrite replay_snoc, <- Htr.
      * apply Forall_app. split; [done|]. apply Forall_singleton.
        by exists d.
      * by eapply apart_tail.
      * pose proof (node_size_pos) as Hpos. unfold walk_fuel in Hfuel at 1.
        destruct Hex as [k Hk]. unfold kind_at in Hk.
        destruct (stat (source_dir ++ d) t) as [x|]; [|done].
        specialize (Hpos x). simpl in Hfuel. lia.
      * intros d' Hd'. destruct (Hvis d' Hd') as [(root & Hin & Hpre)|[Hv1 Hv2]].
        -- left. apply elem_of_cons in Hin as [->|Hin]; [|by exists root].
           apply prefix_app_inv in Hpre.
           destruct Hd' as [_ Hl]. specialize (Hl d Hpre).
           by apply scandir_None in Hscan_t.
        -- right. split; [done|]. intros f. destruct (Hv2 f) as [? Hc].
           split; [done|]. intros Hf. apply elem_of_app. left. auto.
      * intros d' f' (r & Hr & Hpre). apply Hfresh. exists r.
        split; [by right|done].
      * by rewrite copies_app, Nat.add_0_r.
      * rewrite copies_app. rewrite files_at_not_dir in Htot by done.
        change (copies [SysScandir _]) with 0. lia.
  - destruct Hspec as [Hs (cs & Hcalls & Hfs & Hpre)].
    assert (Forall (allowed_call t) cs) as Hcs.
    { destruct Hpre as [k Hk].
      assert (Forall (allowed_call t) (cs ++ k)) as Hall;
        [|by apply Forall_app in Hall as [? _]].
      rewrite <- Hk. destruct (scandir (source_dir ++ d) (fs w))
        as [[dirs files]|] eqn:Hscan.
      - by apply (step_calls_allowed _ _ _ _ HT Hd Hscan).
      - apply Forall_singleton. by exists d. }
    split_and!.
    + by rewrite Hcalls, replay_app, <- Htr.
    + rewrite Hcalls. by apply Forall_app.
    + destruct Hs as [Hs|(e & dirs & files & -> & Hscan & Hmk)]; [by left|].
      right. exists e, d, (fs w). split_and!; try done.
      by apply (walked_of_scandir _ _ _ _ HT Hd Hscan).
Qed.
End walk.

(** ** The console *)

Lemma loop_output_line root dest files T o :
  loop_output root dest files T o → loop_line o.
Proof. by destruct o. Qed.

Lemma copy_files_stdout E root dest files n w :
  ∃ out, stdout (copy_files E root dest files n w).2 = stdout w ++ out ∧
         Forall loop_line out.
Proof.
  revert n w. induction files as [|f files IH]; intros n w.
  - exists []. by rewrite app_nil_r.
  - cbn [copy_files]. unfold mbind, M_bind. rewrite copy_file_eq.
    destruct (decide _); [exists []; by rewrite app_nil_r|].
    destruct (copy2 _ _ _) as [e|T'].
    + match goal with |- context [copy_files E root dest files ?n ?w] =>
        destruct (IH n w) as (out & Hout & Hall);
        destruct (copy_files E root dest files n w) as [[?|?] ?] end;
        simpl in *; exists (Warning (root ++ [f]) e :: out);
        (split; [by rewrite Hout, <- app_assoc|by constructor]).
    + match goal with |- context [copy_files E root dest files ?n ?w] =>
        destruct (IH n w) as (out & Hout & Hall);
        destruct (copy_files E root dest files n w) as [[?|?] ?] end;
        simpl in *;
        exists ((if (n + 1) mod 100 =? 0 then [Progress (n + 1)] else []) ++ out);
        (split; [by rewrite Hout, <- app_assoc|]);
        apply Forall_app; (split; [|done]);
        destruct ((n + 1) mod 100 =? 0); by repeat constructor.
Qed.

Lemma walk_step_stdout E root stack counts w :
  ∃ out, stdout (walk_step E root stack counts w).2 = stdout w ++ out ∧
         Forall loop_line out.
Proof.
  unfold walk_step, os_scandir, sys, mbind, M_bind.
  destruct (decide _); [exists []; by rewrite app_nil_r|].
  destruct (scandir root (fs w)) as [[dirs files]|];
    [|exists []; by rewrite app_nil_r].
  destruct counts as [cf cd].
  unfold walk_body, Path_mkdir, sys, mbind, M_bind. cbn [calls fs stdout].
  destruct (decide _); [exists []; by rewrite app_nil_r|].
  destruct (mkdir_p _ (fs w)) as [e|T1]; [exists []; by rewrite app_nil_r|].
  match goal with |- context [copy_files E ?r ?d ?fl ?n ?w] =>
    destruct (copy_files_stdout E r d fl n w) as (out & Hout & Hall);
    destruct (copy_files E r d fl n w) as [[?|?] ?] end;
    simpl in *; by exists out.
Qed.

Lemma walk_loop_stdout E fuel stack counts w :
  ∃ out, stdout (walk_loop E fuel stack counts w).2 = stdout w ++ out ∧
         Forall loop_line out.
Proof.
  revert stack counts w. induction fuel as [|fuel IH]; intros stack counts w.
  - destruct stack; exists []; by rewrite app_nil_r.
  - destruct stack as [|root stack]; [exists []; by rewrite app_nil_r|].
    cbn [walk_loop]. unfold mbind, M_bind.
    destruct (walk_step_stdout E root stack counts w) as (out & Hout & Hall).
    destruct (walk_step E root stack counts w) as [[[stack' counts']|s] w'];
      [|by exists out].
    destruct (IH stack' counts' w') as (out' & Hout' & Hall').
    exists (out ++ out'). simpl in *. split.
    + by rewrite Hout', Hout, app_assoc.
    + by apply Forall_app.
Qed.

Section loop.
Variable E : env.
Variable t : node.
Hypothesis source_exists : is_Some (kind_at source_dir t).

(** The walk returns with every directory visited, or stops on an
    interrupt or on a [mkdir] that raised; it never runs out of fuel. *)
Lemma walk_loop_spec fuel stack counts w :
  walk_inv t fuel stack counts w →
  match walk_loop E fuel stack counts w with
  | (Ret counts', w') => ∃ fuel', walk_inv t fuel' [] counts' w'
  | (Stop s, w') => walk_stop E t s w'
  end.
Proof.
  apply (walk_loop_rule E (walk_inv t) (walk_stop E t)).
  - intros. by apply walk_inv_step.
  - intros root stack' counts' w' HI. exfalso.
    pose proof (inv_fuel _ _ _ _ _ HI) as Hfuel.
    pose proof (inv_stack _ _ _ _ _ HI) as Hst.
    apply Forall_cons in Hst as [(d & -> & _ & [k Hk]) _].
    cbn [sum_list_with] in Hfuel. unfold walk_fuel in Hfuel at 1.
    unfold kind_at in Hk.
    destruct (stat (source_dir ++ d) t) as [x|]; [|done].
    pose proof (node_size_pos x). simpl in Hfuel. lia.
Qed.
End loop.

(** ** The whole run *)

Lemma print_bind {A} o (k : M A) w :
  (print o ≫= (λ _, k)) w = k (World (fs w) (stdout w ++ [o]) (calls w)).
Proof. done. Qed.

Lemma ret_bind {A B} (a : A) (k : A → M B) w : (mret a ≫= k) w = k a w.
Proof. done. Qed.

(** A line that differs from every line of a given console is not in it. *)
Ltac not_printed H :=
  repeat (apply elem_of_cons in H as [H|H]; [discriminate H|]);
  by apply elem_of_nil in H.

Lemma sys_bind {A B} E c (f : node → outcome A * node) (k : A → M B) w :
  (sys E c f ≫= k) w =
  if decide (sigint E = Some (length (calls w))) then (Stop KeyboardInterrupt, w)
  else match f (fs w) with
       | (Ret a, T') => k a (World T' (stdout w) (calls w ++ [c]))
       | (Stop s, T') => (Stop s, World T' (stdout w) (calls w ++ [c]))
       end.
Proof.
  unfold sys, mbind, M_bind. destruct (decide _); [done|].
  by destruct (f (fs w)) as [[a|s] T'].
Qed.

Lemma warnings_summary cf cd : warnings (summary cf cd) = 0.
Proof. done. Qed.

Lemma not_in_loop_lines (o : output) out :
  ¬ loop_line o → Forall loop_line out → o ∉ out.
Proof. intros Ho Hall Hin. rewrite Forall_forall in Hall. by apply Ho, Hall. Qed.

Ltac running_lines :=
  unfold header, ready; cbn [app];
  repeat (apply Forall_cons_2; [by cbn|]); apply Forall_nil_2.

Lemma running_not_completed out : Forall running_line out → completed ∉ out.
Proof.
  intros Hall Hin. rewrite Forall_forall in Hall. by apply (Hall _ Hin).
Qed.


Section run.
Variable E : env.
Variable t : node.

Lemma create_backup_spec :
  match create_backup E (boot t) with
  | (Ret _, w) =>
      is_Some (kind_at source_dir t) ∧
      ∃ cf cd out fuel,
        stdout w = header E ++ ready ++ out ++ summary cf cd ∧
        Forall loop_line out ∧
        walk_inv t fuel [] (cf, cd) w
  | (Stop (SystemExit c), w) =>
      c = 1 ∧ kind_at source_dir t = None ∧
      w = World t (header E ++ [SourceMissing source_dir]) [SysExists source_dir]
  | (Stop KeyboardInterrupt, w) =>
      sigint E = Some (length (calls w)) ∧
      fs w = replay (calls w) t ∧ Forall (allowed_call t) (calls w) ∧
      sound t (fs w) ∧ Forall running_line (stdout w) ∧
      (is_Some (kind_at source_dir t) ∨ fs w = t)
  | (Stop (Raise e), w) =>
      is_Some (kind_at source_dir t) ∧
      fs w = replay (calls w) t ∧ Forall (allowed_call t) (calls w) ∧
      sound t (fs w) ∧ Forall running_line (stdout w) ∧
      ∃ d T, (d = [] ∨ walked t d) ∧ sound t T ∧
             mkdir_p (backup_dir ++ d) T = inl e
  | (Stop Diverge, _) => False
  end.
Proof.
  unfold create_backup.
  repeat (rewrite print_bind; cbn [fs stdout calls boot app]).
  fold (header E).
  unfold Path_exists. rewrite sys_bind. cbn [fs stdout calls].
  destruct (decide (sigint E = Some (length []))) as [Hint|Hint].
  { split_and!; try done; [apply sound_init| |by right].
    running_lines. }
  destruct (path_exists source_dir t) eqn:Hex; cbn [negb].
  2:{ assert (kind_at source_dir t = None) as Hnone.
      { apply eq_None_not_Some. intros H%path_exists_true. congruence. }
      by rewrite Hnone. }
  apply path_exists_true in Hex.
  rewrite ret_bind.
  unfold Path_mkdir. rewrite sys_bind. cbn [fs stdout calls app].
  destruct (decide (sigint E = Some _)) as [Hint2|Hint2].
  { split_and!; try done.
    - by apply Forall_singleton.
    - apply sound_init.
    - running_lines.
    - by left. }
  destruct (mkdir_p backup_dir t) as [e|T0] eqn:Hmk.
  { cbn [fs stdout calls]. split_and!; try done.
    - unfold replay. cbn [foldl apply_call]. by rewrite Hmk.
    - repeat apply Forall_cons_2; try done. by left.
    - apply sound_init.
    - running_lines.
    - exists [], t. rewrite app_nil_r. split_and!; [by left|apply sound_init|done]. }
  repeat (rewrite print_bind; cbn [fs stdout calls]).
  rewrite <- !app_assoc. cbn [app]. fold ready.
  assert (sound t T0) as HT0.
  { apply (sound_mkdir t Hex t T0 []); [apply sound_init|by left|].
    by rewrite app_nil_r. }
  set (w2 := World T0 (header E ++ ready) [SysExists source_dir; SysMkdir backup_dir]).
  assert (walk_inv t (walk_fuel source_dir (fs w2)) [source_dir] (0, 0) w2) as HI.
  { split; cbn [fs stdout calls w2 fst sum_list_with].
    - unfold replay. cbn [foldl apply_call]. by rewrite Hmk.
    - repeat apply Forall_cons_2; try done. by left.
    - rewrite (mkdir_p_kind _ _ _ _ Hmk). by rewrite decide_True.
    - apply Forall_singleton. exists []. rewrite app_nil_r.
      split_and!; [done|apply reached_nil|done].
    - intros [|i] [|j] r r' Hi Hj _; try done; by destruct i.
    - unfold walk_fuel. rewrite (sound_source _ _ HT0). lia.
    - intros d _. left. exists source_dir. split; [by left|].
      by apply prefix_app_r.
    - intros d f _ _ Hf.
      apply (untouched_mkdir t t T0 backup_dir); [by left|done..].
    - done.
    - unfold total_files. done.
    - intros src e Hin. exfalso. unfold header, ready in Hin. cbn [app] in Hin.
      not_printed Hin. }
  unfold mbind at 1, M_bind at 1. unfold for_os_walk.
  pose proof (walk_loop_spec E t Hex _ _ _ _ HI) as Hloop.
  destruct (walk_loop_stdout E (walk_fuel source_dir (fs w2)) [source_dir] (0, 0) w2)
    as (out & Hout & Hall).
  destruct (walk_loop E (walk_fuel source_dir (fs w2)) [source_dir] (0, 0) w2)
    as [[[cf cd]|s] w3].
  - destruct Hloop as [fuel' HI'].
    repeat (rewrite print_bind; cbn [fs stdout calls]). unfold print.
    cbn [fs stdout calls snd] in *. split; [done|].
    exists cf, cd, out, fuel'. rewrite <- !app_assoc. cbn [app].
    rewrite Hout, <- !app_assoc. split_and!; [done..|].
    destruct HI' as [Htr Hal Hroot Hst Hap Hfuel Hvis Hfresh Hcnt Htot Hwarn].
    split; cbn [fs stdout calls fst] in *; try done.
    + rewrite app_assoc, warnings_app, <- Hout.
      match goal with |- _ + (_ + ?x) = _ => change x with 0 end. lia.
    + intros src e Hin. apply Hwarn. rewrite Hout.
      apply elem_of_app in Hin as [Hin|Hin]; [apply elem_of_app; by left|].
      apply elem_of_app in Hin as [Hin|Hin]; [apply elem_of_app; by right|].
      exfalso. not_printed Hin.
  - cbn [snd] in *. destruct Hloop as (Htr & Hal & Hs).
    assert (sound t (fs w3)) as HT3.
    { rewrite Htr. apply sound_replay; [done|apply sound_init|done]. }
    assert (Forall running_line (stdout w3)) as Hnc.
    { rewrite Hout. apply Forall_app. split.
      - unfold w2. cbn [stdout]. running_lines.
      - eapply Forall_impl; [exact Hall|]. by intros []. }
    destruct Hs as [[-> Hs]|(e & d & T & -> & Hd & HT & Hmk')];
      [split_and!; auto|].
    split_and!; try done. exists d, T. auto.
Qed.
End run.

(** ** The process *)

Section process.
Variable E : env.
Variable t : node.


(** Exit status 0 is the normal return of [create_backup]. *)
Lemma main_zero w :
  main E t = Some (0, w) →
  is_Some (kind_at source_dir t) ∧
  ∃ cf cd out fuel,
    stdout w = header E ++ ready ++ out ++ summary cf cd ∧
    Forall loop_line out ∧
    walk_inv t fuel [] (cf, cd) w.
Proof.
  unfold main. pose proof (create_backup_spec E t) as H.
  destruct (create_backup E (boot t)) as [[u|[e| |c|]] w']; try done.
  - by intros [= <-].
  - destruct H as (-> & _). done.
Qed.

(** Whatever the outcome, the filesystem left is one the calls of a run
    lead to. *)
Lemma main_sound code w :
  main E t = Some (code, w) →
  sound t (fs w) ∧ fs w = replay (calls w) t ∧
  Forall (allowed_call t) (calls w).
Proof.
  unfold main. pose proof (create_backup_spec E t) as H.
  destruct (create_backup E (boot t)) as [[u|[e| |c|]] w']; try done.
  - intros [= <- <-]. destruct H as (Hex & cf & cd & out & fuel & _ & _ & HI).
    split_and!.
    + by eapply walk_inv_sound.
    + apply (inv_trace _ _ _ _ _ HI).
    + apply (inv_allowed _ _ _ _ _ HI).
  - intros [= <- <-]. cbn [fs calls]. by destruct H as (_ & ? & ? & ? & _).
  - intros [= <- <-]. cbn [fs calls]. by destruct H as (_ & ? & ? & ? & _).
  - intros [= <- <-]. destruct H as (_ & _ & ->). cbn [fs calls].
    split_and!; [apply sound_init|done|]. by apply Forall_singleton.
Qed.
End process.

Lemma walk_inv_visited t fuel counts w d :
  walk_inv t fuel [] counts w → walked t d → visited t w d.
Proof.
  intros HI Hd. destruct (inv_visited _ _ _ _ _ HI d Hd) as [(r & Hr & _)|]; [|done].
  by apply elem_of_nil in Hr.
Qed.


(** ** Where a copy can be written *)

Lemma can_write_sound t T par p :
  sound t T → can_write par p t → kind_at p T = kind_at p t →
  can_write par p T.
Proof.
  intros HT [(m & c & Hk & Hw)|[Hk Hpar]] Heq; [left|right]; rewrite Heq.
  - eauto.
  - split; [done|]. intros dm Hdm.
    destruct (sound_modes _ _ HT _ _ Hdm) as [H|[_ ->]]; auto.
Qed.

Lemma write_file_can T par n f :
  kind_at par T = Some KDir → can_write par (par ++ [n]) T →
  ∃ T', write_file (par ++ [n]) f T = inr T'.
Proof.
  intros Hpar Hcan. pose proof (write_file_cases par n f T Hpar) as Hc.
  destruct Hcan as [(m & c & Hk & Hw)|[Hk Hdm]]; rewrite Hk in Hc.
  - by rewrite Hw in Hc.
  - destruct Hc as (dm & Hdm' & Hc). by rewrite (Hdm dm Hdm') in Hc.
Qed.


(** Nor does the copy that goes inside a directory standing at the mirror
    of the file, when it can be written there. *)
Lemma copy2_inside_ok t T d f m c :
  sound t T → kind_at (source_dir ++ d ++ [f]) t = Some (KFile m c) →
  readable m = true →
  kind_at (backup_dir ++ d ++ [f]) t = Some KDir →
  can_write (backup_dir ++ d ++ [f]) (backup_dir ++ d ++ [f; f]) t →
  untouched t T d f →
  ∃ T', copy2 (source_dir ++ d ++ [f]) (backup_dir ++ d ++ [f]) T = inr T'.
Proof.
  intros HT Hf Hr Hdir Hcan [_ Hu].
  rewrite copy2_mirror_eq, (source_stat_sound t T) by done.
  apply kind_at_file_stat in Hf. rewrite Hf, Hr.
  apply (sound_dirs_kept _ _ HT) in Hdir.
  rewrite (proj2 (isdir_true _ _)) by done.
  rewrite <- mirror_snoc. apply write_file_can; [done|].
  rewrite mirror_snoc. by apply (can_write_sound t).
Qed.

(** A file that rests where it could be written before the run is the copy
    of the source file. *)
Lemma rests_holds t T par p d f m c :
  sound t T → kind_at (source_dir ++ d ++ [f]) t = Some (KFile m c) →
  p = backup_dir ++ d ++ [f] ∨ p = backup_dir ++ d ++ [f; f] →
  can_write par p t → rests T par p m c →
  kind_at p T = Some (KFile m c).
Proof.
  intros HT Hf Hp Hcan [H|[(m' & c' & H & Hw)|(H & dm & Hdm & Hw)]]; [done| |].
  - destruct (sound_files _ _ HT _ _ _ H)
      as [Ht|(d' & f' & Hd' & Hf' & _ & Hp')].
    + destruct Hcan as [(m0 & c0 & Hk & Hw0)|[Hk _]]; congruence.
    + destruct (targets_apart t d f d' f' m c m' c' p p) as [-> ->];
        try done.
      congruence.
  - destruct (sound_modes _ _ HT _ _ Hdm) as [Ht|[_ ->]]; [|done].
    destruct Hcan as [(m0 & c0 & Hk & _)|[_ Hpar]].
    + destruct (sound_files_kept _ _ HT _ _ _ Hk) as (? & ? & ?). congruence.
    + rewrite (Hpar dm Ht) in Hw. done.
Qed.

(** After the run, a readable file of a visited directory whose copy could
    be written is in the backup, with its mode and content. *)
Lemma settled_holds t T d f m c :
  sound t T → settled t T d f →
  kind_at (source_dir ++ d ++ [f]) t = Some (KFile m c) → readable m = true →
  can_write (backup_dir ++ d) (backup_dir ++ d ++ [f]) t →
  kind_at (backup_dir ++ d ++ [f]) T = Some (KFile m c).
Proof.
  intros HT Hs Hf Hr Hcan.
  destruct (Hs m c Hf Hr) as [H|[Hdir _]]; [by eapply rests_holds; eauto|].
  exfalso. destruct (sound_dirs _ _ HT _ Hdir) as [Ht|[Ht|Ht]].
  - destruct Hcan as [(? & ? & Hk & _)|[Hk _]]; congruence.
  - by destruct d.
  - apply walked_dir in Ht. congruence.
Qed.

(** * The claims *)

(** C3. On the source tree [{a/x.txt, a/node_modules/y.txt, b.txt}], with no
    backup yet, the run exits with status 0 and leaves exactly the backup
    tree [{a/x.txt, b.txt}]; the summary reports 2 files copied and 1
    directory created (the root is not counted), and [copy2] is called for
    [b.txt] and [a/x.txt] only. *)
Theorem C3_example_run :
  ∃ w, main quiet example_fs = Some (0, w) ∧
       stat backup_dir (fs w) = Some example_backup ∧
       stdout w = header quiet ++ ready ++ summary 2 1 ∧
       filter is_copy (calls w) =
         [SysCopy (source_dir ++ ["b.txt"]) (backup_dir ++ ["b.txt"]);
          SysCopy (source_dir ++ ["a"; "x.txt"]) (backup_dir ++ ["a"; "x.txt"])].
Proof.
  eexists. split; [vm_compute; reflexivity|]. split_and!; vm_compute; reflexivity.
Qed.

(** ** The directories of the backup *)

Lemma walked_unexcluded t d : walked t d → unexcluded t d.
Proof. intros Hd. split; [by apply walked_dir|by apply (walked_unpruned t)]. Qed.

Lemma unexcluded_prefix t d' d :
  unexcluded t d → d' `prefix_of` d → unexcluded t d'.
Proof.
  intros [Hk Hu] [k ->]. split.
  - destruct k as [|x k]; [by rewrite app_nil_r in Hk|].
    apply (kind_at_prefix _ (source_dir ++ d' ++ x :: k)); [| |by rewrite Hk].
    + apply prefix_app, prefix_app_r. done.
    + intros H%app_inv_head. apply (f_equal length) in H.
      rewrite length_app in H. simpl in H. lia.
  - unfold unpruned in *. by apply Forall_app in Hu as [? _].
Qed.

(** Where every non-excluded directory can be listed, the walk visits them
    all. *)
Lemma unexcluded_walked t d :
  (∀ p, unexcluded t p → listable (source_dir ++ p) t) →
  unexcluded t d → walked t d.
Proof.
  intros Hl Hd. split; [by destruct Hd|].
  intros d' Hd'. apply Hl. by eapply unexcluded_prefix.
Qed.

(** C1, as stated, fails: with an empty source and a backup that already
    holds the directory [old], the run exits with status 0 and [old] is
    still a directory of the backup, though the source has no directory
    [old]. *)
Lemma C1_counterexample :
  ¬ (∀ w, main quiet stale_fs = Some (0, w) →
          ∀ p, kind_at (backup_dir ++ p) (fs w) = Some KDir ↔
               unexcluded stale_fs p).
Proof.
  intros H.
  assert (∃ w, main quiet stale_fs = Some (0, w) ∧
               kind_at (backup_dir ++ ["old"]) (fs w) = Some KDir)
    as (w & Hw & Hold).
  { eexists. split; vm_compute; reflexivity. }
  apply (H w Hw ["old"]) in Hold as [Hk _]. vm_compute in Hk. discriminate.
Qed.

(** C1, amended. After a run that exits with status 0, the directories of
    the backup are exactly those that were already in the backup before the
    run, the backup root, and the mirrors of the source directories that the
    walk visits: the non-excluded directories that can be listed and are
    reached through directories that can be listed. In particular, when the
    backup held no sub-directory before the run, the source is a directory
    and every non-excluded directory of the source can be listed, they are
    exactly the mirrors of the non-excluded source directories. *)
Theorem C1_backup_directories E t w :
  main E t = Some (0, w) →
  (∀ p, kind_at (backup_dir ++ p) (fs w) = Some KDir ↔
        kind_at (backup_dir ++ p) t = Some KDir ∨ p = [] ∨ walked t p) ∧
  ((∀ p, p ≠ [] → kind_at (backup_dir ++ p) t ≠ Some KDir) →
   (∀ p, unexcluded t p → listable (source_dir ++ p) t) →
   kind_at source_dir t = Some KDir →
   ∀ p, kind_at (backup_dir ++ p) (fs w) = Some KDir ↔ unexcluded t p).
Proof.
  intros Hmain.
  destruct (main_zero E t w Hmain) as (Hex & cf & cd & out & fuel & _ & _ & HI).
  pose proof (walk_inv_sound t Hex _ _ _ _ HI) as HT.
  assert (∀ p, kind_at (backup_dir ++ p) (fs w) = Some KDir ↔
               kind_at (backup_dir ++ p) t = Some KDir ∨ p = [] ∨ walked t p)
    as Hall.
  { intros p. split; [apply (sound_dirs _ _ HT)|].
    intros [Hp|[->|Hp]].
    - by apply (sound_dirs_kept _ _ HT).
    - rewrite app_nil_r. apply (inv_root _ _ _ _ _ HI).
    - by destruct (walk_inv_visited _ _ _ _ _ HI Hp). }
  split; [done|]. intros Hempty Hlist Hsrc p.
  assert (unexcluded t []) as Hroot.
  { split; [by rewrite app_nil_r|apply Forall_nil_2]. }
  rewrite Hall. split.
  - intros [Hp|[->|Hp]]; [|done|by apply walked_unexcluded].
    destruct p as [|n p]; [done|]. by destruct (Hempty (n :: p)).
  - intros Hp. right. right. by apply unexcluded_walked.
Qed.

Lemma C1_backup_directories_witness :
  main quiet example_fs = Some (0, example_world) ∧
  (∀ p, kind_at (backup_dir ++ p) (fs example_world) = Some KDir ↔
        kind_at (backup_dir ++ p) example_fs = Some KDir ∨ p = [] ∨
        walked example_fs p) ∧
  ((∀ p, p ≠ [] → kind_at (backup_dir ++ p) example_fs ≠ Some KDir) →
   (∀ p, unexcluded example_fs p → listable (source_dir ++ p) example_fs) →
   kind_at source_dir example_fs = Some KDir →
   ∀ p, kind_at (backup_dir ++ p) (fs example_world) = Some KDir ↔
        unexcluded example_fs p).
Proof.
  split; [vm_compute; reflexivity|].
  apply (C1_backup_directories quiet example_fs example_world).
  vm_compute. reflexivity.
Defined.

(** ** Excluded names *)

(** C2, where the code departs from the claim. The copy is aimed at the
    mirror [dest_root/file] of the source file, but [shutil.copy2] writes
    inside its target when the target is a directory. So when a readable
    source file whose name is excluded, in a directory that the walk
    visits, finds a writable directory at its mirror with no entry of its
    name, a run that exits with status 0 has created the file inside that
    directory, on a path that passes through a directory with an excluded
    name; no warning is printed for it, so it is counted as copied. *)
Theorem C2_copy_lands_inside_directory E t w d f m c dm :
  main E t = Some (0, w) →
  walked t d →
  f ∈ exclude_dirs →
  kind_at (source_dir ++ d ++ [f]) t = Some (KFile m c) →
  readable m = true →
  dmode_at (backup_dir ++ d ++ [f]) t = Some dm →
  writable dm = true →
  kind_at (backup_dir ++ d ++ [f; f]) t = None →
  kind_at (backup_dir ++ d ++ [f; f]) (fs w) = Some (KFile m c) ∧
  created t (fs w) (backup_dir ++ d ++ [f; f]) ∧
  through_excluded (fs w) (d ++ [f; f]) ∧
  ∀ e, Warning (source_dir ++ d ++ [f]) e ∉ stdout w.
Proof.
  intros Hmain Hd Hin Hf Hr Hdm Hwd Hnone.
  destruct (main_zero E t w Hmain) as (Hex & cf & cd & out & fuel & Hout & _ & HI).
  pose proof (walk_inv_sound t Hex _ _ _ _ HI) as HT.
  destruct (walk_inv_visited _ _ _ _ _ HI Hd) as [Hdir Hfiles].
  destruct (Hfiles f) as [Hset _].
  pose proof (dmode_at_kind _ _ _ Hdm) as Hdst.
  pose proof (sound_dirs_kept _ _ HT _ Hdst) as Hdst'.
  assert (can_write (backup_dir ++ d ++ [f]) (backup_dir ++ d ++ [f; f]) t)
    as Hcan.
  { right. split; [done|]. intros dm' Hdm'. congruence. }
  assert (kind_at (backup_dir ++ d ++ [f; f]) (fs w) = Some (KFile m c)) as Hk.
  { destruct (Hset m c Hf Hr) as [H|[_ [H|H]]].
    - destruct H as [H|[(? & ? & H & _)|[H _]]]; congruence.
    - eapply rests_holds; eauto.
    - exfalso. destruct (sound_dirs _ _ HT _ H) as [Ht|[Ht|Ht]].
      + congruence.
      + by destruct d.
      + assert (walked t (d ++ [f])) as Hdf.
        { apply (walked_prefix t _ (d ++ [f; f])); [done|].
          apply prefix_app. by exists [f]. }
        apply walked_dir in Hdf. congruence. }
  split_and!; [done|by split; [|rewrite Hk]| |].
  - exists d, f. split_and!; [|done|done].
    apply prefix_app. by exists [f].
  - intros e Hwarn.
    destruct (inv_warned _ _ _ _ _ HI _ _ Hwarn)
      as (d' & f' & T & Heq & _ & HT' & _ & Hu & Hcp).
    apply app_inv_head in Heq. apply app_inj_tail in Heq as [<- <-].
    destruct (copy2_inside_ok t T d f m c) as [T' HT'']; try done.
    congruence.
Qed.

Lemma C2_copy_lands_inside_directory_witness :
  main quiet clash_fs = Some (0, clash_world) ∧
  "dist" ∈ exclude_dirs ∧
  kind_at (backup_dir ++ ["dist"; "dist"]) (fs clash_world)
    = Some (KFile rw "d") ∧
  created clash_fs (fs clash_world) (backup_dir ++ ["dist"; "dist"]) ∧
  through_excluded (fs clash_world) ["dist"; "dist"] ∧
  ∀ e, Warning (source_dir ++ ["dist"]) e ∉ stdout clash_world.
Proof.
  assert ("dist" ∈ exclude_dirs) as Hin by (vm_compute; reflexivity).
  assert (walked clash_fs []) as Hw.
  { apply walked_nil. eexists. split; [vm_compute; reflexivity|done]. }
  split; [vm_compute; reflexivity|]. split; [exact Hin|].
  apply (C2_copy_lands_inside_directory quiet clash_fs clash_world
           [] "dist" rw "d" rw);
    [vm_compute; reflexivity|exact Hw|exact Hin|vm_compute; reflexivity
    |reflexivity|vm_compute; reflexivity|reflexivity|vm_compute; reflexivity].
Defined.



(** ** Copies that fail *)

Lemma summary_files_copied E out cf cd :
  FilesCopied cf ∈ header E ++ ready ++ out ++ summary cf cd.
Proof.
  do 3 (apply elem_of_app; right). unfold summary.
  do 6 apply list_elem_of_further. apply list_elem_of_here.
Qed.

Lemma summary_completed E out cf cd :
  completed ∈ header E ++ ready ++ out ++ summary cf cd.
Proof.
  do 3 (apply elem_of_app; right). unfold summary.
  do 3 apply list_elem_of_further. apply list_elem_of_here.
Qed.




(** ** The exit status *)

(** When no interrupt arrives, the source exists and no [mkdir] can raise,
    the run returns. *)
Lemma run_completes E t :
  sigint E = None → is_Some (kind_at source_dir t) → mkdir_clear t →
  ∃ w, main E t = Some (0, w).
Proof.
  intros Hint Hex Hclear.
  unfold main. pose proof (create_backup_spec E t) as H.
  destruct (create_backup E (boot t)) as [[u|[e| |c|]] w]; [by eauto| | | |done].
  - exfalso. destruct H as (_ & _ & _ & _ & _ & d & T & Hd & HT & Hmk).
    destruct (Hclear d Hd) as [Hfile Hmode].
    apply mkdir_p_inl in Hmk as [(q & r & c & Hq & Hk & _)
                                |(q & n & m & Hq & Hm & Hk & Hw & _)].
    + destruct (sound_files _ _ HT _ _ _ Hk)
        as [Hk'|(d' & f' & Hd' & Hf' & _ & Hp)].
      { by destruct (Hfile q r c). }
      assert (∃ x, q = backup_dir ++ x ∧
                   (x = d' ++ [f'] ∨ x = (d' ++ [f']) ++ [f'])) as (x & -> & Hx).
      { destruct Hp as [->| ->]; eexists; split; eauto.
        right. by rewrite <- app_assoc. }
      apply prefix_app_inv in Hq. destruct Hd as [->|Hd].
      { apply prefix_nil_inv in Hq. destruct Hx as [->| ->]; by destruct d'. }
      assert (d' ++ [f'] `prefix_of` d) as Hpre.
      { destruct Hx as [->| ->]; [done|].
        etrans; [|exact Hq]. by apply prefix_app_r. }
      by destruct (walked_not_file t d d' f' r c).
    + destruct (sound_modes _ _ HT _ _ Hm) as [Hm'|[_ ->]]; [|done].
      rewrite (Hmode q n m Hq Hm') in Hw; [done|].
      by apply (sound_kept t T).
  - destruct H as (H & _). congruence.
  - destruct H as (_ & H & _). rewrite H in Hex. by destruct Hex.
Qed.

(** A backup that is not there yet, in a directory where it can be made,
    stands in the way of no [mkdir]. *)
Lemma fresh_backup_clear t :
  kind_at backup_dir t = None → can_mkdir backup_dir t → mkdir_clear t.
Proof.
  intros Hnone [Hfile Hmode] d _.
  assert (∀ x, x ≠ [] → kind_at (backup_dir ++ x) t = None) as Hbelow.
  { intros x Hx. destruct (kind_at (backup_dir ++ x) t) eqn:Hk; [|done].
    rewrite (kind_at_prefix backup_dir (backup_dir ++ x) t) in Hnone;
      [done|by apply prefix_app_r| |by rewrite Hk].
    intros H. rewrite <- (app_nil_r backup_dir) in H at 1.
    by apply app_inv_head in H. }
  split.
  - intros q r c Hq Hk.
    apply prefix_app_cases in Hq as [Hq|(x & -> & _)]; [by eapply Hfile|].
    destruct x as [|n x]; [rewrite app_nil_r in Hk; congruence|].
    by rewrite Hbelow in Hk.
  - intros q n m Hq Hm Hk.
    apply prefix_app_cases in Hq as [Hq|(x & Hx & _)]; [by eapply Hmode|].
    pose proof (dmode_at_kind _ _ _ Hm) as Hmk.
    destruct x as [|y x _] using rev_ind.
    + rewrite app_nil_r in Hx. eapply Hmode; [|done..].
      by rewrite Hx.
    + rewrite app_assoc in Hx. apply app_inj_tail in Hx as [-> _].
      destruct x as [|z x]; [rewrite app_nil_r in Hmk; congruence|].
      by rewrite Hbelow in Hmk.
Qed.



(** C5, where the code departs from the claim: when the source path is a
    regular file, the check [source_dir.exists()] passes; without an
    interrupt, and with a backup root that is not there and can be made,
    the run creates the backup directory, walks nothing, prints the
    completion summary and exits with status 0. *)
Theorem C5_file_at_source_path E t r c :
  sigint E = None →
  kind_at source_dir t = Some (KFile r c) →
  kind_at backup_dir t = None →
  can_mkdir backup_dir t →
  ∃ w, main E t = Some (0, w) ∧
       kind_at backup_dir (fs w) = Some KDir ∧
       completed ∈ stdout w ∧ FilesCopied 0 ∈ stdout w.
Proof.
  intros Hint Hsrc Hbak Hcan.
  assert (is_Some (kind_at source_dir t)) as Hex by (by rewrite Hsrc).
  destruct (run_completes E t Hint Hex (fresh_backup_clear t Hbak Hcan))
    as [w Hmain].
  exists w. split; [done|].
  destruct (main_zero E t w Hmain) as (_ & cf & cd & out & fuel & Hout & _ & HI).
  split; [apply (inv_root _ _ _ _ _ HI)|].
  split; [rewrite Hout; apply summary_completed|].
  assert (cf = 0) as <-; [|rewrite Hout; apply summary_files_copied].
  pose proof (inv_count _ _ _ _ _ HI) as Hc.
  pose proof (inv_total _ _ _ _ _ HI) as Ht.
  cbn [fst sum_list_with] in *.
  assert (total_files t = 0); [|lia].
  unfold total_files, files_at. apply kind_at_file_stat in Hsrc.
  by rewrite Hsrc.
Qed.

Lemma C5_file_at_source_path_witness :
  sigint quiet = None ∧
  kind_at source_dir file_source_fs = Some (KFile rw "not a directory") ∧
  kind_at backup_dir file_source_fs = None ∧
  can_mkdir backup_dir file_source_fs ∧
  ∃ w, main quiet file_source_fs = Some (0, w) ∧
       kind_at backup_dir (fs w) = Some KDir ∧
       completed ∈ stdout w ∧ FilesCopied 0 ∈ stdout w.
Proof.
  assert (can_mkdir backup_dir file_source_fs) as Hcan
    by (eapply mkdir_p_can; vm_compute; reflexivity).
  split; [reflexivity|]. split; [vm_compute; reflexivity|].
  split; [vm_compute; reflexivity|]. split; [exact Hcan|].
  apply (C5_file_at_source_path quiet file_source_fs rw "not a directory");
    [reflexivity|vm_compute; reflexivity|vm_compute; reflexivity|exact Hcan].
Defined.



(** ** Running again *)







(** ** The frame *)




(** ** Files named like an excluded directory *)



(** * Further properties of the run *)

(** ** The run, step by step *)

(** A run that returns has created the backup root, walked the source from
    there and printed the summary of the two counters. *)
Lemma create_backup_returns E t u w :
  create_backup E (boot t) = (Ret u, w) →
  ∃ T0 cf cd w3,
    mkdir_p backup_dir t = inr T0 ∧
    walk_loop E (walk_fuel source_dir T0) [source_dir] (0, 0) (walk_start E T0)
      = (Ret (cf, cd), w3) ∧
    w = World (fs w3) (stdout w3 ++ summary cf cd) (calls w3).
Proof.
  unfold create_backup.
  repeat (rewrite print_bind; cbn [fs stdout calls boot app]).
  fold (header E).
  unfold Path_exists. rewrite sys_bind. cbn [fs stdout calls].
  destruct (decide (sigint E = Some (length []))) as [|Hint]; [done|].
  destruct (path_exists source_dir t); cbn [negb]; [|done].
  rewrite ret_bind.
  unfold Path_mkdir. rewrite sys_bind. cbn [fs stdout calls app].
  destruct (decide (sigint E = Some _)) as [|Hint2]; [done|].
  destruct (mkdir_p backup_dir t) as [e|T0] eqn:Hmk; [done|].
  repeat (rewrite print_bind; cbn [fs stdout calls]).
  rewrite <- !app_assoc. cbn [app]. fold ready. fold (walk_start E T0).
  unfold mbind at 1, M_bind at 1. unfold for_os_walk.
  cbn [fs walk_start]. fold (walk_start E T0).
  destruct (walk_loop E (walk_fuel source_dir T0) [source_dir] (0, 0)
              (walk_start E T0)) as [[[cf cd]|s] w3] eqn:Hloop; [|done].
  repeat (rewrite print_bind; cbn [fs stdout calls]). unfold print.
  cbn [fs stdout calls]. intros [= _ <-].
  exists T0, cf, cd, w3. split_and!; [done..|].
  f_equal. rewrite <- !app_assoc. done.
Qed.

Lemma walk_start_inv E t T0 :
  is_Some (kind_at source_dir t) → mkdir_p backup_dir t = inr T0 →
  walk_inv t (walk_fuel source_dir T0) [source_dir] (0, 0) (walk_start E T0).
Proof.
  intros Hex Hmk.
  assert (sound t T0) as HT0.
  { apply (sound_mkdir t Hex t T0 []); [by apply sound_init|by left|].
    by rewrite app_nil_r. }
  split; cbn [fs stdout calls walk_start fst sum_list_with].
  - unfold replay. cbn [foldl apply_call]. by rewrite Hmk.
  - repeat apply Forall_cons_2; try done. by left.
  - rewrite (mkdir_p_kind _ _ _ _ Hmk). by rewrite decide_True.
  - apply Forall_singleton. exists []. rewrite app_nil_r.
    split_and!; [done|apply reached_nil|done].
  - intros [|i] [|j] r r' Hi Hj _; try done; by destruct i.
  - unfold walk_fuel. rewrite (sound_source _ _ HT0). lia.
  - intros d _. left. exists source_dir. split; [by left|].
    by apply prefix_app_r.
  - intros d f _ _ Hf.
    apply (untouched_mkdir t t T0 backup_dir); [by left|done..].
  - done.
  - unfold total_files. done.
  - intros src e Hin. exfalso. unfold header, ready in Hin. cbn [app] in Hin.
    not_printed Hin.
Qed.

(** A run that exits with status 0 is a walk that returned, between the
    header and the summary; the walk prints progress lines and warnings
    only. *)
Lemma main_zero_walk E t w :
  main E t = Some (0, w) →
  is_Some (kind_at source_dir t) ∧
  ∃ T0 cf cd w3 out,
    mkdir_p backup_dir t = inr T0 ∧
    walk_loop E (walk_fuel source_dir T0) [source_dir] (0, 0) (walk_start E T0)
      = (Ret (cf, cd), w3) ∧
    stdout w3 = header E ++ ready ++ out ∧ Forall loop_line out ∧
    w = World (fs w3) (stdout w3 ++ summary cf cd) (calls w3).
Proof.
  intros Hmain. split; [by destruct (main_zero E t w Hmain)|].
  unfold main in Hmain. pose proof (create_backup_spec E t) as Hspec.
  destruct (create_backup E (boot t)) as [[u|[e| |c|]] w'] eqn:Hrun;
    try done.
  - injection Hmain as <-.
    destruct (create_backup_returns E t u w' Hrun)
      as (T0 & cf & cd & w3 & Hmk & Hloop & ->).
    destruct (walk_loop_stdout E (walk_fuel source_dir T0) [source_dir] (0, 0)
                (walk_start E T0)) as (out & Hout & Hall).
    rewrite Hloop in Hout. cbn [snd stdout walk_start] in Hout.
    exists T0, cf, cd, w3, out. split_and!; done.
  - destruct Hspec as (-> & _). done.
Qed.

(** An invariant of the turns of the walk, besides [walk_inv], holds when
    the walk returns. *)
Lemma walk_loop_with E t (J : list path → nat * nat → world → Prop) :
  is_Some (kind_at source_dir t) →
  (∀ fuel root stack counts w,
     walk_inv t (S fuel) (root :: stack) counts w → J (root :: stack) counts w →
     match walk_step E root stack counts w with
     | (Ret (stack', counts'), w') => J stack' counts' w'
     | (Stop _, _) => True
     end) →
  ∀ fuel stack counts counts' w w',
    walk_inv t fuel stack counts w → J stack counts w →
    walk_loop E fuel stack counts w = (Ret counts', w') →
    J [] counts' w' ∧ ∃ fuel', walk_inv t fuel' [] counts' w'.
Proof.
  intros Hex Hstep fuel stack counts counts' w w' HI HJ Hloop.
  pose proof (walk_loop_rule E
    (λ fuel stack counts w, walk_inv t fuel stack counts w ∧ J stack counts w)
    (λ _ _, True)) as Hrule.
  cbv beta in Hrule. specialize (Hrule) with (3 := conj HI HJ).
  rewrite Hloop in Hrule. destruct Hrule as (fuel' & HI' & HJ'); [| |eauto].
  - intros fuel0 root stack0 counts0 w0 [HI0 HJ0].
    pose proof (walk_inv_step E t Hex _ _ _ _ _ HI0) as H1.
    specialize (Hstep _ _ _ _ _ HI0 HJ0).
    by destruct (walk_step E root stack0 counts0 w0) as [[[??]|?] ?].
  - done.
Qed.

(** The two counters of the summary are printed once. *)
Lemma summary_counters E out cf cd o :
  Forall loop_line out →
  o ∈ (header E ++ ready ++ out) ++ summary cf cd →
  (∀ n, o = FilesCopied n → n = cf) ∧ (∀ n, o = DirsCreated n → n = cd).
Proof.
  intros Hall Hin.
  split; intros n ->.
  - apply elem_of_app in Hin as [Hin|Hin].
    + apply elem_of_app in Hin as [Hin|Hin]; [not_printed Hin|].
      apply elem_of_app in Hin as [Hin|Hin]; [not_printed Hin|].
      rewrite Forall_forall in Hall. by apply Hall in Hin.
    + unfold summary in Hin.
      repeat (apply elem_of_cons in Hin as [Hin|Hin]; [by simplify_eq|]).
      by apply elem_of_nil in Hin.
  - apply elem_of_app in Hin as [Hin|Hin].
    + apply elem_of_app in Hin as [Hin|Hin]; [not_printed Hin|].
      apply elem_of_app in Hin as [Hin|Hin]; [not_printed Hin|].
      rewrite Forall_forall in Hall. by apply Hall in Hin.
    + unfold summary in Hin.
      repeat (apply elem_of_cons in Hin as [Hin|Hin]; [by simplify_eq|]).
      by apply elem_of_nil in Hin.
Qed.

(** ** A source that is not there *)



(** ** Directories that cannot be created *)

Lemma mkdir_p_exn p t e :
  mkdir_p p t = inl e →
  e = FileExistsError ∨ e = NotADirectoryError ∨ e = PermissionError.
Proof.
  intros [(_ & _ & _ & _ & _ & [->| ->])|(_ & _ & _ & _ & _ & _ & _ & ->)]%mkdir_p_inl;
    auto.
Qed.

(** X2. Creating a directory is not protected like a copy: when the backup
    root, or the mirror of a source directory that the walk visits, is not
    there and cannot be made, because a regular file stands on the path or
    because the directory in which the path leaves what is there is not
    writable, and no interrupt arrives, the run does not complete: the
    exception of [mkdir] escapes [create_backup], the process prints the
    failure line last, never the completion line, and exits with status
    1. *)
Theorem blocked_directory_aborts E t d :
  sigint E = None →
  is_Some (kind_at source_dir t) →
  d = [] ∨ walked t d →
  ¬ can_mkdir (backup_dir ++ d) t →
  ∃ w e, main E t = Some (1, w) ∧
         (e = FileExistsError ∨ e = NotADirectoryError ∨ e = PermissionError) ∧
         last (stdout w) = Some (BackupFailed e) ∧
         completed ∉ stdout w.
Proof.
  intros Hint Hex Hd Hblocked. unfold main.
  pose proof (create_backup_spec E t) as H.
  destruct (create_backup E (boot t)) as [[u|[e| |code|]] w]; [| | | |done].
  - exfalso. destruct H as (_ & cf & cd & out & fuel & _ & _ & HI).
    pose proof (walk_inv_sound t Hex _ _ _ _ HI) as HT.
    assert (kind_at (backup_dir ++ d) (fs w) = Some KDir) as Hdir.
    { destruct Hd as [->|Hd].
      - rewrite app_nil_r. apply (inv_root _ _ _ _ _ HI).
      - by destruct (walk_inv_visited _ _ _ _ _ HI Hd). }
    assert (∀ q, q `prefix_of` backup_dir ++ d → kind_at q (fs w) = Some KDir)
      as Hpre.
    { intros q Hq. destruct (decide (q = backup_dir ++ d)) as [->|Hne]; [done|].
      apply (kind_at_prefix q (backup_dir ++ d)); [done..|by rewrite Hdir]. }
    destruct (mkdir_p (backup_dir ++ d) t) as [e|T'] eqn:Hmk.
    2:{ apply Hblocked. by eapply mkdir_p_can. }
    apply mkdir_p_inl in Hmk as [(q & r & c & Hq & Hk & _)
                                |(q & n & m & Hq & Hm & Hk & Hw & _)].
    + destruct (sound_files_kept _ _ HT _ _ _ Hk) as (r' & c' & Hk').
      rewrite (Hpre q Hq) in Hk'. done.
    + rewrite (sound_made _ _ HT q n m) in Hw; [done..|].
      by rewrite (Hpre _ Hq).
  - destruct H as (_ & _ & _ & _ & Hrun & d' & T & _ & _ & Hmk).
    eexists _, e. split; [done|]. cbn [stdout]. split_and!.
    + by apply mkdir_p_exn in Hmk.
    + by rewrite last_snoc.
    + intros [Hin|Hin]%elem_of_app.
      * by apply running_not_completed in Hin.
      * unfold completed in Hin. not_printed Hin.
  - destruct H as (H & _). congruence.
  - destruct H as (_ & Hnone & _). rewrite Hnone in Hex. by destruct Hex.
Qed.

(** In a home directory that is not writable the backup root cannot be
    made. *)
Lemma blocked_directory_aborts_witness :
  sigint quiet = None ∧
  is_Some (kind_at source_dir unwritable_home_fs) ∧
  ¬ can_mkdir (backup_dir ++ []) unwritable_home_fs ∧
  ∃ w e, main quiet unwritable_home_fs = Some (1, w) ∧
         (e = FileExistsError ∨ e = NotADirectoryError ∨ e = PermissionError) ∧
         last (stdout w) = Some (BackupFailed e) ∧
         completed ∉ stdout w.
Proof.
  assert (¬ can_mkdir (backup_dir ++ []) unwritable_home_fs) as Hb.
  { intros [_ Hm].
    specialize (Hm ["home"; "van"] "Reward Project backup" read_only).
    discriminate Hm; [by exists []|vm_compute; reflexivity..]. }
  assert (is_Some (kind_at source_dir unwritable_home_fs)) as Hex
    by (vm_compute; eauto).
  split; [reflexivity|]. split; [exact Hex|]. split; [exact Hb|].
  apply (blocked_directory_aborts quiet unwritable_home_fs []);
    [reflexivity|exact Hex|by left|exact Hb].
Defined.

(** ** What was in the backup *)



(** X4. A source file that cannot be read costs the backup nothing:
    whatever the outcome of the run, the path that mirrors it in the backup
    is exactly as it was before the run; an older copy of the file stays,
    with its content. *)
Theorem unreadable_file_keeps_old_backup E t code w d f r c :
  main E t = Some (code, w) →
  kind_at (source_dir ++ d ++ [f]) t = Some (KFile r c) →
  readable r = false →
  kind_at (backup_dir ++ d ++ [f]) (fs w) = kind_at (backup_dir ++ d ++ [f]) t.
Proof.
  intros Hmain Hf Hr. destruct (main_sound E t code w Hmain) as (HT & _ & _).
  destruct (kind_at (backup_dir ++ d ++ [f]) (fs w)) as [[r' c'|]|] eqn:Hk.
  - destruct (sound_files _ _ HT _ _ _ Hk)
      as [Ht|(d' & f' & Hd' & Hf' & Hr' & [Hp|Hp])]; [done| |].
    + apply mirror_inj in Hp as [-> ->]. congruence.
    + apply mirror_inj2 in Hp as [-> ->].
      by destruct (source_file_no_child t _ _ f' _ _ (KFile r c) Hf').
  - destruct (sound_dirs _ _ HT _ Hk) as [Ht|[Hnil|Hw]].
    + done.
    + by destruct d.
    + apply walked_dir in Hw. congruence.
  - symmetry. by apply (sound_kept t (fs w)).
Qed.

Lemma unreadable_file_keeps_old_backup_witness :
  main quiet locked_fs = Some (0, locked_world) ∧
  kind_at (source_dir ++ [] ++ ["k"]) locked_fs = Some (KFile no_access "new") ∧
  kind_at (backup_dir ++ [] ++ ["k"]) locked_fs = Some (KFile rw "old") ∧
  kind_at (backup_dir ++ [] ++ ["k"]) (fs locked_world)
    = kind_at (backup_dir ++ [] ++ ["k"]) locked_fs.
Proof.
  split; [vm_compute; reflexivity|]. split; [vm_compute; reflexivity|].
  split; [vm_compute; reflexivity|].
  apply (unreadable_file_keeps_old_backup quiet locked_fs 0 locked_world
           [] "k" no_access "new"); vm_compute; reflexivity.
Defined.



(** ** Excluded directories *)



(** ** Directories that the walk does not visit *)




(** ** The backup of a source that had none *)

Lemma visits_file r c p : ¬ visits (File r c) p.
Proof.
  intros [_ Hl]. destruct (Hl []) as (m & Hm & _); [apply prefix_nil|done].
Qed.

Lemma visits_nil m es : visits (Dir m es) [] ↔ readable m = true.
Proof.
  split.
  - intros [_ Hl]. destruct (Hl []) as (m' & Hm & Hr); [done|].
    by injection Hm as <-.
  - intros Hr. split; [apply Forall_nil_2|].
    intros p' ->%prefix_nil_inv. by exists m.
Qed.

Lemma visits_cons m es n p :
  visits (Dir m es) (n :: p) ↔
  readable m = true ∧ (n ∉ exclude_dirs) ∧ ∃ c, es !! n = Some c ∧ visits c p.
Proof.
  unfold visits, unpruned, listable. rewrite Forall_cons. split.
  - intros [[Hn Hu] Hl].
    destruct (Hl []) as (m' & Hm & Hr); [apply prefix_nil|].
    injection Hm as <-.
    destruct (Hl [n]) as (m1 & Hm1 & _); [apply prefix_cons, prefix_nil|].
    rewrite dmode_at_cons in Hm1.
    destruct (es !! n) as [c|] eqn:Hc; [|done].
    split_and!; [done..|]. exists c. split_and!; [done..|].
    intros p' Hp'. specialize (Hl (n :: p') (prefix_cons n _ _ Hp')).
    by rewrite dmode_at_cons, Hc in Hl.
  - intros (Hr & Hn & c & Hc & Hu & Hl). split; [done|].
    intros [|x p'] Hp'; [by exists m|].
    pose proof (prefix_cons_inv_1 _ _ _ _ Hp') as ->.
    apply prefix_cons_inv_2 in Hp'. rewrite dmode_at_cons, Hc. by apply Hl.
Qed.

(** The directories the walk visits in a filesystem are those it visits
    from the source root. *)
Lemma walked_visits t s d : stat source_dir t = Some s → walked t d ↔ visits s d.
Proof.
  intros Hs. unfold walked, visits, listable, dmode_at.
  assert (∀ d', stat (source_dir ++ d') t = stat d' s) as H
    by (intros d'; by rewrite stat_app, Hs).
  by setoid_rewrite H.
Qed.

Lemma pruned_dir m es :
  ∃ es', pruned (Dir m es) = Dir rw es' ∧
         ∀ n, es' !! n = if readable m then es !! n ≫= kept n else None.
Proof.
  cbn [pruned]. eexists. split; [done|].
  destruct (readable m); [|intros n; apply lookup_empty].
  apply (map_fold_weak_ind (λ (r : gmap string node) m, ∀ n, r !! n = m !! n ≫= kept n)).
  - intros n. by rewrite !lookup_empty.
  - intros i x m0 r Hi IH n. destruct (decide (n = i)) as [->|Hne].
    + rewrite lookup_insert_eq. cbn [mbind option_bind].
      destruct x as [r0 c|m' es2]; cbn [kept].
      * destruct (readable r0); [by rewrite lookup_insert_eq|by rewrite IH, Hi].
      * destruct (decide (i ∈ exclude_dirs)); [by rewrite IH, Hi|].
        destruct (readable m'); [by rewrite lookup_insert_eq|by rewrite IH, Hi].
    + rewrite (lookup_insert_ne m0) by done. rewrite <- IH.
      destruct x as [r0 c|m' es2];
        [destruct (readable r0)
        |destruct (decide (i ∈ exclude_dirs)); [|destruct (readable m')]];
        by rewrite ?lookup_insert_ne.
Qed.

(** The directories of [pruned s]: its root, and the directories that the
    walk visits from [s]. *)
Lemma kind_at_pruned_dir p s :
  kind_at p (pruned s) = Some KDir ↔
  (p = [] ∧ kind_at [] s = Some KDir) ∨ visits s p.
Proof.
  revert s. induction p as [|n p IH]; intros s.
  - destruct s as [r c|m es].
    + split; [done|]. intros [[_ ?]|?%visits_file]; done.
    + split; [by left|done].
  - destruct s as [r c|m es].
    { split; [done|]. intros [[? _]|?%visits_file]; done. }
    destruct (pruned_dir m es) as (es' & -> & Hes').
    rewrite kind_at_cons, Hes', visits_cons.
    destruct (readable m) eqn:Hr.
    2:{ split; [done|]. intros [[? _]|(? & _)]; done. }
    destruct (es !! n) as [[r0 c0|m' es2]|] eqn:Hn; cbn [mbind option_bind kept].
    + split.
      * destruct (readable r0); [by destruct p|done].
      * intros [[? _]|(_ & _ & c & [= <-] & ?%visits_file)]; done.
    + destruct (decide (n ∈ exclude_dirs)) as [Hin|Hin].
      { split; [done|]. intros [[? _]|(_ & ? & _)]; done. }
      destruct (readable m') eqn:Hr'; cbn [mbind option_bind].
      * rewrite IH. split.
        -- intros [[-> _]|Hv]; right; split_and!; try done;
             eexists; (split; [done|]); [by apply visits_nil|done].
        -- intros [[? _]|(_ & _ & c & [= <-] & Hv)]; [done|]. by right.
      * split; [done|].
        intros [[? _]|(_ & _ & c & [= <-] & [_ Hl])]; [done|].
        destruct (Hl []) as (m1 & [= <-] & ?); [apply prefix_nil|]. congruence.
    + split; [done|]. intros [[? _]|(_ & _ & c & ? & _)]; done.
Qed.

(** Its files: the readable files of the directories that the walk
    visits. *)
Lemma kind_at_pruned_file d f s r c :
  kind_at (d ++ [f]) (pruned s) = Some (KFile r c) ↔
  kind_at (d ++ [f]) s = Some (KFile r c) ∧ readable r = true ∧ visits s d.
Proof.
  revert s. induction d as [|n d IH]; intros s.
  - destruct s as [r' c'|m es].
    { split; [done|]. by intros (? & _). }
    destruct (pruned_dir m es) as (es' & -> & Hes').
    cbn [app]. rewrite !kind_at_cons, Hes', visits_nil.
    destruct (readable m) eqn:Hr.
    2:{ split; [done|]. by intros (_ & _ & ?). }
    destruct (es !! f) as [[r0 c0|m' es2]|]; cbn [mbind option_bind kept].
    + destruct (readable r0) eqn:Hr0; cbn.
      * split; [|by intros []]. intros [= <- <-]. done.
      * split; [done|]. intros ([= <- <-] & ? & _). congruence.
    + destruct (decide (f ∈ exclude_dirs)); cbn [mbind option_bind];
        [split; [done|by intros []]|].
      destruct (readable m'); cbn [mbind option_bind];
        [|split; [done|by intros []]].
      destruct (pruned_dir m' es2) as (es3 & -> & _).
      split; [done|by intros []].
    + split; [done|by intros []].
  - destruct s as [r' c'|m es].
    { split; [done|]. by intros (? & _). }
    destruct (pruned_dir m es) as (es' & -> & Hes').
    cbn [app]. rewrite !kind_at_cons, Hes', visits_cons.
    destruct (readable m) eqn:Hr.
    2:{ split; [done|]. by intros (_ & _ & ? & _). }
    destruct (es !! n) as [[r0 c0|m' es2]|] eqn:Hn; cbn [mbind option_bind kept].
    + split.
      * destruct (readable r0); [by destruct d|done].
      * intros (_ & _ & _ & _ & c1 & [= <-] & ?%visits_file). done.
    + destruct (decide (n ∈ exclude_dirs)) as [Hin|Hin].
      { split; [done|]. by intros (_ & _ & _ & ? & _). }
      destruct (readable m') eqn:Hr'; cbn [mbind option_bind].
      * rewrite IH. split.
        -- intros (? & ? & ?). split_and!; try done. by eexists.
        -- intros (? & ? & _ & _ & c1 & [= <-] & ?). done.
      * split; [done|].
        intros (_ & _ & _ & _ & c1 & [= <-] & [_ Hl]).
        destruct (Hl []) as (m1 & [= <-] & ?); [apply prefix_nil|]. congruence.
    + split; [done|]. by intros (? & _).
Qed.

(** Its directories all have the mode of a directory made by [mkdir]. *)
Lemma dmode_at_pruned p s m : dmode_at p (pruned s) = Some m → m = rw.
Proof.
  revert s. induction p as [|n p IH]; intros s.
  - destruct s as [r c|m' es]; [done|]. by intros [= <-].
  - destruct s as [r c|m' es]; [done|].
    destruct (pruned_dir m' es) as (es' & -> & Hes').
    rewrite dmode_at_cons, Hes'. destruct (readable m'); [|done].
    destruct (es !! n) as [[r0 c0|m1 es2]|]; cbn [mbind option_bind kept];
      [| |done].
    + destruct (readable r0); [|done]. by destruct p.
    + destruct (decide (n ∈ exclude_dirs)); [done|].
      destruct (readable m1); [|done]. apply IH.
Qed.

(** Two trees with the same kind and the same mode of directory at every
    path are equal. *)
Lemma node_size_child m es n c :
  es !! n = Some c → node_size c < node_size (Dir m es).
Proof.
  intros Hn. rewrite node_size_dir. apply Nat.lt_succ_r.
  apply (sum_list_with_in (n, c) (λ ne, node_size ne.2)).
  by apply elem_of_map_to_list.
Qed.

Lemma node_ext a b :
  (∀ p, kind_at p a = kind_at p b) → (∀ p, dmode_at p a = dmode_at p b) → a = b.
Proof.
  assert (∀ k a, node_size a < k → ∀ b, (∀ p, kind_at p a = kind_at p b) →
            (∀ p, dmode_at p a = dmode_at p b) → a = b)
    as Hind; [|apply (Hind (S (node_size a))); lia].
  clear a b. induction k as [|k IH]; intros a Hk b H Hm; [lia|].
  destruct a as [r c|m es], b as [r' c'|m' es']; try (by specialize (H [])).
  - specialize (H []). by simplify_eq/=.
  - specialize (Hm []) as Hm0. injection Hm0 as <-.
    f_equal. apply map_eq. intros n.
    pose proof (H [n]) as Hn. rewrite !kind_at_cons in Hn.
    destruct (es !! n) as [x|] eqn:Hx, (es' !! n) as [y|] eqn:Hy; try done.
    f_equal. apply IH.
    + apply (node_size_child m) in Hx. lia.
    + intros p. specialize (H (n :: p)). by rewrite !kind_at_cons, Hx, Hy in H.
    + intros p. specialize (Hm (n :: p)). by rewrite !dmode_at_cons, Hx, Hy in Hm.
Qed.

(** Nothing is below a path that is not there. *)
Lemma kind_at_below_None q x t : kind_at q t = None → kind_at (q ++ x) t = None.
Proof.
  intros Hq. destruct (kind_at (q ++ x) t) eqn:Hk; [|done].
  destruct x as [|n x]; [rewrite app_nil_r in Hk; congruence|].
  rewrite (kind_at_prefix q (q ++ n :: x) t) in Hq;
    [done|by apply prefix_app_r| |by rewrite Hk].
  intros H. apply (f_equal length) in H. rewrite length_app in H.
  simpl in H. lia.
Qed.

(** Where there is no backup yet, every copy can be written. *)
Lemma no_backup_can_write t d f :
  kind_at backup_dir t = None →
  can_write (backup_dir ++ d) (backup_dir ++ d ++ [f]) t.
Proof.
  intros Hnone. right. split; [by apply kind_at_below_None|].
  intros dm Hdm%dmode_at_kind. by rewrite kind_at_below_None in Hdm.
Qed.

(** X6. When the backup directory does not exist before the run and the
    source is a directory, a run that exits with status 0 leaves as backup
    exactly the part of the source tree that the walk visits, readable
    files only: the sub-directories whose name is in [exclude_dirs], at any
    depth, and those that cannot be listed are left out with all they
    hold, and so are the unreadable files; every other directory is there,
    made anew, every other file is there with its name, mode and content,
    and nothing else is. *)
Theorem fresh_backup_is_pruned_source E t w :
  main E t = Some (0, w) →
  kind_at backup_dir t = None →
  kind_at source_dir t = Some KDir →
  stat backup_dir (fs w) = pruned <$> stat source_dir t.
Proof.
  intros Hmain Hfresh Hsrc.
  destruct (main_zero E t w Hmain) as (Hex & cf & cd & out & fuel & _ & _ & HI).
  pose proof (walk_inv_sound t Hex _ _ _ _ HI) as HT.
  apply kind_at_dir_stat in Hsrc as (sm & es & Hes). rewrite Hes.
  cbn [fmap option_fmap option_map].
  pose proof (inv_root _ _ _ _ _ HI) as Hroot.
  apply kind_at_dir_stat in Hroot as (bm & bk & Hbk). rewrite Hbk. f_equal.
  assert (∀ p, kind_at (backup_dir ++ p) t = None) as F0
    by (intros p; by apply kind_at_below_None).
  assert (∀ p, kind_at p (Dir bm bk) = kind_at (backup_dir ++ p) (fs w)) as F1.
  { intros p. unfold kind_at. by rewrite stat_app, Hbk. }
  assert (∀ p, dmode_at p (Dir bm bk) = dmode_at (backup_dir ++ p) (fs w)) as F1'.
  { intros p. unfold dmode_at. by rewrite stat_app, Hbk. }
  assert (∀ p, kind_at p (Dir sm es) = kind_at (source_dir ++ p) t) as F2.
  { intros p. unfold kind_at. by rewrite stat_app, Hes. }
  assert (∀ p, walked t p ↔ visits (Dir sm es) p) as Fw
    by (intros p; by apply walked_visits).
  assert (∀ p, kind_at p (Dir bm bk) = kind_at p (pruned (Dir sm es))) as Hkinds.
  { intros p. rewrite F1.
    destruct (kind_at (backup_dir ++ p) (fs w)) as [[r c|]|] eqn:Hk.
    - symmetry.
      destruct (sound_files _ _ HT _ _ _ Hk)
        as [Ht|(d & f & Hd & Hf & Hr & [Hp|Hp])]; [by rewrite F0 in Ht| |].
      + apply app_inv_head in Hp as ->. apply kind_at_pruned_file.
        rewrite F2. split_and!; [done..|]. by apply Fw.
      + exfalso.
        assert (kind_at (backup_dir ++ d ++ [f]) (fs w) = Some KDir) as Hdir.
        { apply (kind_at_prefix _ (backup_dir ++ p)); [| |by rewrite Hk].
          - rewrite Hp. apply prefix_app, prefix_app.
            apply prefix_cons, prefix_nil.
          - rewrite Hp. intros H%app_inv_head%app_inv_head. done. }
        destruct (sound_dirs _ _ HT _ Hdir) as [Ht|[Hnil|Hw]].
        * by rewrite F0 in Ht.
        * by destruct d.
        * apply walked_dir in Hw. congruence.
    - symmetry. apply kind_at_pruned_dir.
      destruct (sound_dirs _ _ HT _ Hk) as [Ht|[->|Hw]];
        [by rewrite F0 in Ht|by left|].
      right. by apply Fw.
    - destruct (kind_at p (pruned (Dir sm es))) as [[r c|]|] eqn:Hp; [| |done];
        exfalso.
      + destruct p as [|f d _] using rev_ind.
        { destruct (pruned_dir sm es) as (es' & Heq & _). by rewrite Heq in Hp. }
        apply kind_at_pruned_file in Hp as (Hf & Hr & Hd%Fw). rewrite F2 in Hf.
        destruct (walk_inv_visited _ _ _ _ _ HI Hd) as [_ Hfiles].
        destruct (Hfiles f) as [Hset _].
        rewrite (settled_holds t (fs w) d f r c) in Hk; try done.
        by apply no_backup_can_write.
      + apply kind_at_pruned_dir in Hp as [[-> _]|Hp%Fw].
        * rewrite app_nil_r, (inv_root _ _ _ _ _ HI) in Hk. done.
        * destruct (walk_inv_visited _ _ _ _ _ HI Hp). congruence. }
  apply node_ext; [done|]. intros p.
  destruct (dmode_at p (Dir bm bk)) as [m1|] eqn:H1,
    (dmode_at p (pruned (Dir sm es))) as [m2|] eqn:H2; [| | |done].
  - apply dmode_at_pruned in H2 as ->. rewrite F1' in H1.
    destruct (sound_modes _ _ HT _ _ H1) as [Ht|[_ ->]]; [|done].
    apply dmode_at_kind in Ht. by rewrite F0 in Ht.
  - apply dmode_at_kind in H1. rewrite Hkinds in H1.
    apply kind_at_dmode in H1 as [? ?]. congruence.
  - apply dmode_at_kind in H2. rewrite <- Hkinds in H2.
    apply kind_at_dmode in H2 as [? ?]. congruence.
Qed.

Lemma fresh_backup_is_pruned_source_witness :
  main quiet example_fs = Some (0, example_world) ∧
  kind_at backup_dir example_fs = None ∧
  kind_at source_dir example_fs = Some KDir ∧
  stat backup_dir (fs example_world) = pruned <$> stat source_dir example_fs ∧
  pruned <$> stat source_dir example_fs = Some example_backup.
Proof.
  split; [vm_compute; reflexivity|]. split; [vm_compute; reflexivity|].
  split; [vm_compute; reflexivity|]. split; [|vm_compute; reflexivity].
  apply (fresh_backup_is_pruned_source quiet example_fs example_world);
    vm_compute; reflexivity.
Defined.

(** ** The backup after the run, path by path *)







(** ** The counter of directories *)

Lemma dirs_from_dir m es :
  dirs_from (Dir m es) =
  if readable m then
    S (sum_list_with (λ ne : string * node,
         match ne.2 with
         | File _ _ => 0
         | Dir _ _ => if decide (ne.1 ∈ exclude_dirs) then 0 else dirs_from ne.2
         end) (map_to_list es))
  else 0.
Proof.
  cbn [dirs_from]. destruct (readable m); [|done]. f_equal.
  rewrite map_fold_foldr.
  induction (map_to_list es) as [|[n c] l IH]; simpl; [done|]. by rewrite IH.
Qed.

Lemma dirs_split (es : gmap string node) (l : list (string * node)) :
  Forall (λ ne, es !! ne.1 = Some ne.2) l →
  sum_list_with (λ ne : string * node,
    match ne.2 with
    | File _ _ => 0
    | Dir _ _ => if decide (ne.1 ∈ exclude_dirs) then 0 else dirs_from ne.2
    end) l =
  sum_list_with (λ n, from_option dirs_from 0 (es !! n))
    (filter (λ n, n ∉ exclude_dirs)
       (filter (λ ne : string * node, is_dir_node ne.2) l).*1).
Proof.
  induction 1 as [|[n c] l Hn _ IH]; [done|]. simpl in Hn.
  rewrite !filter_cons. destruct c as [r c|m' es']; cbn -[dirs_from].
  - rewrite decide_False by (by intros []). by rewrite IH.
  - rewrite (decide_True (P:=True)) by done.
    cbn -[dirs_from].
    destruct (decide (n ∈ exclude_dirs)) as [Hin|Hin].
    + rewrite decide_False by (by intros H; apply H). by rewrite IH.
    + rewrite decide_True by done. cbn -[dirs_from]. rewrite Hn.
      cbn -[dirs_from]. by rewrite IH.
Qed.

Lemma dirs_at_step p T dirs files :
  scandir p T = Some (dirs, files) →
  dirs_at p T =
  S (sum_list_with (λ n, dirs_at (p ++ [n]) T)
       (filter (λ n, n ∉ exclude_dirs) dirs)).
Proof.
  intros (m & es & Hes & Hr & -> & ->)%scandir_Some.
  unfold dirs_at at 1. rewrite Hes. cbn [from_option].
  rewrite dirs_from_dir, Hr, (dirs_split es) by apply map_to_list_lookups.
  f_equal. apply sum_list_with_eq.
  intros n. unfold dirs_at. by rewrite stat_snoc, Hes.
Qed.

Lemma dirs_at_not_dir p T : scandir p T = None → dirs_at p T = 0.
Proof.
  unfold scandir, dirs_at. destruct (stat p T) as [[|m es]|]; try done.
  cbn. by destruct (readable m).
Qed.

Lemma count_inv_step E t fuel root stack counts w :
  is_Some (kind_at source_dir t) →
  walk_inv t (S fuel) (root :: stack) counts w →
  count_inv t (root :: stack) counts →
  match walk_step E root stack counts w with
  | (Ret (stack', counts'), w') => count_inv t stack' counts'
  | (Stop _, _) => True
  end.
Proof.
  unfold count_inv. intros Hex HI Hsum.
  pose proof (walk_inv_sound t Hex _ _ _ _ HI) as HT.
  destruct counts as [cf cd].
  pose proof (inv_stack _ _ _ _ _ HI) as Hst.
  apply Forall_cons in Hst as [(d & -> & Hd & _) _].
  cbn [sum_list_with snd] in Hsum.
  pose proof (walk_step_spec E d stack cf cd w) as Hspec. cbv zeta in Hspec.
  assert (scandir (source_dir ++ d) t = scandir (source_dir ++ d) (fs w))
    as Hscan_t by (apply scandir_stat_eq; symmetry; by apply source_stat_sound).
  destruct (walk_step E (source_dir ++ d) stack (cf, cd) w)
    as [[[stack' [cf' cd']]|s] w']; [|done].
  destruct (scandir (source_dir ++ d) (fs w)) as [[dirs files]|] eqn:Hscan.
  - destruct Hspec as (T1 & _ & -> & -> & _).
    cbn [snd]. rewrite sum_list_with_app, sum_list_with_fmap.
    rewrite (sum_list_with_eq _ (λ n, dirs_at ((source_dir ++ d) ++ [n]) t)).
    2:{ intros n. unfold compose, dirs_to_count.
        rewrite decide_False; [lia|].
        intros H%(f_equal length). rewrite !length_app in H. simpl in H. lia. }
    pose proof (dirs_at_step _ _ _ _ Hscan_t) as Hstep.
    unfold dirs_to_count in Hsum at 1.
    destruct (decide (d = [])) as [->|Hne].
    + rewrite app_nil_r in *. rewrite decide_True in Hsum by done. lia.
    + rewrite decide_False in Hsum; [lia|].
      intros H. apply Hne. rewrite <- (app_nil_r source_dir) in H at 2.
      by apply app_inv_head in H.
  - destruct Hspec as (-> & _ & -> & _). cbn [snd].
    unfold dirs_to_count in Hsum at 1.
    rewrite dirs_at_not_dir in Hsum by done. lia.
Qed.

Lemma count_inv_start t : count_inv t [source_dir] (0, 0).
Proof.
  unfold count_inv. cbn [snd sum_list_with]. unfold dirs_to_count.
  rewrite decide_True by done. unfold total_dirs. lia.
Qed.

(** X8. The number of directories reported at the end of a run that exits
    with status 0 is the number of directories of the source, below its
    root, that the walk visits: the non-excluded directories that can be
    listed and are reached through directories that can be listed. The loop
    counts the directories it visits, whether they had to be created in the
    backup or were already there. *)
Theorem directories_counted E t w :
  main E t = Some (0, w) →
  DirsCreated (total_dirs t) ∈ stdout w ∧
  ∀ n, DirsCreated n ∈ stdout w → n = total_dirs t.
Proof.
  intros Hmain.
  destruct (main_zero_walk E t w Hmain)
    as (Hex & T0 & cf & cd & w3 & out & Hmk & Hloop & Hout & Hall & ->).
  assert (count_inv t [] (cf, cd)) as Hsum.
  { refine (proj1 (walk_loop_with E t (λ stack counts _, count_inv t stack counts)
                     Hex _ _ _ _ _ _ _ (walk_start_inv E t T0 Hex Hmk) _ Hloop)).
    - intros. by eapply count_inv_step.
    - apply count_inv_start. }
  unfold count_inv in Hsum.
  cbn [snd sum_list_with] in Hsum. rewrite Nat.add_0_r in Hsum. subst cd.
  cbn [stdout]. split.
  - apply elem_of_app. right. unfold summary.
    do 7 apply list_elem_of_further. apply list_elem_of_here.
  - intros n Hin. rewrite Hout in Hin.
    by apply (summary_counters E out cf (total_dirs t) _ Hall Hin).
Qed.

(** On the source whose directory [secret] cannot be listed the run
    reports no directory. *)
Lemma directories_counted_witness :
  main quiet unlistable_fs = Some (0, unlistable_world) ∧
  DirsCreated 0 ∈ stdout unlistable_world.
Proof.
  split; [vm_compute; reflexivity|].
  apply (directories_counted quiet unlistable_fs unlistable_world).
  vm_compute. reflexivity.
Defined.

(** ** The counter of files *)






Lemma copy_files_cons E root dest f files n w :
  copy_files E root dest (f :: files) n w =
  match copy_file E root dest f n w with
  | (Ret n', w') => copy_files E root dest files n' w'
  | (Stop s, w') => (Stop s, w')
  end.
Proof. done. Qed.






(** ** The warnings *)

(** A copy that cannot but fail raises the permission error, in every
    filesystem that the run reaches. *)
Lemma doomed_copy_raises t T d f :
  sound t T → source_file t d f → doomed t d f →
  copy2 (source_dir ++ d ++ [f]) (backup_dir ++ d ++ [f]) T = inl PermissionError.
Proof.
  intros HT (r & c & Hf) Hdoomed.
  rewrite copy2_mirror_eq, (source_stat_sound t T) by done.
  rewrite (proj1 (kind_at_file_stat _ _ _ _) Hf).
  destruct (readable r) eqn:Hr; [|done].
  destruct Hdoomed as [(m & c' & Hf' & Hr')|[(m & c' & Hk & Hw)|(Hk & dm & Hdm & Hw)]].
  - congruence.
  - pose proof (sound_read_only _ _ HT _ _ _ Hk Hw) as HkT.
    rewrite (proj2 (isdir_false _ _)) by (by rewrite HkT).
    assert (kind_at (backup_dir ++ d) T = Some KDir) as Hdir.
    { apply (kind_at_prefix _ (backup_dir ++ d ++ [f])); [| |by rewrite HkT].
      - apply prefix_app. by apply prefix_app_r.
      - intros H%app_inv_head. apply (f_equal length) in H.
        rewrite length_app in H. simpl in H. lia. }
    pose proof (write_file_cases (backup_dir ++ d) f (File r c) T Hdir) as Hc.
    rewrite mirror_app, HkT, Hw in Hc. done.
  - assert (kind_at (backup_dir ++ d ++ [f]) T = None) as HkT.
    { destruct (kind_at (backup_dir ++ d ++ [f]) T) eqn:HkT; [|done].
      rewrite <- mirror_app in Hk, HkT.
      rewrite (sound_made _ _ HT _ _ _ Hdm Hk) in Hw; [done|by rewrite HkT]. }
    rewrite (proj2 (isdir_false _ _)) by (by rewrite HkT).
    pose proof (sound_dmode t T _ _ HT Hdm) as HdmT.
    pose proof (write_file_cases (backup_dir ++ d) f (File r c) T
                  (dmode_at_kind _ _ _ HdmT)) as Hc.
    rewrite mirror_app, HkT in Hc. destruct Hc as (dm' & Hdm' & Hc).
    assert (dm' = dm) as -> by congruence. by rewrite Hw in Hc.
Qed.

Lemma copy_files_warned E t d files n w :
  sound t (fs w) → walked t d →
  (∀ f, f ∈ files → source_file t d f) →
  warned_when_called t w →
  warned_when_called t
    (copy_files E (source_dir ++ d) (backup_dir ++ d) files n w).2.
Proof.
  revert n w. induction files as [|f files IH]; intros n w HT Hd Hfiles Hw;
    [done|].
  rewrite copy_files_cons, copy_file_eq.
  destruct (decide _); [done|].
  assert (∀ g, g ∈ files → source_file t d g) as Hfiles'
    by (intros g Hg; apply Hfiles; by right).
  pose proof (Hfiles f ltac:(left)) as Hf.
  rewrite copy_call_mirror. rewrite <- !(app_assoc _ d [f]).
  destruct (copy2 _ _ (fs w)) as [e|T'] eqn:Hcp.
  - apply IH; try done. intros d' f' Hdoomed Hin. cbn [stdout calls] in *.
    apply elem_of_app. apply elem_of_app in Hin as [Hin|Hin]; [left; eauto|].
    right. apply list_elem_of_singleton in Hin. injection Hin as Hs _.
    apply app_inj_tail in Hs as [-> ->].
    rewrite (doomed_copy_raises t (fs w) d f) in Hcp by done.
    injection Hcp as <-. apply list_elem_of_here.
  - apply IH; try done.
    + by apply (sound_copy t (fs w) T' d f).
    + intros d' f' Hdoomed Hin. cbn [stdout calls] in *.
      apply elem_of_app. apply elem_of_app in Hin as [Hin|Hin]; [left; eauto|].
      exfalso. apply list_elem_of_singleton in Hin. injection Hin as Hs _.
      apply app_inj_tail in Hs as [-> ->].
      by rewrite (doomed_copy_raises t (fs w) d f) in Hcp.
Qed.

Lemma walk_step_warned E t fuel root stack counts w :
  is_Some (kind_at source_dir t) →
  walk_inv t (S fuel) (root :: stack) counts w →
  warned_when_called t w →
  warned_when_called t (walk_step E root stack counts w).2.
Proof.
  intros Hex HI Hw.
  pose proof (walk_inv_sound t Hex _ _ _ _ HI) as HT.
  destruct counts as [cf cd].
  pose proof (inv_stack _ _ _ _ _ HI) as Hst.
  apply Forall_cons in Hst as [(d & -> & Hd & _) _].
  assert (∀ c, is_copy c = false →
            warned_when_called t (World (fs w) (stdout w) (calls w ++ [c])))
    as Hlog.
  { intros c Hc d' f' Hf' Hin. cbn [stdout calls] in *.
    apply elem_of_app in Hin as [Hin|Hin]; [eauto|].
    apply list_elem_of_singleton in Hin. by subst c. }
  unfold walk_step, os_scandir, sys, mbind, M_bind.
  destruct (decide _); [done|].
  destruct (scandir (source_dir ++ d) (fs w)) as [[dirs files]|] eqn:Hscan.
  2:{ unfold mret, M_ret. cbn [snd]. by apply Hlog. }
  pose proof (walked_of_scandir t _ _ _ _ HT Hd Hscan) as Hwd.
  unfold walk_body, Path_mkdir, sys, mbind, M_bind. cbn [calls fs stdout].
  rewrite dest_root_eq.
  destruct (decide _); [by apply Hlog|].
  destruct (mkdir_p (backup_dir ++ d) (fs w)) as [e|T1] eqn:Hmk.
  { cbn [snd]. intros d' f' Hf' Hin. cbn [stdout calls] in *.
    apply elem_of_app in Hin as [Hin|Hin];
      [|by apply list_elem_of_singleton in Hin].
    by apply (Hlog (SysScandir (source_dir ++ d)) eq_refl d' f'). }
  match goal with |- context [copy_files E ?r ?ds ?fl ?n ?w1] =>
    pose proof (copy_files_warned E t d fl n w1) as Hcf end.
  cbn [fs] in Hcf.
  match type of Hcf with _ → _ → _ → _ → ?G =>
    assert G as Hcf'; [apply Hcf; try done|]; clear Hcf end.
  - by apply (sound_mkdir t Hex (fs w) T1 d); [|right|].
  - intros f. by apply (source_file_of_scandir t (fs w) d dirs files f).
  - intros d' f' Hf' Hin. cbn [stdout calls] in *.
    apply elem_of_app in Hin as [Hin|Hin];
      [|by apply list_elem_of_singleton in Hin].
    by apply (Hlog (SysScandir (source_dir ++ d)) eq_refl d' f').
  - by destruct (copy_files _ _ _ _ _ _) as [[cf'|s] w'].
Qed.

(** A run that completes warns about every copy that cannot but fail, and
    leaves the mirror of the file as it was. *)
Lemma doomed_copy_warned E t w d f :
  main E t = Some (0, w) →
  walked t d →
  source_file t d f →
  doomed t d f →
  Warning (source_dir ++ d ++ [f]) PermissionError ∈ stdout w ∧
  kind_at (backup_dir ++ d ++ [f]) (fs w) = kind_at (backup_dir ++ d ++ [f]) t.
Proof.
  intros Hmain Hd Hf Hdoomed.
  destruct (main_zero_walk E t w Hmain)
    as (Hex & T0 & cf & cd & w3 & out & Hmk & Hloop & Hout & Hall & ->).
  assert (warned_when_called t w3 ∧ ∃ fuel, walk_inv t fuel [] (cf, cd) w3)
    as [Hw [fuel HI]].
  { refine (walk_loop_with E t (λ _ _ w, warned_when_called t w)
              Hex _ _ _ _ _ _ _ (walk_start_inv E t T0 Hex Hmk) _ Hloop).
    - intros fuel root stack counts w HI Hw.
      pose proof (walk_step_warned E t fuel root stack counts w Hex HI Hw) as H.
      by destruct (walk_step E root stack counts w) as [[[??]|?] ?].
    - intros d' f' _ Hin. cbn [calls walk_start] in Hin.
      exfalso. not_printed Hin. }
  pose proof (walk_inv_sound t Hex _ _ _ _ HI) as HT.
  cbn [stdout fs]. split.
  - apply elem_of_app. left. apply (Hw d f Hdoomed).
    destruct (walk_inv_visited _ _ _ _ _ HI Hd) as [_ Hfiles].
    by apply (Hfiles f).
  - destruct Hf as (r & c & Hf).
    destruct Hdoomed as [(m & c' & Hf' & Hr')|[(m & c' & Hk & Hwr)|(Hk & dm & Hdm & Hwr)]].
    + destruct (kind_at (backup_dir ++ d ++ [f]) (fs w3)) as [[r' c1|]|] eqn:Hk.
      * destruct (sound_files _ _ HT _ _ _ Hk)
          as [Ht|(d' & f' & Hd' & Hf1 & Hr1 & [Hp|Hp])]; [done| |].
        -- apply mirror_inj in Hp as [-> ->]. congruence.
        -- apply mirror_inj2 in Hp as [-> ->].
           by destruct (source_file_no_child t _ _ f' _ _ (KFile r c) Hf1).
      * destruct (sound_dirs _ _ HT _ Hk) as [Ht|[Hnil|Hwd]].
        -- done.
        -- by destruct d.
        -- apply walked_dir in Hwd. congruence.
      * symmetry. by apply (sound_kept t (fs w3)).
    + rewrite Hk. by apply (sound_read_only _ _ HT).
    + rewrite Hk. destruct (kind_at (backup_dir ++ d ++ [f]) (fs w3)) eqn:HkT; [|done].
      rewrite <- mirror_app in Hk, HkT.
      rewrite (sound_made _ _ HT _ _ _ Hdm Hk) in Hwr; [done|by rewrite HkT].
Qed.

(** X10. No copy fails in silence: in a run that exits with status 0, for
    every regular file of a source directory that the walk visits whose
    copy cannot but fail, because the file cannot be read, or the copy
    that is in the backup is not writable, or there is none and the
    directory of the backup where it goes is not writable, the console
    holds the warning that names the file, with the permission error as
    its reason; and the mirror of the file is as it was before the run: an
    older copy stays, stale. *)
Theorem failed_copies_are_warned_about E t w d f :
  main E t = Some (0, w) →
  walked t d →
  source_file t d f →
  doomed t d f →
  Warning (source_dir ++ d ++ [f]) PermissionError ∈ stdout w ∧
  kind_at (backup_dir ++ d ++ [f]) (fs w) = kind_at (backup_dir ++ d ++ [f]) t.
Proof. apply doomed_copy_warned. Qed.

(** The backup that holds a read-only older copy of [b.txt] keeps it, and
    the run warns. *)
Lemma failed_copies_are_warned_about_witness :
  main quiet read_only_copy_fs = Some (0, read_only_copy_world) ∧
  kind_at (source_dir ++ ["b.txt"]) read_only_copy_fs = Some (KFile rw "new") ∧
  Warning (source_dir ++ ["b.txt"]) PermissionError
    ∈ stdout read_only_copy_world ∧
  kind_at (backup_dir ++ ["b.txt"]) (fs read_only_copy_world)
    = Some (KFile read_only "old").
Proof.
  split; [vm_compute; reflexivity|]. split; [vm_compute; reflexivity|].
  apply (failed_copies_are_warned_about quiet read_only_copy_fs
           read_only_copy_world [] "b.txt").
  - vm_compute; reflexivity.
  - apply walked_nil. eexists. split; [vm_compute; reflexivity|done].
  - exists rw, "new". vm_compute; reflexivity.
  - right. left. exists read_only, "old". split; [vm_compute; reflexivity|done].
Defined.

(** ** Progress lines *)

Lemma progress_lines_succ n :
  progress_lines (n + 1) =
  progress_lines n ++ if (n + 1) mod 100 =? 0 then [Progress (n + 1)] else [].
Proof.
  unfold progress_lines.
  pose proof (Nat.div_mod_eq (n + 1) 100) as H1.
  pose proof (Nat.div_mod_eq n 100) as H0.
  pose proof (Nat.mod_upper_bound (n + 1) 100 ltac:(done)) as B1.
  pose proof (Nat.mod_upper_bound n 100 ltac:(done)) as B0.
  destruct (Nat.eqb_spec ((n + 1) mod 100) 0) as [Hz|Hnz].
  - assert ((n + 1) / 100 = S (n / 100)) as -> by lia.
    rewrite seq_S, fmap_app. cbn [fmap list_fmap]. do 3 f_equal. lia.
  - assert ((n + 1) / 100 = n / 100) as -> by lia.
    by rewrite app_nil_r.
Qed.

Lemma copy_files_progress E root dest files n w :
  filter is_progress (stdout w) = progress_lines n →
  match copy_files E root dest files n w with
  | (Ret n', w') => filter is_progress (stdout w') = progress_lines n'
  | (Stop _, _) => True
  end.
Proof.
  revert n w. induction files as [|f files IH]; intros n w Hw; [done|].
  cbn [copy_files]. unfold mbind, M_bind. rewrite copy_file_eq.
  destruct (decide _); [done|].
  destruct (copy2 _ _ _) as [e|T'].
  - apply IH. cbn [stdout]. rewrite filter_app, Hw. by rewrite app_nil_r.
  - apply IH. cbn [stdout]. rewrite filter_app, Hw, progress_lines_succ.
    f_equal. by destruct ((n + 1) mod 100 =? 0).
Qed.

Lemma walk_step_progress E root stack counts w :
  filter is_progress (stdout w) = progress_lines counts.1 →
  match walk_step E root stack counts w with
  | (Ret (_, counts'), w') =>
      filter is_progress (stdout w') = progress_lines counts'.1
  | (Stop _, _) => True
  end.
Proof.
  intros Hw.
  unfold walk_step, os_scandir, sys, mbind, M_bind.
  destruct (decide _); [done|].
  destruct (scandir root (fs w)) as [[dirs files]|]; [|done].
  destruct counts as [cf cd].
  unfold walk_body, Path_mkdir, sys, mbind, M_bind. cbn [calls fs stdout].
  destruct (decide _); [done|].
  destruct (mkdir_p _ (fs w)) as [e|T1]; [done|].
  match goal with |- context [copy_files E ?r ?d ?fl ?n ?w] =>
    pose proof (copy_files_progress E r d fl n w Hw) as H;
    destruct (copy_files E r d fl n w) as [[?|?] ?] end; done.
Qed.

(** X11. In a run that exits with status 0 and reports [n] files copied, the
    progress lines printed are, in this order, one for each multiple of 100
    from 100 up to [n], and no other: a progress line is printed when the
    counter of copied files reaches a multiple of 100, not for the files
    whose copy failed. *)
Theorem progress_every_hundred E t w :
  main E t = Some (0, w) →
  ∃ n, FilesCopied n ∈ stdout w ∧
       filter is_progress (stdout w) = progress_lines n.
Proof.
  intros Hmain.
  destruct (main_zero_walk E t w Hmain)
    as (Hex & T0 & cf & cd & w3 & out & Hmk & Hloop & Hout & Hall & ->).
  assert (filter is_progress (stdout w3) = progress_lines cf) as Hp.
  { refine (proj1 (walk_loop_with E t
              (λ _ counts w, filter is_progress (stdout w) = progress_lines counts.1)
              Hex _ _ _ _ _ _ _ (walk_start_inv E t T0 Hex Hmk) _ Hloop)).
    - intros fuel root stack counts w _ Hw.
      pose proof (walk_step_progress E root stack counts w Hw) as H.
      by destruct (walk_step E root stack counts w) as [[[??]|?] ?].
    - done. }
  exists cf. cbn [stdout]. split.
  - apply elem_of_app. right. unfold summary.
    do 6 apply list_elem_of_further. apply list_elem_of_here.
  - rewrite filter_app, Hp. apply app_nil_r.
Qed.

(** On a source of 101 files the run prints one progress line, at the
    hundredth copy. *)
Lemma progress_every_hundred_witness :
  main quiet hundred_fs = Some (0, hundred_world) ∧
  filter is_progress (stdout hundred_world) = [Progress 100] ∧
  ∃ n, FilesCopied n ∈ stdout hundred_world ∧
       filter is_progress (stdout hundred_world) = progress_lines n.
Proof.
  split; [vm_compute; reflexivity|]. split; [vm_compute; reflexivity|].
  apply (progress_every_hundred quiet hundred_fs hundred_world).
  vm_compute. reflexivity.
Defined.

(** ** The console of a run that completes *)

(** X12. The console of a run that exits with status 0 is, in this order:
    the header with the two paths and the timestamp; the three lines that
    announce the copy; then progress lines and warnings only; then the
    summary, whose two numbers are determined by the source and the
    warnings: the files copied are the files of the source directories
    that the walk visits less one per warning, and the directories are the
    directories below the source root that the walk visits. *)
Theorem console_of_completed_run E t w :
  main E t = Some (0, w) →
  ∃ out n,
    stdout w = header E ++ ready ++ out ++ summary n (total_dirs t) ∧
    Forall loop_line out ∧
    n + warnings out = total_files t.
Proof.
  intros Hmain.
  destruct (main_zero_walk E t w Hmain)
    as (Hex & T0 & cf & cd & w3 & out & Hmk & Hloop & Hout & Hall & ->).
  assert (count_inv t [] (cf, cd) ∧ ∃ fuel, walk_inv t fuel [] (cf, cd) w3)
    as [Hsum [fuel HI]].
  { refine (walk_loop_with E t (λ stack counts _, count_inv t stack counts)
              Hex _ _ _ _ _ _ _ (walk_start_inv E t T0 Hex Hmk) _ Hloop).
    - intros. by eapply count_inv_step.
    - apply count_inv_start. }
  unfold count_inv in Hsum.
  cbn [snd sum_list_with] in Hsum. rewrite Nat.add_0_r in Hsum. subst cd.
  exists out, cf. cbn [stdout]. split_and!; [|done|].
  - by rewrite Hout, <- !app_assoc.
  - pose proof (inv_count _ _ _ _ _ HI) as Hc.
    pose proof (inv_total _ _ _ _ _ HI) as Ht.
    cbn [fst sum_list_with] in *. rewrite Hout, !warnings_app in Hc.
    change (warnings (header E)) with 0 in Hc.
    change (warnings ready) with 0 in Hc. lia.
Qed.

Lemma console_of_completed_run_witness :
  main quiet unlistable_fs = Some (0, unlistable_world) ∧
  ∃ out n,
    stdout unlistable_world
      = header quiet ++ ready ++ out ++ summary n (total_dirs unlistable_fs) ∧
    Forall loop_line out ∧
    n + warnings out = total_files unlistable_fs.
Proof.
  split; [vm_compute; reflexivity|].
  apply (console_of_completed_run quiet unlistable_fs unlistable_world).
  vm_compute. reflexivity.
Defined.

(** ** A second run *)











(** ** Interrupts *)

Lemma take_prefix {A} (l1 l2 : list A) k :
  l1 `prefix_of` l2 → k ≤ length l1 → take k l2 = take k l1.
Proof. intros [x ->] Hk. by apply take_app_le. Qed.

Lemma cut_short_ret k {A} (a : A) : cut_short k (mret a) (mret a).
Proof.
  intros w. unfold mret, M_ret. cbn [snd]. split_and!; [done..|].
  intros Hk. by rewrite decide_True.
Qed.

Lemma cut_short_print k o : cut_short k (print o) (print o).
Proof.
  intros w. unfold print. cbn [snd calls stdout]. split_and!.
  - done.
  - by apply prefix_app_r.
  - intros Hk. by rewrite decide_True.
Qed.

Lemma cut_short_exit k {A} c : cut_short k (sys_exit (A:=A) c) (sys_exit c).
Proof.
  intros w. unfold sys_exit. cbn [snd]. split_and!; [done..|].
  intros Hk. by rewrite decide_True.
Qed.

Lemma cut_short_stop k {A} s : cut_short k (A:=A) (λ w, (Stop s, w)) (λ w, (Stop s, w)).
Proof.
  intros w. cbn [snd]. split_and!; [done..|].
  intros Hk. by rewrite decide_True.
Qed.

Lemma cut_short_bind k {A B} (m0 mk : M A) (f0 fk : A → M B) :
  cut_short k m0 mk → (∀ a, cut_short k (f0 a) (fk a)) →
  cut_short k (m0 ≫= f0) (mk ≫= fk).
Proof.
  intros Hm Hf w. destruct (Hm w) as (Hc & Ho & Hcut).
  unfold mbind, M_bind.
  destruct (m0 w) as [[a|s] w1] eqn:Hm0; cbn [snd] in *.
  - destruct (Hf a w1) as (Hc1 & Ho1 & Hcut1).
    split_and!; [by etrans|by etrans|]. intros Hk. specialize (Hcut Hk).
    destruct (decide (length (calls w1) ≤ k)) as [Hk1|Hk1].
    + rewrite Hcut. specialize (Hcut1 Hk1).
      destruct (decide (length (calls (f0 a w1).2) ≤ k)); [done|].
      destruct Hcut1 as (wk & Hwk & Hck & Ho2 & Ho3).
      exists wk. split_and!; [done..|by etrans|done].
    + destruct Hcut as (wk & Hwk & Hck & Ho2 & Ho3).
      pose proof (prefix_length _ _ Hc1).
      rewrite decide_False by lia. rewrite Hwk.
      exists wk. split_and!; [done| |done|by etrans].
      rewrite Hck. symmetry. apply take_prefix; [done|lia].
  - split_and!; [done..|]. intros Hk. specialize (Hcut Hk).
    destruct (decide (length (calls w1) ≤ k)); [by rewrite Hcut|].
    destruct Hcut as (wk & Hwk & Hck & Ho2 & Ho3).
    rewrite Hwk. by exists wk.
Qed.

Lemma cut_short_try k {A} (m0 mk : M A) (h0 hk : exn → M A) :
  cut_short k m0 mk → (∀ e, cut_short k (h0 e) (hk e)) →
  cut_short k (try_except m0 h0) (try_except mk hk).
Proof.
  intros Hm Hh w. destruct (Hm w) as (Hc & Ho & Hcut).
  unfold try_except.
  destruct (m0 w) as [[a|[e| |c|]] w1] eqn:Hm0; cbn [snd] in *.
  2:{ destruct (Hh e w1) as (Hc1 & Ho1 & Hcut1).
      split_and!; [by etrans|by etrans|]. intros Hk. specialize (Hcut Hk).
      destruct (decide (length (calls w1) ≤ k)) as [Hk1|Hk1].
      + rewrite Hcut. specialize (Hcut1 Hk1).
        destruct (decide (length (calls (h0 e w1).2) ≤ k)); [done|].
        destruct Hcut1 as (wk & Hwk & Hck & Ho2 & Ho3).
        exists wk. split_and!; [done..|by etrans|done].
      + destruct Hcut as (wk & Hwk & Hck & Ho2 & Ho3).
        pose proof (prefix_length _ _ Hc1).
        rewrite decide_False by lia. rewrite Hwk.
        exists wk. split_and!; [done| |done|by etrans].
        rewrite Hck. symmetry. apply take_prefix; [done|lia]. }
  all: split_and!; [done..|]; intros Hk; specialize (Hcut Hk);
    (destruct (decide (length (calls w1) ≤ k)); [by rewrite Hcut|]);
    destruct Hcut as (wk & Hwk & Hck & Ho2 & Ho3);
    rewrite Hwk; by exists wk.
Qed.

Section interrupt.
Variable E : env.
Variable k : nat.
Hypothesis no_sigint : sigint E = None.

Lemma cut_short_sys {A} c (f : node → outcome A * node) :
  cut_short k (sys E c f) (sys (interrupt_at E k) c f).
Proof.
  intros w. unfold sys. rewrite no_sigint. cbn [sigint interrupt_at].
  rewrite decide_False by done.
  destruct (f (fs w)) as [r T']. cbn [snd calls stdout].
  split_and!; [by apply prefix_app_r|done|].
  intros Hk. rewrite length_app. cbn [length].
  destruct (decide (length (calls w) + 1 ≤ k)) as [Hk1|Hk1].
  - rewrite decide_False; [done|]. intros [= ->]. lia.
  - rewrite decide_True by (f_equal; lia).
    exists w. split_and!; [done| |done..].
    symmetry. apply take_app_length'. lia.
Qed.

Lemma cut_short_copy_file root dest f n :
  cut_short k (copy_file E root dest f n)
    (copy_file (interrupt_at E k) root dest f n).
Proof.
  unfold copy_file. apply cut_short_try.
  - apply cut_short_bind; [apply cut_short_sys|]. intros _.
    apply cut_short_bind; [|intros _; apply cut_short_ret].
    destruct (_ =? _); [apply cut_short_print|apply cut_short_ret].
  - intros e. apply cut_short_bind; [apply cut_short_print|].
    intros _. apply cut_short_ret.
Qed.

Lemma cut_short_copy_files root dest files n :
  cut_short k (copy_files E root dest files n)
    (copy_files (interrupt_at E k) root dest files n).
Proof.
  revert n. induction files as [|f files IH]; intros n; cbn [copy_files].
  - apply cut_short_ret.
  - apply cut_short_bind; [apply cut_short_copy_file|done].
Qed.

Lemma cut_short_walk_step root stack counts :
  cut_short k (walk_step E root stack counts)
    (walk_step (interrupt_at E k) root stack counts).
Proof.
  unfold walk_step. apply cut_short_bind; [apply cut_short_sys|].
  intros [[dirs files]|]; [|apply cut_short_ret].
  apply cut_short_bind; [|intros [??]; apply cut_short_ret].
  unfold walk_body. destruct counts as [cf cd].
  apply cut_short_bind; [apply cut_short_sys|]. intros _.
  apply cut_short_bind; [apply cut_short_copy_files|].
  intros ?. apply cut_short_ret.
Qed.

Lemma cut_short_walk_loop fuel stack counts :
  cut_short k (walk_loop E fuel stack counts)
    (walk_loop (interrupt_at E k) fuel stack counts).
Proof.
  revert stack counts. induction fuel as [|fuel IH]; intros stack counts;
    (destruct stack as [|root stack]; cbn [walk_loop]; [apply cut_short_ret|]).
  - apply cut_short_stop.
  - apply cut_short_bind; [apply cut_short_walk_step|]. by intros [??].
Qed.

Lemma cut_short_create_backup :
  cut_short k (create_backup E) (create_backup (interrupt_at E k)).
Proof.
  unfold create_backup.
  repeat (apply cut_short_bind; [apply cut_short_print|intros _]).
  apply cut_short_bind; [apply cut_short_sys|]. intros ex.
  apply cut_short_bind.
  { destruct (negb ex); [|apply cut_short_ret].
    apply cut_short_bind; [apply cut_short_print|]. intros _.
    apply cut_short_exit. }
  intros _. apply cut_short_bind; [apply cut_short_sys|]. intros _.
  repeat (apply cut_short_bind; [apply cut_short_print|intros _]).
  apply cut_short_bind.
  { intros w. apply cut_short_walk_loop. }
  intros [cf cd].
  repeat (apply cut_short_bind; [apply cut_short_print|intros _]).
  apply cut_short_print.
Qed.
End interrupt.

(** X14. An interrupt undoes nothing and adds nothing. Take a run without
    interrupt and its log of filesystem calls. The same run interrupted at
    the call of index [k] is the same in every respect if the log has at
    most [k] calls; otherwise it exits with status 1, has issued exactly the
    first [k] calls of the log, leaves the filesystem these [k] calls
    produce (what was copied so far stays, the rest is missing), and its
    console is a beginning of the console of the full run followed by the
    cancellation line. *)
Theorem interrupt_cuts_run_short E k t code w :
  sigint E = None →
  main E t = Some (code, w) →
  (length (calls w) ≤ k → main (interrupt_at E k) t = Some (code, w)) ∧
  (k < length (calls w) →
   ∃ out, out `prefix_of` stdout w ∧
          main (interrupt_at E k) t =
            Some (1, World (replay (take k (calls w)) t) (out ++ [Cancelled])
                       (take k (calls w)))).
Proof.
  intros HE Hmain.
  destruct (cut_short_create_backup E k HE (boot t)) as (_ & _ & Hcut).
  specialize (Hcut ltac:(cbn; lia)).
  assert (∃ r w0, create_backup E (boot t) = (r, w0) ∧ calls w = calls w0 ∧
                  stdout w0 `prefix_of` stdout w) as (r & w0 & Hrun & Hcalls & Hout).
  { unfold main in Hmain.
    destruct (create_backup E (boot t)) as [[u|[e| |c|]] w0]; simplify_eq;
      eexists _, _; (split; [done|]); cbn [calls stdout];
      (split; [done|]); try done; by apply prefix_app_r. }
  rewrite Hrun in Hcut. cbn [snd] in Hcut. rewrite <- Hcalls in Hcut.
  split; intros Hk.
  - rewrite decide_True in Hcut by done. unfold main in *.
    rewrite Hcut. by rewrite Hrun in Hmain.
  - rewrite decide_False in Hcut by lia.
    destruct Hcut as (wk & Hwk & Hck & _ & Ho).
    exists (stdout wk). split; [by etrans|].
    assert (main (interrupt_at E k) t
            = Some (1, World (fs wk) (stdout wk ++ [Cancelled]) (calls wk)))
      as Hmk by (unfold main; by rewrite Hwk).
    destruct (main_sound _ _ _ _ Hmk) as (_ & Hfs & _).
    cbn [fs calls] in Hfs. rewrite Hmk, Hfs, Hck. done.
Qed.

(** The example run, interrupted at its fifth call, has created the backup
    root and copied [b.txt], and nothing of the directory [a]. *)
Lemma interrupt_cuts_run_short_witness :
  sigint quiet = None ∧
  main quiet example_fs = Some (0, example_world) ∧
  4 < length (calls example_world) ∧
  ∃ out, out `prefix_of` stdout example_world ∧
         main (interrupt_at quiet 4) example_fs =
           Some (1, World (replay (take 4 (calls example_world)) example_fs)
                      (out ++ [Cancelled]) (take 4 (calls example_world))).
Proof.
  split; [reflexivity|]. split; [vm_compute; reflexivity|].
  split; [vm_compute; lia|].
  apply (interrupt_cuts_run_short quiet 4 example_fs 0 example_world);
    [reflexivity|vm_compute; reflexivity|vm_compute; lia].
Defined.

(** ** The clock *)

Lemma clock_blind_ret ts {A} (a : A) : clock_blind ts (mret a) (mret a).
Proof. by intros w1 w2 H. Qed.

Lemma clock_blind_stop ts {A} s :
  clock_blind ts (A:=A) (λ w, (Stop s, w)) (λ w, (Stop s, w)).
Proof. by intros w1 w2 H. Qed.

Lemma clock_blind_print ts o1 o2 :
  o2 = retime ts o1 → clock_blind ts (print o1) (print o2).
Proof.
  intros -> w1 w2 (Hfs & Hc & Ho). unfold print, retimed. cbn.
  split_and!; [done..|]. by rewrite Ho, fmap_app.
Qed.

Lemma clock_blind_bind ts {A B} (m1 m2 : M A) (f1 f2 : A → M B) :
  clock_blind ts m1 m2 → (∀ a, clock_blind ts (f1 a) (f2 a)) →
  clock_blind ts (m1 ≫= f1) (m2 ≫= f2).
Proof.
  intros Hm Hf w1 w2 Hw. destruct (Hm w1 w2 Hw) as [Hr Hw'].
  unfold mbind, M_bind.
  destruct (m1 w1) as [[a|s] w1'], (m2 w2) as [r2 w2']; cbn [fst snd] in *;
    subst r2; [by apply Hf|done].
Qed.

Lemma clock_blind_try ts {A} (m1 m2 : M A) (h1 h2 : exn → M A) :
  clock_blind ts m1 m2 → (∀ e, clock_blind ts (h1 e) (h2 e)) →
  clock_blind ts (try_except m1 h1) (try_except m2 h2).
Proof.
  intros Hm Hh w1 w2 Hw. destruct (Hm w1 w2 Hw) as [Hr Hw'].
  unfold try_except.
  destruct (m1 w1) as [[a|[e| |c|]] w1'], (m2 w2) as [r2 w2'];
    cbn [fst snd] in *; subst r2; try done.
  by apply Hh.
Qed.

Section clock.
Variables E1 E2 : env.
Hypothesis same_sigint : sigint E1 = sigint E2.

Lemma clock_blind_sys {A} c (f : node → outcome A * node) :
  clock_blind (now E2) (sys E1 c f) (sys E2 c f).
Proof.
  intros w1 w2 (Hfs & Hc & Ho). unfold sys. rewrite same_sigint, Hc, Hfs.
  destruct (decide _); [done|].
  destruct (f (fs w1)) as [r T']. unfold retimed. cbn. by rewrite Ho.
Qed.

Lemma clock_blind_copy_file root dest f n :
  clock_blind (now E2) (copy_file E1 root dest f n) (copy_file E2 root dest f n).
Proof.
  unfold copy_file. apply clock_blind_try.
  - apply clock_blind_bind; [apply clock_blind_sys|]. intros _.
    apply clock_blind_bind; [|intros _; apply clock_blind_ret].
    destruct (_ =? _); [by apply clock_blind_print|apply clock_blind_ret].
  - intros e. apply clock_blind_bind; [by apply clock_blind_print|].
    intros _. apply clock_blind_ret.
Qed.

Lemma clock_blind_copy_files root dest files n :
  clock_blind (now E2) (copy_files E1 root dest files n)
    (copy_files E2 root dest files n).
Proof.
  revert n. induction files as [|f files IH]; intros n; cbn [copy_files].
  - apply clock_blind_ret.
  - apply clock_blind_bind; [apply clock_blind_copy_file|done].
Qed.

Lemma clock_blind_walk_step root stack counts :
  clock_blind (now E2) (walk_step E1 root stack counts)
    (walk_step E2 root stack counts).
Proof.
  unfold walk_step. apply clock_blind_bind; [apply clock_blind_sys|].
  intros [[dirs files]|]; [|apply clock_blind_ret].
  apply clock_blind_bind; [|intros [??]; apply clock_blind_ret].
  unfold walk_body. destruct counts as [cf cd].
  apply clock_blind_bind; [apply clock_blind_sys|]. intros _.
  apply clock_blind_bind; [apply clock_blind_copy_files|].
  intros ?. apply clock_blind_ret.
Qed.

Lemma clock_blind_walk_loop fuel stack counts :
  clock_blind (now E2) (walk_loop E1 fuel stack counts)
    (walk_loop E2 fuel stack counts).
Proof.
  revert stack counts. induction fuel as [|fuel IH]; intros stack counts;
    (destruct stack as [|root stack]; cbn [walk_loop]; [apply clock_blind_ret|]).
  - apply clock_blind_stop.
  - apply clock_blind_bind; [apply clock_blind_walk_step|]. by intros [??].
Qed.

Lemma clock_blind_create_backup :
  clock_blind (now E2) (create_backup E1) (create_backup E2).
Proof.
  unfold create_backup.
  repeat (apply clock_blind_bind; [by apply clock_blind_print|intros _]).
  apply clock_blind_bind; [apply clock_blind_sys|]. intros ex.
  apply clock_blind_bind.
  { destruct (negb ex); [|apply clock_blind_ret].
    apply clock_blind_bind; [by apply clock_blind_print|]. intros _.
    apply clock_blind_stop. }
  intros _. apply clock_blind_bind; [apply clock_blind_sys|]. intros _.
  repeat (apply clock_blind_bind; [by apply clock_blind_print|intros _]).
  apply clock_blind_bind.
  { intros w1 w2 Hw. unfold for_os_walk. destruct Hw as (Hfs & Hc & Ho).
    rewrite Hfs. by apply clock_blind_walk_loop. }
  intros [cf cd].
  repeat (apply clock_blind_bind; [by apply clock_blind_print|intros _]).
  by apply clock_blind_print.
Qed.
End clock.

(** X15. The time of the run is printed and nothing else: two runs on the
    same filesystem, interrupted at the same call if at all, that differ in
    the clock only exit with the same status, issue the same filesystem
    calls and leave the same filesystem; their consoles differ in the
    timestamp line only. In particular the backup always goes to the same
    directory, whenever it is made. *)
Theorem clock_is_only_printed E1 E2 t code w1 :
  sigint E1 = sigint E2 →
  main E1 t = Some (code, w1) →
  main E2 t =
    Some (code, World (fs w1) (retime (now E2) <$> stdout w1) (calls w1)).
Proof.
  intros HE Hmain.
  destruct (clock_blind_create_backup E1 E2 HE (boot t) (boot t)) as [Hr Hw];
    [done|].
  unfold main in *.
  destruct (create_backup E1 (boot t)) as [r w1'],
           (create_backup E2 (boot t)) as [r2 [T2 o2 c2]].
  destruct Hw as (Hfs & Hc & Ho). cbn [fst snd fs stdout calls] in *.
  subst r2 T2 c2 o2.
  destruct r as [u|[e| |c|]]; simplify_eq; cbn [fs stdout calls]; try done.
  - by rewrite fmap_app.
  - by rewrite fmap_app.
Qed.

Lemma clock_is_only_printed_witness :
  sigint quiet = sigint (Env "20270704_120000" None) ∧
  main quiet example_fs = Some (0, example_world) ∧
  main (Env "20270704_120000" None) example_fs =
    Some (0, World (fs example_world)
               (retime "20270704_120000" <$> stdout example_world)
               (calls example_world)).
Proof.
  split; [reflexivity|]. split; [vm_compute; reflexivity|].
  apply (clock_is_only_printed quiet (Env "20270704_120000" None) example_fs
           0 example_world); [reflexivity|vm_compute; reflexivity].
Defined.
